(** * Survey cleaning and estimation engine: a shallow embedding

    The development follows the two utility classes of the repository,
    [DataProcessor] (imputation, outlier treatment, rule validation) and
    [StatisticalAnalysis] (weighted estimates), over a model of the
    JavaScript values they compute with.

    Numbers are IEEE 754 binary64 values (Rocq's primitive floats), strings
    are sequences of one-byte code units, rows are objects whose own
    properties are kept in property order. *)

From Stdlib Require Import ZArith List String Ascii Bool Lia PeanoNat Permutation.
From Stdlib Require Import Floats.
Import ListNotations.

Set Warnings "-inexact-float".

(** ** The JavaScript values and built-ins the code relies on *)

Module JS.

Local Open Scope Z_scope.

(** A cell of a row, or a scalar of a configuration: [undefined], [null],
    a boolean, a number or a string. *)
Inductive Value : Type :=
| VUndefined
| VNull
| VBool (b : bool)
| VNum (x : float)
| VStr (s : string).

(** Outcome of an evaluation that may throw a [TypeError]. *)
Inductive res (A : Type) : Type :=
| Ok (a : A)
| TypeError.
Arguments Ok {A} a.
Arguments TypeError {A}.

Definition bind {A B : Type} (m : res A) (f : A -> res B) : res B :=
  match m with
  | Ok a => f a
  | TypeError => TypeError
  end.

Notation "x <- m ;; k" := (bind m (fun x => k))
  (at level 61, m at next level, right associativity).

Fixpoint mapM {A B : Type} (f : A -> res B) (l : list A) : res (list B) :=
  match l with
  | [] => Ok []
  | a :: l' => b <- f a ;; bs <- mapM f l' ;; Ok (b :: bs)
  end.

Fixpoint foldM {A B : Type} (f : B -> A -> res B) (l : list A) (b : B) : res B :=
  match l with
  | [] => Ok b
  | a :: l' => b' <- f b a ;; foldM f l' b'
  end.

(** *** Numbers *)

Definition NaN : float := PrimFloat.nan.
Definition Infinity : float := PrimFloat.infinity.
Definition isNaN (x : float) : bool := PrimFloat.is_nan x.

(** The number nearest to an integer (exact below 2^53). *)
Definition Z2float (z : Z) : float :=
  SF2Prim (binary_normalize prec emax z 0 false).

Definition nat2float (n : nat) : float := Z2float (Z.of_nat n).

(** The integer a number denotes, when it is a finite integer. *)
Definition float2Z (x : float) : option Z :=
  match Prim2SF x with
  | S754_zero _ => Some 0
  | S754_finite s m e =>
      let sgn := fun z : Z => if s then - z else z in
      if 0 <=? e then Some (sgn (Zpos m * 2 ^ e))
      else if Zpos m mod 2 ^ (- e) =? 0 then Some (sgn (Zpos m / 2 ^ (- e)))
      else None
  | _ => None
  end.

(** [Math.floor]. *)
Definition Math_floor (x : float) : float :=
  match Prim2SF x with
  | S754_finite s m e =>
      if e <? 0 then
        let q := Zpos m / 2 ^ (- e) in
        let r := Zpos m mod 2 ^ (- e) in
        if s then (if r =? 0 then x else Z2float (- (q + 1)))
        else Z2float q
      else x
  | _ => x
  end.

(** [Math.abs], [Math.sqrt]; [Math.pow(x, 2)] is the square, which engines
    compute as the product. *)
Definition Math_abs (x : float) : float := PrimFloat.abs x.
Definition Math_sqrt (x : float) : float := PrimFloat.sqrt x.
Definition Math_pow_2 (x : float) : float := (x * x)%float.

(** [a[i]] for an array and a numeric index: [None] is [undefined]. *)
Definition array_get {A : Type} (l : list A) (i : float) : option A :=
  match float2Z i with
  | Some z => if 0 <=? z then nth_error l (Z.to_nat z) else None
  | None => None
  end.

(** [ToNumber] of an array element that may be [undefined]. *)
Definition num_or_undefined (o : option float) : float :=
  match o with
  | Some x => x
  | None => NaN
  end.

(** Truthiness of a number: [0], [-0] and [NaN] are falsy. *)
Definition truthy_num (x : float) : bool :=
  negb (isNaN x || PrimFloat.eqb x 0%float).

(** *** Strings to numbers *)

Definition is_digit (c : ascii) : bool :=
  let n := nat_of_ascii c in (48 <=? n)%nat && (n <=? 57)%nat.

Definition digit_val (c : ascii) : Z := Z.of_nat (nat_of_ascii c) - 48.

(** White space of the string grammar that fits a one-byte code unit. *)
Definition is_ws (c : ascii) : bool :=
  let n := nat_of_ascii c in
  ((9 <=? n)%nat && (n <=? 13)%nat) || (n =? 32)%nat || (n =? 160)%nat.

Fixpoint trim_left (s : string) : string :=
  match s with
  | String c r => if is_ws c then trim_left r else s
  | EmptyString => s
  end.

(** Reads a run of decimal digits: the number read on top of [acc], how many
    digits were read on top of [n], and the rest. *)
Fixpoint scan_digits (s : string) (acc : Z) (n : nat) : Z * nat * string :=
  match s with
  | String c r =>
      if is_digit c then scan_digits r (10 * acc + digit_val c) (S n)
      else (acc, n, s)
  | EmptyString => (acc, n, s)
  end.

Fixpoint strip_prefix (p s : string) : option string :=
  match p, s with
  | EmptyString, _ => Some s
  | String a p', String b s' => if Ascii.eqb a b then strip_prefix p' s' else None
  | String _ _, EmptyString => None
  end.

(** An unsigned decimal literal: [Infinity] or [m * 10 ^ e10]. *)
Inductive StrNum : Type :=
| SInfinity
| SDec (m : Z) (e10 : Z).

(** The optional exponent part: without digits after [e] there is none. *)
Definition scan_exponent (s : string) : Z * string :=
  match s with
  | String c r =>
      if Ascii.eqb c "e" || Ascii.eqb c "E" then
        let '(neg, r1) :=
          match r with
          | String "+" r' => (false, r')
          | String "-" r' => (true, r')
          | _ => (false, r)
          end in
        let '(v, n, r2) := scan_digits r1 0 0 in
        match n with
        | O => (0, s)
        | S _ => ((if neg then - v else v), r2)
        end
      else (0, s)
  | EmptyString => (0, s)
  end.

(** The longest prefix that is an unsigned decimal literal, and the rest. *)
Definition scan_unsigned (s : string) : option (StrNum * string) :=
  match strip_prefix "Infinity" s with
  | Some r => Some (SInfinity, r)
  | None =>
      let '(i, ni, r1) := scan_digits s 0 0 in
      let '(m, nf, r2) :=
        match r1 with
        | String "." r => scan_digits r i 0
        | _ => (i, O, r1)
        end in
      match ni, nf with
      | O, O => None
      | _, _ => let '(e, r3) := scan_exponent r2 in
                Some (SDec m (e - Z.of_nat nf), r3)
      end
  end.

Definition scan_signed (s : string) : option (bool * StrNum * string) :=
  match s with
  | String "+" r => option_map (fun '(n, r') => (false, n, r')) (scan_unsigned r)
  | String "-" r => option_map (fun '(n, r') => (true, n, r')) (scan_unsigned r)
  | _ => option_map (fun '(n, r') => (false, n, r')) (scan_unsigned s)
  end.

Definition signed_zero (neg : bool) : float := if neg then (-0)%float else 0%float.
Definition signed_infinity (neg : bool) : float :=
  if neg then PrimFloat.neg_infinity else PrimFloat.infinity.

(** The number nearest to [m * 10 ^ e10] (ties to even), for [0 <= m].  The two
    magnitude tests only spare the exact computation where the result is
    already known to overflow or to vanish. *)
Definition dec2float (neg : bool) (m e10 : Z) : float :=
  if m <=? 0 then signed_zero neg
  else
    let L := Z.log2 m in
    if 320 <? 3 * L / 10 + e10 then signed_infinity neg
    else if (31 * (L + 1) + 99) / 100 + e10 <? -330 then signed_zero neg
    else if 0 <=? e10 then
      SF2Prim (binary_normalize prec emax ((if neg then - m else m) * 10 ^ e10) 0 false)
    else
      SF2Prim (SFdiv prec emax (S754_finite neg (Z.to_pos m) 0)
                               (S754_finite false (Z.to_pos (10 ^ (- e10))) 0)).

Definition StrNum_value (neg : bool) (n : StrNum) : float :=
  match n with
  | SInfinity => signed_infinity neg
  | SDec m e => dec2float neg m e
  end.

(** [parseFloat] of a string. *)
Definition parseFloat_string (s : string) : float :=
  match scan_signed (trim_left s) with
  | Some (neg, n, _) => StrNum_value neg n
  | None => NaN
  end.

Definition hex_val (c : ascii) : option Z :=
  let n := nat_of_ascii c in
  if is_digit c then Some (Z.of_nat n - 48)
  else if (97 <=? n)%nat && (n <=? 102)%nat then Some (Z.of_nat n - 87)
  else if (65 <=? n)%nat && (n <=? 70)%nat then Some (Z.of_nat n - 55)
  else None.

(** Reads digits of the given radix up to the end of the string (white space
    may follow); [None] when there is no digit or something else follows. *)
Fixpoint scan_radix (radix : Z) (s : string) (acc : Z) (n : nat) : option Z :=
  match s with
  | String c r =>
      match hex_val c with
      | Some d => if d <? radix then scan_radix radix r (radix * acc + d) (S n)
                  else None
      | None => match n, trim_left s with
                | S _, EmptyString => Some acc
                | _, _ => None
                end
      end
  | EmptyString => match n with O => None | S _ => Some acc end
  end.

(** [ToNumber] of a string: the whole string, white space apart, must be a
    numeric literal; the empty string is [0]. *)
Definition StringToNumber (s : string) : float :=
  let radix_lit (radix : Z) (r : string) : float :=
    match scan_radix radix r 0 0 with
    | Some z => Z2float z
    | None => NaN
    end in
  match trim_left s with
  | EmptyString => 0%float
  | String "0" (String "x" r) | String "0" (String "X" r) => radix_lit 16 r
  | String "0" (String "o" r) | String "0" (String "O" r) => radix_lit 8 r
  | String "0" (String "b" r) | String "0" (String "B" r) => radix_lit 2 r
  | t => match scan_signed t with
         | Some (neg, n, rest) =>
             match trim_left rest with
             | EmptyString => StrNum_value neg n
             | _ => NaN
             end
         | None => NaN
         end
  end.

(** *** Numbers to strings *)

Definition digit_char (d : Z) : ascii := ascii_of_nat (48 + Z.to_nat d).

Fixpoint Z_digits_aux (fuel : nat) (z : Z) (acc : string) : string :=
  match fuel with
  | O => acc
  | S f =>
      let acc' := String (digit_char (z mod 10)) acc in
      if z <? 10 then acc' else Z_digits_aux f (z / 10) acc'
  end.

(** Decimal digits of a natural number. *)
Definition Z_digits (z : Z) : string :=
  Z_digits_aux (S (Z.to_nat (Z.log2 z))) z EmptyString.

Fixpoint zeros (n : nat) : string :=
  match n with
  | O => EmptyString
  | S n' => String "0" (zeros n')
  end.

(** [num / den >= 10 ^ n], for positive [num] and [den]. *)
Definition ge_pow10 (num den n : Z) : bool :=
  if 0 <=? n then 10 ^ n * den <=? num else den <=? num * 10 ^ (- n).

Fixpoint first_pow10_above (fuel : nat) (num den n : Z) : Z :=
  match fuel with
  | O => n
  | S f => if ge_pow10 num den n then first_pow10_above f num den (n + 1) else n
  end.

(** The [n] with [10 ^ (n - 1) <= num / den < 10 ^ n]. *)
Definition decimal_exponent (num den : Z) : Z :=
  let est := (Z.log2 num - Z.log2 den) * 30103 / 100000 in
  first_pow10_above 8 num den (est - 2).

(** [floor (num / den / 10 ^ p)]. *)
Definition scaled_floor (num den p : Z) : Z :=
  if 0 <=? p then num / (den * 10 ^ p) else (num * 10 ^ (- p)) / den.

(** Twice [num / den] compared with [(2 s + 1) * 10 ^ p]. *)
Definition closer_to_low (num den s p : Z) : comparison :=
  if 0 <=? p then Z.compare (2 * num) ((2 * s + 1) * 10 ^ p * den)
  else Z.compare (2 * num * 10 ^ (- p)) ((2 * s + 1) * den).

(** The [k]-digit decimals [s * 10 ^ (n - k)] next to [x = num / den] that
    read back as [x], the nearer first. *)
Definition digits_candidate (x : float) (num den n0 : Z) (k : Z) : option (Z * Z) :=
  let p := n0 - k in
  let lo := scaled_floor num den p in
  let hi := lo + 1 in
  let ok_lo := PrimFloat.eqb (dec2float false lo p) x in
  let ok_hi := PrimFloat.eqb (dec2float false hi p) x in
  let hi_norm := if hi =? 10 ^ k then (10 ^ (k - 1), n0 + 1) else (hi, n0) in
  match ok_lo, ok_hi with
  | true, true =>
      match closer_to_low num den lo p with
      | Lt => Some (lo, n0)
      | Gt => Some hi_norm
      | Eq => if Z.even lo then Some (lo, n0) else Some hi_norm
      end
  | true, false => Some (lo, n0)
  | false, true => Some hi_norm
  | false, false => None
  end.

Fixpoint shortest_digits (fuel : nat) (x : float) (num den n0 k : Z) : Z * Z * Z :=
  match fuel with
  | O => (scaled_floor num den (n0 - k), n0, k)
  | S f =>
      match digits_candidate x num den n0 k with
      | Some (s, n) => (s, n, k)
      | None => shortest_digits f x num den n0 (k + 1)
      end
  end.

(** The digits of [s] laid out for the decimal exponent [n], [k] digits. *)
Definition layout_digits (s n k : Z) : string :=
  let ds := Z_digits s in
  if (k <=? n) && (n <=? 21) then
    (ds ++ zeros (Z.to_nat (n - k)))%string
  else if (0 <? n) && (n <=? 21) then
    (substring 0 (Z.to_nat n) ds ++ "."
       ++ substring (Z.to_nat n) (Z.to_nat (k - n)) ds)%string
  else if (-6 <? n) && (n <=? 0) then
    ("0." ++ zeros (Z.to_nat (- n)) ++ ds)%string
  else
    let e := n - 1 in
    let sign : string := if e <? 0 then "-"%string else "+"%string in
    let es := (sign ++ Z_digits (Z.abs e))%string in
    if k =? 1 then (ds ++ "e" ++ es)%string
    else (substring 0 1 ds ++ "." ++ substring 1 (Z.to_nat (k - 1)) ds
            ++ "e" ++ es)%string.

(** [Number.prototype.toString] in radix 10: the shortest decimal that reads
    back as the number. *)
Definition Number_toString (x : float) : string :=
  match Prim2SF x with
  | S754_nan => "NaN"%string
  | S754_zero _ => "0"%string
  | S754_infinity s => (if s then "-Infinity" else "Infinity")%string
  | S754_finite sg m e =>
      let num := if 0 <=? e then Zpos m * 2 ^ e else Zpos m in
      let den := if 0 <=? e then 1 else 2 ^ (- e) in
      let n0 := decimal_exponent num den in
      let '(s, n, k) := shortest_digits 17 (PrimFloat.abs x) num den n0 1 in
      ((if sg then "-" else "") ++ layout_digits s n k)%string
  end.

(** [Number.prototype.toFixed] *)

(** The integer [n] for which [n / 10 ^ f] is nearest to [m * 2 ^ e]; of two
    such integers the larger. *)
Definition nearest_scaled (m : positive) (e f : Z) : Z :=
  if 0 <=? e then Zpos m * 2 ^ e * 10 ^ f
  else (2 * Zpos m * 10 ^ f + 2 ^ (- e)) / (2 * 2 ^ (- e)).

(** The digits of [n], filled up with zeros to [f + 1] digits, with a point
    before the last [f] of them. *)
Definition layout_fixed (n : Z) (f : nat) : string :=
  let ds := Z_digits n in
  match f with
  | O => ds
  | S _ =>
      let ds := (zeros (S f - String.length ds) ++ ds)%string in
      let k := String.length ds in
      (substring 0 (k - f) ds ++ "." ++ substring (k - f) f ds)%string
  end.

(** [x.toFixed(f)]: [NaN] and the infinities print as [toString] does, [-0]
    prints as [0], and from [10 ^ 21] on the number prints as [toString] does.
    A number with a negative binary exponent is below [2 ^ 53]. *)
Definition Number_toFixed (x : float) (f : nat) : string :=
  match Prim2SF x with
  | S754_zero _ => layout_fixed 0 f
  | S754_finite sg m e =>
      let sign : string := if sg then "-"%string else EmptyString in
      if (0 <=? e) && (10 ^ 21 <=? Zpos m * 2 ^ e)
      then (sign ++ Number_toString (PrimFloat.abs x))%string
      else (sign ++ layout_fixed (nearest_scaled m e (Z.of_nat f)) f)%string
  | _ => Number_toString x
  end.

(** *** Conversions of values *)

(** [ToString]. *)
Definition ToString (v : Value) : string :=
  match v with
  | VUndefined => "undefined"%string
  | VNull => "null"%string
  | VBool true => "true"%string
  | VBool false => "false"%string
  | VNum x => Number_toString x
  | VStr s => s
  end.

(** [ToNumber]. *)
Definition ToNumber (v : Value) : float :=
  match v with
  | VUndefined => NaN
  | VNull => 0%float
  | VBool true => 1%float
  | VBool false => 0%float
  | VNum x => x
  | VStr s => StringToNumber s
  end.

(** [parseFloat(v)] parses [ToString(v)].  The shortest decimal of a number
    reads back as that number, except that [-0] prints as ["0"]: a number is
    therefore returned as it is, [-0] as [0]. *)
Definition parseFloat (v : Value) : float :=
  match v with
  | VUndefined | VNull | VBool _ => NaN
  | VNum x => if PrimFloat.eqb x 0%float then 0%float else x
  | VStr s => parseFloat_string s
  end.

(** The global [isFinite]. *)
Definition isFinite (v : Value) : bool :=
  let x := ToNumber v in
  negb (isNaN x) && negb (PrimFloat.is_infinity x).

(** [v === w]. *)
Definition strict_eq (v w : Value) : bool :=
  match v, w with
  | VUndefined, VUndefined => true
  | VNull, VNull => true
  | VBool a, VBool b => Bool.eqb a b
  | VNum x, VNum y => PrimFloat.eqb x y
  | VStr s, VStr t => String.eqb s t
  | _, _ => false
  end.

(** *** Objects: own properties in property order *)

(** Integer-like keys ("array indices") are enumerated first, in ascending
    order; the other keys follow in insertion order. *)
Definition Obj (A : Type) : Type := list (string * A).

Fixpoint all_digits (s : string) : bool :=
  match s with
  | EmptyString => true
  | String c r => is_digit c && all_digits r
  end.

Definition is_array_index (s : string) : option Z :=
  match s with
  | EmptyString => None
  | String c r =>
      if all_digits s && (negb (Ascii.eqb c "0") || String.eqb r EmptyString)
         && (String.length s <=? 10)%nat then
        let '(z, _, _) := scan_digits s 0 0 in
        if z <? 4294967295 then Some z else None
      else None
  end.

Fixpoint obj_get {A : Type} (o : Obj A) (k : string) : option A :=
  match o with
  | [] => None
  | (k', v) :: o' => if String.eqb k k' then Some v else obj_get o' k
  end.

Fixpoint obj_update {A : Type} (o : Obj A) (k : string) (v : A) : Obj A :=
  match o with
  | [] => []
  | (k', v') :: o' =>
      if String.eqb k k' then (k', v) :: o' else (k', v') :: obj_update o' k v
  end.

(** Places a new integer-like key after the smaller ones. *)
Fixpoint obj_insert_index {A : Type} (o : Obj A) (i : Z) (k : string) (v : A) : Obj A :=
  match o with
  | [] => [(k, v)]
  | (k', v') :: o' =>
      match is_array_index k' with
      | Some j => if j <? i then (k', v') :: obj_insert_index o' i k v
                  else (k, v) :: o
      | None => (k, v) :: o
      end
  end.

(** [o[k] = v]. *)
Definition obj_set {A : Type} (o : Obj A) (k : string) (v : A) : Obj A :=
  match obj_get o k with
  | Some _ => obj_update o k v
  | None =>
      match is_array_index k with
      | Some i => obj_insert_index o i k v
      | None => o ++ [(k, v)]
      end
  end.

(** [Object.keys(o)]. *)
Definition obj_keys {A : Type} (o : Obj A) : list string := map fst o.

(** A row of the dataset; [get row k] is [row[k]] (lookups are own-property
    lookups: rows are read as plain dictionaries). *)
Definition Row : Type := Obj Value.

Definition get (row : Row) (k : string) : Value :=
  match obj_get row k with
  | Some v => v
  | None => VUndefined
  end.

Definition set (row : Row) (k : string) (v : Value) : Row := obj_set row k v.

(** *** Arrays *)

(** Insertion of [x] in front of the first element it does not compare
    greater than; a comparator result of [NaN] counts as [0]. *)
Fixpoint sort_insert {A : Type} (cmp : A -> A -> float) (x : A) (l : list A) : list A :=
  match l with
  | [] => [x]
  | y :: l' =>
      if PrimFloat.ltb 0%float (cmp x y) then y :: sort_insert cmp x l'
      else x :: l
  end.

(** [Array.prototype.sort] with a comparator: a stable sort.  For a consistent
    comparator every stable sort returns this list. *)
Fixpoint sort {A : Type} (cmp : A -> A -> float) (l : list A) : list A :=
  match l with
  | [] => []
  | x :: l' => sort_insert cmp x (sort cmp l')
  end.

(** [(a, b) => a - b]. *)
Definition numeric_order (a b : float) : float := (a - b)%float.

(** [Array.prototype.reduce] without an initial value: a [TypeError] on the
    empty array. *)
Definition reduce1 {A : Type} (f : A -> A -> A) (l : list A) : res A :=
  match l with
  | [] => TypeError
  | a :: l' => Ok (fold_left f l' a)
  end.

(** [lodash.countBy] with the identity iteratee, over property keys. *)
Definition countBy (keys : list string) : Obj nat :=
  fold_left
    (fun (o : Obj nat) (k : string) =>
       match obj_get o k with
       | Some n => obj_set o k (S n)
       | None => obj_set o k 1%nat
       end)
    keys [].

End JS.

(** ** [DataProcessor]: the cleaning pipeline *)

Module DataProcessor.

Import JS.
Local Open Scope float_scope.

(** *** Configuration *)

Inductive ImputationMethod : Type :=
| Mean
| Median
| Mode
| Knn
| ForwardFill
| BackwardFill
| ImputeRemove.

Record ImputationConfig : Type := {
  imp_method : ImputationMethod;
  imp_columns : list string
}.

Inductive OutlierMethod : Type :=
| Iqr
| ZScore
| Winsorization
| IsolationForest.

(** The threshold is a number, or the pair of percentiles of winsorization. *)
Inductive Threshold : Type :=
| TNumber (t : float)
| TPercentiles (lower upper : float).

Inductive OutlierAction : Type :=
| OutlierRemove
| Cap
| Transform.

Record OutlierConfig : Type := {
  out_method : OutlierMethod;
  out_threshold : Threshold;
  out_action : OutlierAction;
  out_columns : list string
}.

Inductive Condition : Type :=
| GreaterThan
| LessThan
| Equals
| NotEquals
| Range
| Pattern.

Inductive RuleAction : Type :=
| Flag
| RuleRemove
| RuleTransform.

(** The value of a rule: a scalar, or an array of scalars (a range). *)
Inductive RuleValue : Type :=
| RScalar (v : Value)
| RArray (vs : list Value).

Record Rule : Type := {
  rule_column : string;
  rule_condition : Condition;
  rule_value : RuleValue;
  rule_action : RuleAction
}.

(** An absent section is [None]; absent rules are the empty list. *)
Record CleaningConfig : Type := {
  imputation : option ImputationConfig;
  outliers : option OutlierConfig;
  rules : list Rule
}.

Inductive DistanceMetric : Type :=
| Euclidean
| Manhattan.

Record KNNOptions : Type := {
  k : nat;
  distanceMetric : DistanceMetric
}.

(** *** Column statistics *)

(** [data.map(row => parseFloat(row[column])).filter(v => !isNaN(v))]. *)
Definition columnNumbers (data : list Row) (column : string) : list float :=
  filter (fun v => negb (isNaN v)) (map (fun row => parseFloat (get row column)) data).

(** [values.reduce((sum, val) => sum + val, 0)]. *)
Definition sum (values : list float) : float :=
  fold_left (fun sum val => sum + val) values 0.

Definition calculateColumnMean (data : list Row) (column : string) : float :=
  let values := columnNumbers data column in
  sum values / nat2float (List.length values).

Definition calculateColumnMedian (data : list Row) (column : string) : float :=
  let values := sort numeric_order (columnNumbers data column) in
  let mid := Math_floor (nat2float (List.length values) / 2) in
  if Nat.even (List.length values)
  then (num_or_undefined (array_get values (mid - 1))
        + num_or_undefined (array_get values mid)) / 2
  else num_or_undefined (array_get values mid).

(** [frequency[a] > frequency[b]]: false when a count is [undefined]. *)
Definition frequency_gt (frequency : Obj nat) (a b : string) : bool :=
  match obj_get frequency a, obj_get frequency b with
  | Some n, Some m => (m <? n)%nat
  | _, _ => false
  end.

(** [Object.keys(frequency).reduce((a, b) => frequency[a] > frequency[b] ? a : b)]
    for [frequency = lodash.countBy(values)]. *)
Definition mostFrequentKey (values : list Value) : res string :=
  let frequency := countBy (map ToString values) in
  reduce1 (fun a b => if frequency_gt frequency a b then a else b)
          (obj_keys frequency).

Definition calculateColumnMode (data : list Row) (column : string) : res Value :=
  let values :=
    filter (fun v => negb (strict_eq v VNull) && negb (strict_eq v VUndefined))
           (map (fun row => get row column) data) in
  key <- mostFrequentKey values ;; Ok (VStr key).

Definition calculateColumnStd (data : list Row) (column : string) : float :=
  let values := columnNumbers data column in
  let mean := sum values / nat2float (List.length values) in
  let squaredDiffs := map (fun val => Math_pow_2 (val - mean)) values in
  let avgSquaredDiff := sum squaredDiffs / nat2float (List.length values) in
  Math_sqrt avgSquaredDiff.

(** *** Nearest neighbours *)

Definition calculateDistance (row1 row2 : Row) (columns : list string)
    (metric : DistanceMetric) : float :=
  let '(distance, validDimensions) :=
    fold_left
      (fun '(distance, validDimensions) col =>
         let val1 := parseFloat (get row1 col) in
         let val2 := parseFloat (get row2 col) in
         if negb (isNaN val1) && negb (isNaN val2) then
           let diff := Math_abs (val1 - val2) in
           match metric with
           | Euclidean => (distance + diff * diff, S validDimensions)
           | Manhattan => (distance + diff, S validDimensions)
           end
         else (distance, validDimensions))
      columns (0, O) in
  match validDimensions with
  | O => Infinity
  | S _ =>
      match metric with
      | Euclidean => Math_sqrt distance
      | Manhattan => distance
      end
  end.

(** [row[col] === null || row[col] === undefined || row[col] === '']. *)
Definition isMissing (v : Value) : bool :=
  strict_eq v VNull || strict_eq v VUndefined || strict_eq v (VStr EmptyString).

(** The columns used for distances: those, other than the target, of which
    more than 70% of the first ten values are numeric. *)
Definition numericColumns (data : list Row) (targetRow : Row) (targetColumn : string)
    : list string :=
  filter
    (fun col =>
       if String.eqb col targetColumn then false
       else
         let sampleValues := map (fun row => get row col) (firstn 10 data) in
         let numericCount :=
           List.length
             (filter (fun val => negb (isNaN (parseFloat val)) && isFinite val)
                     sampleValues) in
         nat2float (List.length sampleValues) * 0.7 <? nat2float numericCount)
    (obj_keys targetRow).

Definition knnImputation (data : list Row) (targetRow : Row) (targetColumn : string)
    (options : KNNOptions) : res Value :=
  let completeRows :=
    filter (fun row => negb (isMissing (get row targetColumn))) data in
  match completeRows with
  | [] => Ok (VNum (calculateColumnMean data targetColumn))
  | _ :: _ =>
      let columns := numericColumns data targetRow targetColumn in
      let distances :=
        map (fun row =>
               (row, calculateDistance targetRow row columns (distanceMetric options)))
            completeRows in
      let sorted := sort (fun a b => snd a - snd b) distances in
      let nearestNeighbors := firstn (Nat.min (k options) (List.length sorted)) sorted in
      let targetValue := parseFloat (get targetRow targetColumn) in
      if negb (isNaN targetValue) then
        let '(weightedSum, totalWeight) :=
          fold_left
            (fun '(weightedSum, totalWeight) (neighbor : Row * float) =>
               let value := parseFloat (get (fst neighbor) targetColumn) in
               if negb (isNaN value) then
                 let weight :=
                   if PrimFloat.eqb (snd neighbor) 0 then 1
                   else 1 / (snd neighbor + 1e-8) in
                 (weightedSum + value * weight, totalWeight + weight)
               else (weightedSum, totalWeight))
            nearestNeighbors (0, 0) in
        if 0 <? totalWeight then Ok (VNum (weightedSum / totalWeight))
        else Ok (VNum (calculateColumnMean data targetColumn))
      else
        let neighborValues := map (fun n => get (fst n) targetColumn) nearestNeighbors in
        key <- mostFrequentKey neighborValues ;; Ok (VStr key)
  end.

(** *** Imputation *)

(** The body of [columns.forEach] for one column.  Under [remove] the
    callback's [return null] ends that callback only; [forward-fill] breaks
    out of the switch and [backward-fill] matches no case. *)
Definition imputeColumn (data : list Row) (method : ImputationMethod) (row : Row)
    (newRow : Row) (col : string) : res Row :=
  if isMissing (get newRow col) then
    match method with
    | Mean => Ok (set newRow col (VNum (calculateColumnMean data col)))
    | Median => Ok (set newRow col (VNum (calculateColumnMedian data col)))
    | Mode => v <- calculateColumnMode data col ;; Ok (set newRow col v)
    | Knn =>
        v <- knnImputation data row col {| k := 5; distanceMetric := Euclidean |} ;;
        Ok (set newRow col v)
    | ForwardFill => Ok newRow
    | ImputeRemove => Ok newRow
    | BackwardFill => Ok newRow
    end
  else Ok newRow.

(** [.filter(row => row !== null)] over rows and [null]s. *)
Fixpoint filterNotNull (rows : list (option Row)) : list Row :=
  match rows with
  | [] => []
  | Some row :: rows' => row :: filterNotNull rows'
  | None :: rows' => filterNotNull rows'
  end.

Definition handleMissingValues (data : list Row) (config : ImputationConfig)
    : res (list Row) :=
  mapped <-
    mapM (fun row =>
            newRow <- foldM (imputeColumn data (imp_method config) row)
                            (imp_columns config) row ;;
            Ok (Some newRow))
         data ;;
  Ok (filterNotNull mapped).

(** *** Outliers *)

Section Outliers.

(** [Math.log] is implementation-approximated: the outlier stage is
    parametric in it. *)
Variable Math_log : float -> float.

Record Detection : Type := {
  isOutlier : bool;
  lowerBound : option float;
  upperBound : option float
}.

(** [threshold] read as a number: an object converts to [NaN]. *)
Definition thresholdNumber (threshold : Threshold) : float :=
  match threshold with
  | TNumber t => t
  | TPercentiles _ _ => NaN
  end.

(** [value < bound] and [value > bound], false for an [undefined] bound. *)
Definition lt_bound (value : float) (bound : option float) : bool :=
  match bound with
  | Some b => value <? b
  | None => false
  end.

Definition gt_bound (value : float) (bound : option float) : bool :=
  match bound with
  | Some b => b <? value
  | None => false
  end.

(** The bounds of a column and whether [value] lies outside, per method. *)
Definition detect (data : list Row) (method : OutlierMethod) (threshold : Threshold)
    (col : string) (value : float) : Detection :=
  match method with
  | ZScore =>
      let mean := calculateColumnMean data col in
      let std := calculateColumnStd data col in
      let zScore := Math_abs ((value - mean) / std) in
      {| isOutlier := thresholdNumber threshold <? zScore;
         lowerBound := Some (mean - thresholdNumber threshold * std);
         upperBound := Some (mean + thresholdNumber threshold * std) |}
  | Iqr =>
      let values := sort numeric_order (columnNumbers data col) in
      let q1 := array_get values (Math_floor (nat2float (List.length values) * 0.25)) in
      let q3 := array_get values (Math_floor (nat2float (List.length values) * 0.75)) in
      let iqr := num_or_undefined q3 - num_or_undefined q1 in
      let lowerBound := num_or_undefined q1 - 1.5 * iqr in
      let upperBound := num_or_undefined q3 + 1.5 * iqr in
      {| isOutlier := (value <? lowerBound) || (upperBound <? value);
         lowerBound := Some lowerBound;
         upperBound := Some upperBound |}
  | Winsorization =>
      let values := sort numeric_order (columnNumbers data col) in
      let lowerPercentile :=
        match threshold with TPercentiles lower _ => lower | TNumber _ => 0.01 end in
      let upperPercentile :=
        match threshold with TPercentiles _ upper => upper | TNumber _ => 0.99 end in
      let lowerIndex := Math_floor (nat2float (List.length values) * lowerPercentile) in
      let upperIndex := Math_floor (nat2float (List.length values) * upperPercentile) in
      let lowerBound := array_get values lowerIndex in
      let upperBound := array_get values upperIndex in
      {| isOutlier := lt_bound value lowerBound || gt_bound value upperBound;
         lowerBound := lowerBound;
         upperBound := upperBound |}
  | IsolationForest =>
      {| isOutlier := false; lowerBound := None; upperBound := None |}
  end.

Definition boundValue (bound : option float) : Value :=
  match bound with
  | Some b => VNum b
  | None => VUndefined
  end.

(** The [for (const col of columns)] loop of one row; [None] is the
    [return null] that marks the row for removal. *)
Fixpoint outlierColumns (data : list Row) (config : OutlierConfig) (row : Row)
    (newRow : Row) (columns : list string) : option Row :=
  match columns with
  | [] => Some newRow
  | col :: columns' =>
      let value := parseFloat (get row col) in
      if isNaN value then outlierColumns data config row newRow columns'
      else
        let d := detect data (out_method config) (out_threshold config) col value in
        if isOutlier d then
          match out_action config with
          | OutlierRemove => None
          | Cap =>
              let newRow1 :=
                if lt_bound value (lowerBound d)
                then set newRow col (boundValue (lowerBound d)) else newRow in
              let newRow2 :=
                if gt_bound value (upperBound d)
                then set newRow1 col (boundValue (upperBound d)) else newRow1 in
              outlierColumns data config row newRow2 columns'
          | Transform =>
              let newRow1 :=
                set newRow col (VNum (if 0 <? value then Math_log value else value)) in
              outlierColumns data config row newRow1 columns'
          end
        else outlierColumns data config row newRow columns'
  end.

Definition handleOutliers (data : list Row) (config : OutlierConfig) : list Row :=
  filterNotNull
    (map (fun row => outlierColumns data config row row (out_columns config)) data).

End Outliers.

(** *** Validation rules *)

(** [ToString] of a rule value; an array joins its elements with commas,
    [null] and [undefined] elements as empty strings. *)
Definition joinElement (v : Value) : string :=
  match v with
  | VUndefined | VNull => EmptyString
  | _ => ToString v
  end.

Definition RuleValue_toString (rv : RuleValue) : string :=
  match rv with
  | RScalar v => ToString v
  | RArray vs => String.concat "," (map joinElement vs)
  end.

Definition RuleValue_parseFloat (rv : RuleValue) : float :=
  match rv with
  | RScalar v => parseFloat v
  | RArray _ => parseFloat_string (RuleValue_toString rv)
  end.

Definition charAt (s : string) (i : nat) : Value :=
  match String.get i s with
  | Some c => VStr (String c EmptyString)
  | None => VUndefined
  end.

(** [const [min, max] = rule.value]: an array yields its elements, a string
    its characters; other scalars are not iterable. *)
Definition destructurePair (rv : RuleValue) : res (Value * Value) :=
  match rv with
  | RArray vs => Ok (nth 0 vs VUndefined, nth 1 vs VUndefined)
  | RScalar (VStr s) => Ok (charAt s 0, charAt s 1)
  | RScalar _ => TypeError
  end.

(** The [switch (rule.condition)]: [not-equals] and [pattern] match no case. *)
Definition violatesRule (rule : Rule) (row : Row) : res bool :=
  let value := get row (rule_column rule) in
  match rule_condition rule with
  | GreaterThan => Ok (parseFloat value <=? RuleValue_parseFloat (rule_value rule))
  | LessThan => Ok (RuleValue_parseFloat (rule_value rule) <=? parseFloat value)
  | Equals =>
      Ok (match rule_value rule with
          | RScalar w => negb (strict_eq value w)
          | RArray _ => true
          end)
  | Range =>
      pair <- destructurePair (rule_value rule) ;;
      let '(min, max) := pair in
      Ok ((parseFloat value <? ToNumber min) || (ToNumber max <? parseFloat value))
  | NotEquals => Ok false
  | Pattern => Ok false
  end.

Definition isRuleRemove (a : RuleAction) : bool :=
  match a with
  | RuleRemove => true
  | _ => false
  end.

(** The filter predicate of [applyRules]: the loop over the rules of one row. *)
Fixpoint keepsRow (rules : list Rule) (row : Row) : res bool :=
  match rules with
  | [] => Ok true
  | rule :: rules' =>
      violates <- violatesRule rule row ;;
      if violates && isRuleRemove (rule_action rule) then Ok false
      else keepsRow rules' row
  end.

Fixpoint filterM {A : Type} (f : A -> res bool) (l : list A) : res (list A) :=
  match l with
  | [] => Ok []
  | a :: l' =>
      keep <- f a ;; rest <- filterM f l' ;;
      Ok (if keep then a :: rest else rest)
  end.

Definition applyRules (data : list Row) (rules : list Rule) : res (list Row) :=
  filterM (keepsRow rules) data.

(** *** The pipeline *)

Section Pipeline.

Variable Math_log : float -> float.

Definition cleanData (data : list Row) (config : CleaningConfig) : res (list Row) :=
  let cleanedData := data in
  cleanedData <-
    match imputation config with
    | Some c => handleMissingValues cleanedData c
    | None => Ok cleanedData
    end ;;
  let cleanedData :=
    match outliers config with
    | Some c => handleOutliers Math_log cleanedData c
    | None => cleanedData
    end in
  match rules config with
  | [] => Ok cleanedData
  | _ :: _ => applyRules cleanedData (rules config)
  end.

End Pipeline.

End DataProcessor.

(** ** [StatisticalAnalysis]: weighted estimates *)

Module StatisticalAnalysis.

Import JS.
Local Open Scope float_scope.

(** An observation [{ value, weight }]. *)
Record Item : Type := {
  value : float;
  weight : float
}.

Record EstimateResult : Type := {
  variable : string;
  estimate : float;
  standardError : float;
  marginOfError : float;
  confidenceInterval : float * float;
  sampleSize : nat
}.

(** Truthiness of the optional [weightColumn]: absent and [''] are falsy. *)
Definition isSet (weightColumn : option string) : option string :=
  match weightColumn with
  | Some EmptyString => None
  | other => other
  end.

(** [weightColumn ? parseFloat(row[weightColumn]) || 1 : 1]. *)
Definition rowWeight (row : Row) (weightColumn : option string) : float :=
  match isSet weightColumn with
  | Some w =>
      let parsed := parseFloat (get row w) in
      if truthy_num parsed then parsed else 1
  | None => 1
  end.

(** The observations of one target column. *)
Definition observations (data : list Row) (column : string)
    (weightColumn : option string) : list Item :=
  filter (fun item => negb (isNaN (value item)))
         (map (fun row => {| value := parseFloat (get row column);
                             weight := rowWeight row weightColumn |})
              data).

Definition calculateWeightedMean (values : list Item) : float :=
  let totalWeightedValue :=
    fold_left (fun sum item => sum + value item * weight item) values 0 in
  let totalWeight := fold_left (fun sum item => sum + weight item) values 0 in
  totalWeightedValue / totalWeight.

Definition calculateStandardError (values : list Item) (mean : float) : float :=
  let weightedVariance :=
    fold_left (fun sum item => sum + weight item * Math_pow_2 (value item - mean))
              values 0
    / fold_left (fun sum item => sum + weight item) values 0 in
  Math_sqrt (weightedVariance / nat2float (List.length values)).

(** The step table; [alpha] is not read. *)
Definition getTCriticalValue (degreesOfFreedom alpha : float) : float :=
  if 30 <=? degreesOfFreedom then 1.96
  else if 20 <=? degreesOfFreedom then 2.086
  else if 10 <=? degreesOfFreedom then 2.228
  else 2.571.

(** The body of [targetColumns.forEach]: the results pushed for one column. *)
Definition estimateColumn (data : list Row) (weightColumn : option string)
    (tCritical : float) (column : string) : list EstimateResult :=
  let values := observations data column weightColumn in
  match values with
  | [] => []
  | _ :: _ =>
      let weightedMean := calculateWeightedMean values in
      let standardError := calculateStandardError values weightedMean in
      let marginOfError := tCritical * standardError in
      [ {| variable := column;
           estimate := weightedMean;
           standardError := standardError;
           marginOfError := marginOfError;
           confidenceInterval :=
             (weightedMean - marginOfError, weightedMean + marginOfError);
           sampleSize := List.length values |} ]
  end.

Definition calculateEstimates (data : list Row) (targetColumns : list string)
    (weightColumn : option string) (confidenceLevel : float) : list EstimateResult :=
  let alpha := 1 - confidenceLevel in
  let tCritical := getTCriticalValue (nat2float (List.length data) - 1) (alpha / 2) in
  flat_map (estimateColumn data weightColumn tCritical) targetColumns.

(** One entry of [calculateDescriptiveStatistics]. *)
Record DescriptiveStatistics : Type := {
  stat_column : string;
  stat_count : nat;
  stat_mean : float;
  stat_median : float;
  stat_std : float;
  stat_min : float;
  stat_max : float
}.

(** [Number(x.toFixed(4))]. *)
Definition rounded4 (x : float) : float := StringToNumber (Number_toFixed x 4).

(** The body of [columns.map].  The values are sorted in place before the sums
    are taken; the length of an array is an integer below [2 ^ 32], on which
    the index arithmetic is exact. *)
Definition describeColumn (data : list Row) (column : string) : DescriptiveStatistics :=
  match DataProcessor.columnNumbers data column with
  | [] =>
      {| stat_column := column; stat_count := 0; stat_mean := 0; stat_median := 0;
         stat_std := 0; stat_min := 0; stat_max := 0 |}
  | (_ :: _) as values =>
      let values := sort numeric_order values in
      let length := List.length values in
      let mean := fold_left (fun sum val => sum + val) values 0 / nat2float length in
      let median :=
        if Nat.even length
        then (num_or_undefined (nth_error values (length / 2 - 1))
              + num_or_undefined (nth_error values (length / 2))) / 2
        else num_or_undefined (nth_error values (length / 2)) in
      let variance :=
        fold_left (fun sum val => sum + Math_pow_2 (val - mean)) values 0
        / nat2float length in
      let std := Math_sqrt variance in
      {| stat_column := column;
         stat_count := length;
         stat_mean := rounded4 mean;
         stat_median := rounded4 median;
         stat_std := rounded4 std;
         stat_min := num_or_undefined (nth_error values 0);
         stat_max := num_or_undefined (nth_error values (length - 1)) |}
  end.

Definition calculateDescriptiveStatistics (data : list Row) (columns : list string)
    : list DescriptiveStatistics :=
  map (describeColumn data) columns.

End StatisticalAnalysis.

(** ** The pipeline over a store of objects

    Rows and arrays of rows are objects with an identity: the functions of
    [DataProcessor] are given here as they act on references, so that
    sharing between the input and the output, and every write, is explicit.
    Arrays of numbers and other temporaries that never leave a function stay
    values. *)

Module Store.

Import JS DataProcessor.
Local Open Scope float_scope.

Definition loc : Type := nat.

Inductive object : Type :=
| ORow (row : Row)
| OArray (elements : list loc).

(** The store: the object at location [l] is the [l]-th entry. *)
Definition store : Type := list object.

(** Computations that read and write the store and may throw. *)
Definition M (A : Type) : Type := store -> res A * store.

Definition ret {A : Type} (a : A) : M A := fun s => (Ok a, s).

Definition throw {A : Type} : M A := fun s => (TypeError, s).

Definition bindM {A B : Type} (m : M A) (f : A -> M B) : M B :=
  fun s =>
    match m s with
    | (Ok a, s') => f a s'
    | (TypeError, s') => (TypeError, s')
    end.

Notation "x <~ m ;; k" := (bindM m (fun x => k))
  (at level 61, m at next level, right associativity).

Definition lift {A : Type} (r : res A) : M A := fun s => (r, s).

(** A new object, at the first free location. *)
Definition alloc (o : object) : M loc :=
  fun s => (Ok (List.length s), s ++ [o]).

Definition readRow (l : loc) : M Row :=
  fun s =>
    match nth_error s l with
    | Some (ORow row) => (Ok row, s)
    | _ => (TypeError, s)
    end.

Definition readArray (l : loc) : M (list loc) :=
  fun s =>
    match nth_error s l with
    | Some (OArray elements) => (Ok elements, s)
    | _ => (TypeError, s)
    end.

Fixpoint update (s : store) (l : loc) (o : object) : store :=
  match s, l with
  | [], _ => []
  | _ :: s', O => o :: s'
  | o' :: s', S l' => o' :: update s' l' o
  end.

(** [row[k]] through a reference. *)
Definition getProp (l : loc) (k : string) : M Value :=
  row <~ readRow l ;; ret (get row k).

(** [row[k] = v] through a reference: a write to the object at [l]. *)
Definition setProp (l : loc) (k : string) (v : Value) : M unit :=
  fun s =>
    match nth_error s l with
    | Some (ORow row) => (Ok tt, update s l (ORow (set row k v)))
    | _ => (TypeError, s)
    end.

Fixpoint mapS {A B : Type} (f : A -> M B) (l : list A) : M (list B) :=
  match l with
  | [] => ret []
  | a :: l' => b <~ f a ;; bs <~ mapS f l' ;; ret (b :: bs)
  end.

Fixpoint forEach {A : Type} (f : A -> M unit) (l : list A) : M unit :=
  match l with
  | [] => ret tt
  | a :: l' => _ <~ f a ;; forEach f l'
  end.

Fixpoint filterS {A : Type} (f : A -> M bool) (l : list A) : M (list A) :=
  match l with
  | [] => ret []
  | a :: l' =>
      keep <~ f a ;; rest <~ filterS f l' ;;
      ret (if keep then a :: rest else rest)
  end.

(** The rows an array refers to, as they are when it is read. *)
Definition readRows (data : loc) : M (list Row) :=
  elements <~ readArray data ;; mapS readRow elements.

Fixpoint filterNotNullRefs (refs : list (option loc)) : list loc :=
  match refs with
  | [] => []
  | Some l :: refs' => l :: filterNotNullRefs refs'
  | None :: refs' => filterNotNullRefs refs'
  end.

(** The statistics read [data] at the time of the call. *)
Definition calculateColumnMean (data : loc) (column : string) : M float :=
  rows <~ readRows data ;; ret (DataProcessor.calculateColumnMean rows column).

Definition calculateColumnMedian (data : loc) (column : string) : M float :=
  rows <~ readRows data ;; ret (DataProcessor.calculateColumnMedian rows column).

Definition calculateColumnMode (data : loc) (column : string) : M Value :=
  rows <~ readRows data ;; lift (DataProcessor.calculateColumnMode rows column).

Definition knnImputation (data : loc) (targetRow : loc) (targetColumn : string)
    (options : KNNOptions) : M Value :=
  rows <~ readRows data ;;
  target <~ readRow targetRow ;;
  lift (DataProcessor.knnImputation rows target targetColumn options).

(** The body of [columns.forEach] in [handleMissingValues]: [newRow] is the
    copy the writes go to. *)
Definition imputeColumn (data : loc) (method : ImputationMethod) (row newRow : loc)
    (col : string) : M unit :=
  current <~ getProp newRow col ;;
  if isMissing current then
    match method with
    | Mean => m <~ calculateColumnMean data col ;; setProp newRow col (VNum m)
    | Median => m <~ calculateColumnMedian data col ;; setProp newRow col (VNum m)
    | Mode => v <~ calculateColumnMode data col ;; setProp newRow col v
    | Knn =>
        v <~ knnImputation data row col {| k := 5; distanceMetric := Euclidean |} ;;
        setProp newRow col v
    | ForwardFill => ret tt
    | ImputeRemove => ret tt
    | BackwardFill => ret tt
    end
  else ret tt.

(** [data.map(row => { const newRow = { ...row }; ... }).filter(...)]: a new
    object per row, and a new array. *)
Definition handleMissingValues (data : loc) (config : ImputationConfig) : M loc :=
  elements <~ readArray data ;;
  mapped <~
    mapS (fun row =>
            content <~ readRow row ;;
            newRow <~ alloc (ORow content) ;;
            _ <~ forEach (imputeColumn data (imp_method config) row newRow)
                         (imp_columns config) ;;
            ret (Some newRow))
         elements ;;
  alloc (OArray (filterNotNullRefs mapped)).

Section Outliers.

Variable Math_log : float -> float.

Definition detect (data : loc) (method : OutlierMethod) (threshold : Threshold)
    (col : string) (value : float) : M Detection :=
  rows <~ readRows data ;;
  ret (DataProcessor.detect rows method threshold col value).

(** The column loop of one row: [false] is the [return null]. *)
Fixpoint outlierColumns (data : loc) (config : OutlierConfig) (row newRow : loc)
    (columns : list string) : M bool :=
  match columns with
  | [] => ret true
  | col :: columns' =>
      cell <~ getProp row col ;;
      let value := parseFloat cell in
      if isNaN value then outlierColumns data config row newRow columns'
      else
        d <~ detect data (out_method config) (out_threshold config) col value ;;
        if isOutlier d then
          match out_action config with
          | OutlierRemove => ret false
          | Cap =>
              _ <~ (if lt_bound value (lowerBound d)
                    then setProp newRow col (boundValue (lowerBound d))
                    else ret tt) ;;
              _ <~ (if gt_bound value (upperBound d)
                    then setProp newRow col (boundValue (upperBound d))
                    else ret tt) ;;
              outlierColumns data config row newRow columns'
          | Transform =>
              _ <~ setProp newRow col
                     (VNum (if 0 <? value then Math_log value else value)) ;;
              outlierColumns data config row newRow columns'
          end
        else outlierColumns data config row newRow columns'
  end.

Definition handleOutliers (data : loc) (config : OutlierConfig) : M loc :=
  elements <~ readArray data ;;
  mapped <~
    mapS (fun row =>
            content <~ readRow row ;;
            newRow <~ alloc (ORow content) ;;
            keep <~ outlierColumns data config row newRow (out_columns config) ;;
            ret (if keep then Some newRow else None))
         elements ;;
  alloc (OArray (filterNotNullRefs mapped)).

(** [data.filter(row => ...)]: a new array of the rows kept, themselves
    not copied. *)
Definition applyRules (data : loc) (rules : list Rule) : M loc :=
  elements <~ readArray data ;;
  kept <~ filterS (fun row => content <~ readRow row ;; lift (keepsRow rules content))
                  elements ;;
  alloc (OArray kept).

(** [cleanData]: [[...data]] is a new array of the same rows. *)
Definition cleanData (data : loc) (config : CleaningConfig) : M loc :=
  elements <~ readArray data ;;
  cleanedData <~ alloc (OArray elements) ;;
  cleanedData <~
    match imputation config with
    | Some c => handleMissingValues cleanedData c
    | None => ret cleanedData
    end ;;
  cleanedData <~
    match outliers config with
    | Some c => handleOutliers cleanedData c
    | None => ret cleanedData
    end ;;
  match rules config with
  | [] => ret cleanedData
  | _ :: _ => applyRules cleanedData (rules config)
  end.

End Outliers.

End Store.

(** ** The outlier settings of the configuration form

    [App] keeps the cleaning configuration as state; every control of
    [CleaningConfiguration] replaces that state, and [cleanData] is called
    with it.  The other two sections of the configuration are carried along
    unchanged by the handlers below. *)

Module CleaningConfiguration.

Import JS DataProcessor.
Local Open Scope float_scope.

(** The threshold as the form stores it: a number, the percentile object of
    winsorization, or a text. *)
Inductive FormThreshold : Type :=
| FNumber (t : float)
| FPercentiles (lower upper : float)
| FText (s : string).

(** The [outliers] section of the state. *)
Record OutlierSettings : Type := {
  form_method : OutlierMethod;
  form_threshold : FormThreshold;
  form_action : OutlierAction;
  form_columns : list string
}.

(** The methods are the values of the options of the method control. *)
Definition getDefaultThreshold (method : OutlierMethod) : FormThreshold :=
  match method with
  | Iqr => FNumber 1.5
  | ZScore => FNumber 3.0
  | Winsorization => FPercentiles 0.05 0.95
  | IsolationForest => FText "auto"
  end.

(** The state [App] starts with. *)
Definition initialOutliers : OutlierSettings :=
  {| form_method := Iqr; form_threshold := FNumber 1.5;
     form_action := OutlierRemove; form_columns := [] |}.

(** What [handleDataLoaded] sets; the columns are the headers it finds
    numeric. *)
Definition loadedOutliers (numericHeaders : list string) : OutlierSettings :=
  {| form_method := Winsorization; form_threshold := FPercentiles 0.05 0.95;
     form_action := Cap; form_columns := numericHeaders |}.

(** [typeof threshold === 'object' ? threshold.lower : 0.05] and its
    counterpart. *)
Definition shownLower (threshold : FormThreshold) : float :=
  match threshold with
  | FPercentiles lower _ => lower
  | _ => 0.05
  end.

Definition shownUpper (threshold : FormThreshold) : float :=
  match threshold with
  | FPercentiles _ upper => upper
  | _ => 0.95
  end.

(** One change of the state.  The two percentile inputs are rendered under
    [winsorization] only; under the other methods the threshold input is
    disabled and has no handler. *)
Inductive step (config : OutlierSettings) : OutlierSettings -> Prop :=
| handleOutlierMethodChange (method : OutlierMethod) :
    step config
      {| form_method := method; form_threshold := getDefaultThreshold method;
         form_action := form_action config; form_columns := form_columns config |}
| lowerPercentileChange (text : string) :
    form_method config = Winsorization ->
    step config
      {| form_method := form_method config;
         form_threshold :=
           FPercentiles (parseFloat_string text) (shownUpper (form_threshold config));
         form_action := form_action config; form_columns := form_columns config |}
| upperPercentileChange (text : string) :
    form_method config = Winsorization ->
    step config
      {| form_method := form_method config;
         form_threshold :=
           FPercentiles (shownLower (form_threshold config)) (parseFloat_string text);
         form_action := form_action config; form_columns := form_columns config |}
| actionChange (action : OutlierAction) :
    step config
      {| form_method := form_method config; form_threshold := form_threshold config;
         form_action := action; form_columns := form_columns config |}
| columnChange (header : string) (checked : bool) :
    step config
      {| form_method := form_method config; form_threshold := form_threshold config;
         form_action := form_action config;
         form_columns :=
           if checked then form_columns config ++ [header]
           else filter (fun col => negb (String.eqb col header)) (form_columns config) |}
| handleDataLoaded (numericHeaders : list string) :
    step config (loadedOutliers numericHeaders).

(** The states the application can be in. *)
Inductive reachable : OutlierSettings -> Prop :=
| reachable_initial : reachable initialOutliers
| reachable_step config config' :
    reachable config -> step config config' -> reachable config'.

(** The threshold as [handleOutliers] reads it: a text is neither a number
    nor an object, and converts to a number where it is computed with. *)
Definition asThreshold (threshold : FormThreshold) : Threshold :=
  match threshold with
  | FNumber t => TNumber t
  | FPercentiles lower upper => TPercentiles lower upper
  | FText s => TNumber (StringToNumber s)
  end.

(** The [outliers] section that [cleanData] receives. *)
Definition outlierConfig (config : OutlierSettings) : OutlierConfig :=
  {| out_method := form_method config;
     out_threshold := asThreshold (form_threshold config);
     out_action := form_action config;
     out_columns := form_columns config |}.

End CleaningConfiguration.

(** * Properties *)

Import JS DataProcessor.

(** ** Objects *)

Section ObjectFacts.

Context {A : Type}.

Lemma obj_get_update_same (o : Obj A) (k : string) (v : A) :
  obj_get o k <> None -> obj_get (obj_update o k v) k = Some v.
Proof.
  induction o as [|[k' v'] o IH]; simpl; intros H.
  - congruence.
  - destruct (String.eqb k k') eqn:E; simpl; rewrite E; auto.
Qed.

Lemma obj_get_update_other (o : Obj A) (k k' : string) (v : A) :
  k' <> k -> obj_get (obj_update o k v) k' = obj_get o k'.
Proof.
  intros Hne. induction o as [|[k0 v0] o IH]; simpl; auto.
  destruct (String.eqb k k0) eqn:E; simpl.
  - apply String.eqb_eq in E. subst k0.
    apply String.eqb_neq in Hne. now rewrite Hne.
  - destruct (String.eqb k' k0); auto.
Qed.

Lemma obj_get_insert_index_same (o : Obj A) (i : Z) (k : string) (v : A) :
  obj_get o k = None -> obj_get (obj_insert_index o i k v) k = Some v.
Proof.
  induction o as [|[k0 v0] o IH]; simpl; intros H.
  - now rewrite String.eqb_refl.
  - destruct (String.eqb k k0) eqn:E; [discriminate|].
    destruct (is_array_index k0) as [j|]; [destruct (j <? i)%Z|]; simpl;
      rewrite ?E, ?String.eqb_refl; auto.
Qed.

Lemma obj_get_insert_index_other (o : Obj A) (i : Z) (k k' : string) (v : A) :
  k' <> k -> obj_get (obj_insert_index o i k v) k' = obj_get o k'.
Proof.
  intros Hne. apply String.eqb_neq in Hne.
  induction o as [|[k0 v0] o IH]; simpl.
  - now rewrite Hne.
  - destruct (is_array_index k0) as [j|]; [destruct (j <? i)%Z|]; simpl;
      rewrite ?Hne, ?IH; auto.
Qed.

Lemma obj_get_app (o1 o2 : Obj A) (k : string) :
  obj_get (o1 ++ o2) k =
  match obj_get o1 k with Some v => Some v | None => obj_get o2 k end.
Proof.
  induction o1 as [|[k0 v0] o1 IH]; simpl; auto.
  destruct (String.eqb k k0); auto.
Qed.

Lemma obj_get_set_same (o : Obj A) (k : string) (v : A) :
  obj_get (obj_set o k v) k = Some v.
Proof.
  unfold obj_set. destruct (obj_get o k) eqn:E.
  - apply obj_get_update_same. congruence.
  - destruct (is_array_index k).
    + now apply obj_get_insert_index_same.
    + rewrite obj_get_app, E. simpl. now rewrite String.eqb_refl.
Qed.

Lemma obj_get_set_other (o : Obj A) (k k' : string) (v : A) :
  k' <> k -> obj_get (obj_set o k v) k' = obj_get o k'.
Proof.
  intros Hne. unfold obj_set. destruct (obj_get o k) eqn:E.
  - now apply obj_get_update_other.
  - destruct (is_array_index k).
    + now apply obj_get_insert_index_other.
    + rewrite obj_get_app. simpl. apply String.eqb_neq in Hne. rewrite Hne.
      now destruct (obj_get o k').
Qed.

End ObjectFacts.

Lemma get_set_same (row : Row) (k : string) (v : Value) : get (set row k v) k = v.
Proof. unfold get, set. now rewrite obj_get_set_same. Qed.

Lemma get_set_other (row : Row) (k k' : string) (v : Value) :
  k' <> k -> get (set row k v) k' = get row k'.
Proof. intros H. unfold get, set. now rewrite obj_get_set_other. Qed.

(** ** Imputation *)

Lemma filterNotNull_map_Some (rows : list Row) : filterNotNull (map Some rows) = rows.
Proof. induction rows; simpl; congruence. Qed.

(** The methods whose branch of the switch writes nothing. *)
Definition writesNothing (method : ImputationMethod) : bool :=
  match method with
  | ForwardFill | BackwardFill | ImputeRemove => true
  | _ => false
  end.

Lemma imputeColumn_writesNothing data method row newRow col :
  writesNothing method = true ->
  imputeColumn data method row newRow col = Ok newRow.
Proof.
  intros H. unfold imputeColumn.
  destruct (isMissing (get newRow col)); auto.
  destruct method; simpl in H; try discriminate; reflexivity.
Qed.

Lemma foldM_imputeColumn_writesNothing data method row columns newRow :
  writesNothing method = true ->
  foldM (imputeColumn data method row) columns newRow = Ok newRow.
Proof.
  intros H. induction columns as [|col columns IH]; simpl; auto.
  rewrite imputeColumn_writesNothing by assumption. simpl. exact IH.
Qed.

Lemma handleMissingValues_writesNothing data method columns :
  writesNothing method = true ->
  handleMissingValues data {| imp_method := method; imp_columns := columns |} = Ok data.
Proof.
  intros H. unfold handleMissingValues. simpl.
  assert (E : forall rows,
             mapM (fun row =>
                     newRow <- foldM (imputeColumn data method row) columns row ;;
                     Ok (Some newRow)) rows = Ok (map Some rows)).
  { induction rows as [|row rows IH]; simpl; auto.
    rewrite foldM_imputeColumn_writesNothing by assumption. simpl.
    now rewrite IH. }
  rewrite E. simpl. now rewrite filterNotNull_map_Some.
Qed.


(** What the switch of [imputeColumn] writes for a missing cell, if anything. *)
Definition replacement (data : list Row) (method : ImputationMethod) (row : Row)
    (col : string) : res (option Value) :=
  match method with
  | Mean => Ok (Some (VNum (calculateColumnMean data col)))
  | Median => Ok (Some (VNum (calculateColumnMedian data col)))
  | Mode => v <- calculateColumnMode data col ;; Ok (Some v)
  | Knn =>
      v <- knnImputation data row col {| k := 5; distanceMetric := Euclidean |} ;;
      Ok (Some v)
  | ForwardFill | BackwardFill | ImputeRemove => Ok None
  end.

Lemma imputeColumn_replacement data method row newRow col :
  imputeColumn data method row newRow col =
  if isMissing (get newRow col) then
    r <- replacement data method row col ;;
    Ok (match r with Some v => set newRow col v | None => newRow end)
  else Ok newRow.
Proof.
  unfold imputeColumn, replacement.
  destruct (isMissing (get newRow col)); auto.
  destruct method; simpl; auto.
  - destruct (calculateColumnMode data col); reflexivity.
  - destruct (knnImputation data row col _); reflexivity.
Qed.

Section ImputeRow.

Variables (data : list Row) (method : ImputationMethod) (row : Row).

Lemma foldM_imputeColumn_untouched columns : forall newRow0 newRow col,
  foldM (imputeColumn data method row) columns newRow0 = Ok newRow ->
  ~ In col columns ->
  get newRow col = get newRow0 col.
Proof.
  induction columns as [|c columns IH]; simpl; intros newRow0 newRow col H Hn.
  - congruence.
  - rewrite imputeColumn_replacement in H.
    assert (c <> col /\ ~ In col columns) as [Hc Hn'] by tauto.
    destruct (isMissing (get newRow0 c)); simpl in H.
    + destruct (replacement data method row c) as [[v|]|]; simpl in H;
        try discriminate.
      * rewrite (IH _ _ _ H Hn'). apply get_set_other. congruence.
      * eauto.
    + eauto.
Qed.

Lemma foldM_imputeColumn_kept columns : forall newRow0 newRow col,
  foldM (imputeColumn data method row) columns newRow0 = Ok newRow ->
  isMissing (get newRow0 col) = false ->
  get newRow col = get newRow0 col.
Proof.
  induction columns as [|c columns IH]; simpl; intros newRow0 newRow col H Hm.
  - congruence.
  - rewrite imputeColumn_replacement in H.
    destruct (isMissing (get newRow0 c)) eqn:Ec; simpl in H.
    + destruct (replacement data method row c) as [[v|]|]; simpl in H;
        try discriminate.
      * assert (Hne : col <> c) by (intros ->; congruence).
        rewrite (IH _ _ col H); rewrite get_set_other; auto.
      * eauto.
    + eauto.
Qed.

Lemma foldM_imputeColumn_replaced columns : forall newRow0 newRow col v,
  foldM (imputeColumn data method row) columns newRow0 = Ok newRow ->
  In col columns ->
  isMissing (get newRow0 col) = true ->
  replacement data method row col = Ok (Some v) ->
  get newRow col = v.
Proof.
  induction columns as [|c columns IH]; simpl; intros newRow0 newRow col v H Hin Hm Hr.
  - contradiction.
  - rewrite imputeColumn_replacement in H.
    destruct (string_dec c col) as [->|Hne].
    + rewrite Hm, Hr in H. simpl in H.
      destruct (isMissing v) eqn:Ev.
      * destruct (in_dec string_dec col columns) as [Hin'|Hn'].
        -- apply (IH _ _ _ _ H Hin'); auto. now rewrite get_set_same.
        -- rewrite (foldM_imputeColumn_untouched _ _ _ _ H Hn').
           apply get_set_same.
      * rewrite (foldM_imputeColumn_kept _ _ _ col H); rewrite get_set_same; auto.
    + destruct Hin as [Heq|Hin]; [congruence|].
      destruct (isMissing (get newRow0 c)); simpl in H.
      * destruct (replacement data method row c) as [[w|]|]; simpl in H;
          try discriminate.
        -- apply (IH _ _ _ _ H Hin); auto. rewrite get_set_other; auto.
        -- eauto.
      * eauto.
Qed.

Lemma foldM_imputeColumn_total columns : forall newRow0,
  (forall col, replacement data method row col <> TypeError) ->
  exists newRow, foldM (imputeColumn data method row) columns newRow0 = Ok newRow.
Proof.
  intros newRow0 Ht. revert newRow0.
  induction columns as [|c columns IH]; simpl; intros newRow0.
  - eauto.
  - rewrite imputeColumn_replacement.
    destruct (isMissing (get newRow0 c)); simpl; auto.
    destruct (replacement data method row c) as [r|] eqn:Er; simpl; auto.
    now apply Ht in Er.
Qed.

End ImputeRow.

Lemma mapM_Ok_nth {A B : Type} (f : A -> res B) (l : list A) : forall l' i a,
  mapM f l = Ok l' -> nth_error l i = Some a ->
  exists b, f a = Ok b /\ nth_error l' i = Some b.
Proof.
  induction l as [|x l IH]; simpl; intros l' i a H Hn.
  - destruct i; discriminate.
  - destruct (f x) as [b|] eqn:Ef; simpl in H; try discriminate.
    destruct (mapM f l) as [bs|] eqn:Em; simpl in H; try discriminate.
    injection H as <-.
    destruct i as [|i]; simpl in *.
    + injection Hn as <-. eauto.
    + eauto.
Qed.

Lemma mapM_Ok_length {A B : Type} (f : A -> res B) (l : list A) : forall l',
  mapM f l = Ok l' -> List.length l' = List.length l.
Proof.
  induction l as [|x l IH]; simpl; intros l' H.
  - injection H as <-. reflexivity.
  - destruct (f x) as [b|]; simpl in H; try discriminate.
    destruct (mapM f l) as [bs|]; simpl in H; try discriminate.
    injection H as <-. simpl. now rewrite (IH bs).
Qed.

Lemma mapM_total {A B : Type} (f : A -> res B) (l : list A) :
  (forall a, In a l -> exists b, f a = Ok b) -> exists l', mapM f l = Ok l'.
Proof.
  induction l as [|x l IH]; simpl; intros H.
  - eauto.
  - destruct (H x) as [b Hb]; auto. rewrite Hb. simpl.
    destruct IH as [bs Hbs]; auto. rewrite Hbs. simpl. eauto.
Qed.

Lemma mapM_Some_inv {A B : Type} (f : A -> res B) (l : list A) : forall mapped,
  mapM (fun a => b <- f a ;; Ok (Some b)) l = Ok mapped ->
  exists bs, mapM f l = Ok bs /\ mapped = map Some bs.
Proof.
  induction l as [|x l IH]; simpl; intros mapped H.
  - injection H as <-. exists []. auto.
  - destruct (f x) as [b|]; simpl in H; try discriminate.
    destruct (mapM _ l) as [ms|]; simpl in H; try discriminate.
    injection H as <-.
    destruct (IH ms eq_refl) as [bs [-> ->]]. simpl. eauto.
Qed.

(** The rows of the output of the imputation stage, one per input row. *)
Lemma handleMissingValues_rows data config out :
  handleMissingValues data config = Ok out ->
  mapM (fun row => foldM (imputeColumn data (imp_method config) row)
                         (imp_columns config) row) data = Ok out.
Proof.
  unfold handleMissingValues. intros H.
  destruct (mapM _ data) as [mapped|] eqn:Em; simpl in H; try discriminate.
  injection H as <-.
  destruct (mapM_Some_inv _ _ _ Em) as [bs [Hbs ->]].
  now rewrite filterNotNull_map_Some.
Qed.

Lemma handleMissingValues_total data config :
  (forall row col, replacement data (imp_method config) row col <> TypeError) ->
  exists out, handleMissingValues data config = Ok out.
Proof.
  intros Ht. unfold handleMissingValues.
  destruct (mapM_total
              (fun row => newRow <- foldM (imputeColumn data (imp_method config) row)
                                          (imp_columns config) row ;;
                          Ok (Some newRow)) data) as [mapped Hm].
  - intros row _.
    destruct (foldM_imputeColumn_total data (imp_method config) row
                (imp_columns config) row (Ht row)) as [newRow Hn].
    rewrite Hn. simpl. eauto.
  - rewrite Hm. simpl. eauto.
Qed.

(** A missing cell of a selected column holds, in the output, what the
    method computes from the input of the stage. *)
Lemma handleMissingValues_replaced data config out i row col v :
  handleMissingValues data config = Ok out ->
  nth_error data i = Some row ->
  In col (imp_columns config) ->
  isMissing (get row col) = true ->
  replacement data (imp_method config) row col = Ok (Some v) ->
  exists row', nth_error out i = Some row' /\ get row' col = v.
Proof.
  intros H Hn Hin Hm Hr.
  apply handleMissingValues_rows in H.
  destruct (mapM_Ok_nth _ _ _ _ _ H Hn) as [row' [Hf Hn']].
  exists row'. split; auto.
  eapply foldM_imputeColumn_replaced; eauto.
Qed.

(** ** Claim 2: mean imputation *)

Definition xCell (v : Value) : Row := [("x"%string, v)].

Definition meanExample : list Row :=
  [xCell (VNum 1); xCell (VNum 2); xCell (VNum 3); xCell VNull; xCell (VNum 5)].

(** C2: under [mean], every missing cell of a selected column is replaced by
    the mean of the parseable values of that column in the input of the
    stage (their sum over their number, computed from the input only); on
    the rows [1, 2, 3, null, 5] the missing cell becomes [2.75]. *)
Theorem mean_imputation_uses_input_mean :
  (forall data columns,
     exists out,
       handleMissingValues data {| imp_method := Mean; imp_columns := columns |} = Ok out
       /\ List.length out = List.length data
       /\ forall i row col,
            nth_error data i = Some row ->
            In col columns ->
            isMissing (get row col) = true ->
            exists row',
              nth_error out i = Some row'
              /\ get row' col =
                 VNum (sum (columnNumbers data col)
                       / nat2float (List.length (columnNumbers data col))))
  /\ handleMissingValues meanExample
       {| imp_method := Mean; imp_columns := ["x"%string] |}
     = Ok [xCell (VNum 1); xCell (VNum 2); xCell (VNum 3); xCell (VNum 2.75);
           xCell (VNum 5)].
Proof.
  split; [|vm_compute; reflexivity].
  intros data columns.
  set (config := {| imp_method := Mean; imp_columns := columns |}).
  destruct (handleMissingValues_total data config) as [out Hout].
  { intros row col. simpl. discriminate. }
  exists out. split; auto. split.
  - apply handleMissingValues_rows in Hout. now apply mapM_Ok_length in Hout.
  - intros i row col Hn Hin Hm.
    eapply (handleMissingValues_replaced data config); eauto.
Qed.


(** ** Frequencies *)

Section KeyFacts.

Context {A : Type}.

Lemma obj_keys_update (o : Obj A) (k : string) (v : A) :
  obj_keys (obj_update o k v) = obj_keys o.
Proof.
  unfold obj_keys. induction o as [|[k0 v0] o IH]; simpl; auto.
  destruct (String.eqb k k0); simpl; congruence.
Qed.

Lemma in_obj_keys_insert_index (o : Obj A) (i : Z) (k : string) (v : A) (x : string) :
  In x (obj_keys (obj_insert_index o i k v)) <-> x = k \/ In x (obj_keys o).
Proof.
  unfold obj_keys. induction o as [|[k0 v0] o IH]; simpl.
  - intuition.
  - destruct (is_array_index k0) as [j|]; [destruct (j <? i)%Z|]; simpl;
      rewrite ?IH; intuition.
Qed.

Lemma in_obj_keys_set (o : Obj A) (k : string) (v : A) (x : string) :
  In x (obj_keys (obj_set o k v)) -> x = k \/ In x (obj_keys o).
Proof.
  unfold obj_set. destruct (obj_get o k).
  - rewrite obj_keys_update. auto.
  - destruct (is_array_index k).
    + apply in_obj_keys_insert_index.
    + unfold obj_keys. rewrite map_app, in_app_iff. simpl. intuition.
Qed.

Lemma obj_get_in_keys (o : Obj A) (k : string) :
  obj_get o k <> None -> In k (obj_keys o).
Proof.
  unfold obj_keys. induction o as [|[k0 v0] o IH]; simpl; intros H.
  - congruence.
  - destruct (String.eqb k k0) eqn:E; auto.
    apply String.eqb_eq in E. auto.
Qed.

Lemma in_obj_keys_set_same (o : Obj A) (k : string) (v : A) :
  In k (obj_keys (obj_set o k v)).
Proof. apply obj_get_in_keys. rewrite obj_get_set_same. discriminate. Qed.

End KeyFacts.

Definition countStep (o : Obj nat) (k : string) : Obj nat :=
  match obj_get o k with
  | Some n => obj_set o k (S n)
  | None => obj_set o k 1%nat
  end.

Lemma in_keys_countStep o k x :
  In x (obj_keys (countStep o k)) -> x = k \/ In x (obj_keys o).
Proof. unfold countStep. destruct (obj_get o k); apply in_obj_keys_set. Qed.

Lemma in_keys_fold_countStep keys : forall o x,
  In x (obj_keys (fold_left countStep keys o)) -> In x keys \/ In x (obj_keys o).
Proof.
  induction keys as [|k keys IH]; simpl; intros o x H; auto.
  apply IH in H. destruct H as [H|H]; auto.
  apply in_keys_countStep in H. intuition.
Qed.

Lemma keys_fold_countStep_nonempty keys : forall o,
  obj_keys o <> [] -> obj_keys (fold_left countStep keys o) <> [].
Proof.
  induction keys as [|k keys IH]; simpl; intros o H; auto.
  apply IH. unfold countStep.
  destruct (obj_get o k);
    match goal with
    | |- obj_keys (obj_set ?o ?k ?v) <> [] =>
        pose proof (in_obj_keys_set_same o k v) as Hin;
        destruct (obj_keys (obj_set o k v)); [contradiction|discriminate]
    end.
Qed.

(** The keys of [countBy] are among the keys counted. *)
Lemma in_keys_countBy keys x : In x (obj_keys (countBy keys)) -> In x keys.
Proof.
  unfold countBy. intros H.
  apply (in_keys_fold_countStep keys [] x) in H. destruct H as [H|[]]. exact H.
Qed.

Lemma keys_countBy_nonempty keys : keys <> [] -> obj_keys (countBy keys) <> [].
Proof.
  destruct keys as [|k keys]; [congruence|]. intros _.
  unfold countBy. simpl. apply keys_fold_countStep_nonempty.
  unfold obj_set. simpl. destruct (is_array_index k); simpl; discriminate.
Qed.

Lemma fold_left_choice {A : Type} (f : A -> A -> A) :
  (forall a b, f a b = a \/ f a b = b) ->
  forall l a, fold_left f l a = a \/ In (fold_left f l a) l.
Proof.
  intros Hf. induction l as [|b l IH]; simpl; intros a; auto.
  destruct (IH (f a b)) as [H|H]; auto.
  rewrite H. destruct (Hf a b) as [E|E]; rewrite E; simpl; auto.
Qed.

Lemma reduce1_choice {A : Type} (f : A -> A -> A) (l : list A) :
  (forall a b, f a b = a \/ f a b = b) ->
  l <> [] -> exists a, In a l /\ reduce1 f l = Ok a.
Proof.
  intros Hf Hl. destruct l as [|a l]; [congruence|]. simpl.
  exists (fold_left f l a). split; auto.
  destruct (fold_left_choice f Hf l a) as [H|H]; auto.
Qed.

(** The most frequent key is the string of one of the values counted. *)
Lemma mostFrequentKey_is_a_key (values : list Value) :
  values <> [] ->
  exists v, In v values /\ mostFrequentKey values = Ok (ToString v).
Proof.
  intros Hv. unfold mostFrequentKey.
  set (frequency := countBy (map ToString values)).
  destruct (reduce1_choice
              (fun a b => if frequency_gt frequency a b then a else b)
              (obj_keys frequency)) as [key [Hin Hr]].
  - intros a b. destruct (frequency_gt frequency a b); auto.
  - apply keys_countBy_nonempty. destruct values; [congruence|discriminate].
  - apply in_keys_countBy, in_map_iff in Hin. destruct Hin as [v [<- Hin]].
    eauto.
Qed.

(** ** Sorting keeps the elements *)

Lemma in_sort_insert {A : Type} (cmp : A -> A -> float) (x a : A) (l : list A) :
  In x (sort_insert cmp a l) <-> x = a \/ In x l.
Proof.
  induction l as [|y l IH]; simpl.
  - intuition.
  - destruct (PrimFloat.ltb 0 (cmp a y)); simpl; rewrite ?IH; intuition.
Qed.

Lemma in_sort {A : Type} (cmp : A -> A -> float) (x : A) (l : list A) :
  In x (sort cmp l) <-> In x l.
Proof.
  induction l as [|y l IH]; simpl.
  - tauto.
  - rewrite in_sort_insert, IH. intuition.
Qed.

Lemma length_sort_insert {A : Type} (cmp : A -> A -> float) (a : A) (l : list A) :
  List.length (sort_insert cmp a l) = S (List.length l).
Proof.
  induction l as [|y l IH]; simpl; auto.
  destruct (PrimFloat.ltb 0 (cmp a y)); simpl; auto.
Qed.

Lemma length_sort {A : Type} (cmp : A -> A -> float) (l : list A) :
  List.length (sort cmp l) = List.length l.
Proof.
  induction l as [|y l IH]; simpl; auto.
  now rewrite length_sort_insert, IH.
Qed.

Lemma in_firstn {A : Type} (x : A) : forall n l, In x (firstn n l) -> In x l.
Proof.
  induction n as [|n IH]; intros [|y l]; simpl; try tauto.
  intros [H|H]; auto.
Qed.

(** ** Claim 10: mode and nearest-neighbour imputation insert text *)

Lemma isMissing_parseFloat (v : Value) :
  isMissing v = true -> isNaN (parseFloat v) = true.
Proof.
  unfold isMissing. destruct v as [| |b|x|s]; simpl; intros H;
    try reflexivity; try discriminate.
  apply String.eqb_eq in H. subst s. reflexivity.
Qed.


Lemma knnImputation_text data targetRow col options :
  (exists r, In r data /\ isMissing (get r col) = false) ->
  (0 < k options)%nat ->
  isNaN (parseFloat (get targetRow col)) = true ->
  exists source,
    In source data /\
    knnImputation data targetRow col options = Ok (VStr (ToString (get source col))).
Proof.
  intros [r [Hin Hm]] Hk Hnan. unfold knnImputation.
  set (completeRows := filter _ data).
  assert (Hc : In r completeRows).
  { apply filter_In. split; auto. now rewrite Hm. }
  destruct completeRows as [|c0 cs] eqn:Ec; [contradiction|].
  rewrite <- Ec. clear Hc.
  rewrite Hnan. simpl negb. cbv iota.
  set (distances := map _ completeRows).
  set (sorted := sort _ distances).
  set (nearestNeighbors := firstn _ sorted).
  set (neighborValues := map _ nearestNeighbors).
  destruct (mostFrequentKey_is_a_key neighborValues) as [v [Hv Hkey]].
  - assert (Hlen : List.length sorted = S (List.length cs)).
    { unfold sorted. rewrite length_sort. unfold distances.
      rewrite length_map, Ec. reflexivity. }
    unfold neighborValues, nearestNeighbors.
    rewrite Hlen.
    destruct sorted as [|s0 ss]; [discriminate|].
    destruct (k options) as [|k']; [lia|]. simpl. discriminate.
  - rewrite Hkey. simpl.
    apply in_map_iff in Hv. destruct Hv as [[row d] [<- Hn]].
    exists row. split; auto. simpl.
    apply in_firstn in Hn.
    apply in_sort in Hn.
    apply in_map_iff in Hn. destruct Hn as [row' [E Hin']].
    injection E as -> _.
    apply filter_In in Hin'. tauto.
Qed.

Definition modeExample : list Row :=
  [xCell (VNum 1); xCell (VNum 1); xCell (VNum 2); xCell VNull].


(** ** Claim 1: the [remove] method *)

Definition removeExample : list Row := [xCell (VNum 1); xCell VNull].

(** C1 (as the code behaves): under [remove] the imputation stage returns
    every input row, in order and unchanged, whatever the selected columns:
    the [return null] of the switch ends the [forEach] callback, not the
    [map] callback, so no row is marked for removal.  On the rows [1, null]
    with column [x] selected, the row with the missing cell is kept. *)
Theorem remove_drops_no_row :
  (forall data columns,
     handleMissingValues data {| imp_method := ImputeRemove; imp_columns := columns |}
     = Ok data)
  /\ handleMissingValues removeExample
       {| imp_method := ImputeRemove; imp_columns := ["x"%string] |}
     = Ok [xCell (VNum 1); xCell VNull].
Proof.
  split.
  - intros. now apply handleMissingValues_writesNothing.
  - reflexivity.
Qed.

(** ** Claim 6: [forward-fill] and [backward-fill] *)

(** C6 (as the code behaves): under [forward-fill] and under [backward-fill]
    the imputation stage returns its input unchanged; on the rows [1, null]
    the missing cell, whose predecessor holds [1], stays [null]. *)
Theorem fill_methods_change_nothing :
  (forall data columns,
     handleMissingValues data {| imp_method := ForwardFill; imp_columns := columns |}
     = Ok data
     /\ handleMissingValues data
          {| imp_method := BackwardFill; imp_columns := columns |}
        = Ok data)
  /\ handleMissingValues removeExample
       {| imp_method := ForwardFill; imp_columns := ["x"%string] |}
     = Ok [xCell (VNum 1); xCell VNull].
Proof.
  split.
  - intros. split; now apply handleMissingValues_writesNothing.
  - reflexivity.
Qed.

(** ** Claim 7: [not-equals] rules *)

Lemma filterM_all_kept {A : Type} (f : A -> res bool) (l : list A) :
  (forall a, In a l -> f a = Ok true) -> filterM f l = Ok l.
Proof.
  induction l as [|a l IH]; simpl; intros H; auto.
  rewrite (H a) by auto. simpl. rewrite IH by auto. reflexivity.
Qed.

(** Conditions for which the switch of [applyRules] has no case. *)
Definition hasNoCase (c : Condition) : bool :=
  match c with
  | NotEquals | Pattern => true
  | _ => false
  end.

Lemma keepsRow_hasNoCase rules row :
  (forall rule, In rule rules -> hasNoCase (rule_condition rule) = true) ->
  keepsRow rules row = Ok true.
Proof.
  induction rules as [|rule rules IH]; simpl; intros H; auto.
  assert (Hc : hasNoCase (rule_condition rule) = true) by auto.
  unfold violatesRule.
  destruct (rule_condition rule); simpl in Hc; try discriminate; simpl; auto.
Qed.

Definition notEqualsExample : list Rule :=
  [ {| rule_column := "x"; rule_condition := NotEquals;
       rule_value := RScalar (VNum 1); rule_action := RuleRemove |} ].

(** C7 (as the code behaves): a rule with condition [not-equals] never counts
    as violated, so rules of that kind (and [pattern] rules) drop no row,
    whatever their action; the rule [x not-equals 1, remove] keeps the row
    whose [x] is [1]. *)
Theorem not_equals_rules_drop_no_row :
  (forall data rules,
     (forall rule, In rule rules -> hasNoCase (rule_condition rule) = true) ->
     applyRules data rules = Ok data)
  /\ applyRules [xCell (VNum 1); xCell (VNum 2)] notEqualsExample
     = Ok [xCell (VNum 1); xCell (VNum 2)].
Proof.
  split.
  - intros data rules H. unfold applyRules. apply filterM_all_kept.
    intros row _. now apply keepsRow_hasNoCase.
  - reflexivity.
Qed.

(** ** Claim 3: the bounds of the [iqr] method *)

Definition numbersExample (values : list float) : list Row :=
  map (fun v => xCell (VNum v)) values.

Definition iqrExample : list Row := numbersExample [1; 2; 3; 4; 8]%float.

(** Under [iqr] the threshold of the configuration is not read: the bounds
    are computed with the literal [1.5].  In a call that passes the threshold
    [3] with the values [1, 2, 3, 4, 8], the bounds are [-1] and [7] (not
    [-4] and [10]), and capping turns [8] into [7]. *)
Theorem iqr_bounds_use_literal_threshold :
  (forall data threshold col value,
     detect data Iqr threshold col value = detect data Iqr (TNumber 1.5) col value)
  /\ (forall value,
        lowerBound (detect iqrExample Iqr (TNumber 3) "x" value) = Some (-1)%float
        /\ upperBound (detect iqrExample Iqr (TNumber 3) "x" value) = Some 7%float)
  /\ (forall Math_log,
        handleOutliers Math_log iqrExample
          {| out_method := Iqr; out_threshold := TNumber 3; out_action := Cap;
             out_columns := ["x"%string] |}
        = numbersExample [1; 2; 3; 4; 7]%float).
Proof.
  split; [|split].
  - reflexivity.
  - intros value. split; vm_compute; reflexivity.
  - intros Math_log. vm_compute. reflexivity.
Qed.




(** ** Claims 4 and 5: weights and the confidence level *)

Import StatisticalAnalysis.

Definition zeroWeightRow : Row := [("y"%string, VNum 10); ("w"%string, VNum 0)].

(** C4 fails at a parsed weight of [0]: the weight column is set, the weight
    cell parses to [0], and the pair built for the row has weight [1]. *)
Lemma zero_weight_is_replaced :
  isNaN (parseFloat (get zeroWeightRow "w")) = false
  /\ parseFloat (get zeroWeightRow "w") = 0%float
  /\ observations [zeroWeightRow] "y" (Some "w"%string)
     = [ {| value := 10; weight := 1 |} ]
  /\ PrimFloat.eqb 1 (parseFloat (get zeroWeightRow "w")) = false.
Proof. repeat split. Qed.

Lemma filter_map_commute {A B : Type} (f : A -> B) (p : B -> bool) (l : list A) :
  filter p (map f l) = map f (filter (fun a => p (f a)) l).
Proof.
  induction l as [|a l IH]; simpl; auto.
  destruct (p (f a)); simpl; congruence.
Qed.

(** C4 (amended): the pairs of a target column are built for exactly the rows
    whose target cell parses to a number, in order, whatever the weight
    cells hold; the weight of a pair is the parsed weight cell when the
    weight column is set and the cell parses to a number other than zero,
    and [1] when the weight column is unset (absent or empty), when the cell
    does not parse, and when it parses to zero. *)
Theorem weights_fall_back_to_one data column weightColumn :
  observations data column weightColumn
  = map (fun row => {| value := parseFloat (get row column);
                       weight := rowWeight row weightColumn |})
        (filter (fun row => negb (isNaN (parseFloat (get row column)))) data)
  /\ (forall row,
        (weightColumn = None \/ weightColumn = Some EmptyString ->
         rowWeight row weightColumn = 1%float)
        /\ (forall w,
              weightColumn = Some w -> w <> EmptyString ->
              let parsed := parseFloat (get row w) in
              (isNaN parsed = true -> rowWeight row weightColumn = 1%float)
              /\ (PrimFloat.eqb parsed 0 = true -> rowWeight row weightColumn = 1%float)
              /\ (isNaN parsed = false -> PrimFloat.eqb parsed 0 = false ->
                  rowWeight row weightColumn = parsed))).
Proof.
  split.
  - unfold observations.
    rewrite (filter_map_commute
               (fun row => {| value := parseFloat (get row column);
                              weight := rowWeight row weightColumn |})
               (fun item => negb (isNaN (value item)))).
    reflexivity.
  - intros row. split.
    + intros [-> | ->]; reflexivity.
    + intros w -> Hw parsed. unfold rowWeight, isSet.
      destruct w as [|c w]; [congruence|]. fold parsed.
      unfold truthy_num.
      repeat split; intros; repeat match goal with H : _ = _ |- _ => rewrite H end;
        simpl; try reflexivity.
      now rewrite orb_true_r.
Qed.

(** C5: the estimates do not depend on the confidence level: for the same
    rows, target columns and weight column, any two confidence levels give
    the same list of results. *)
Theorem estimates_ignore_confidence_level data targetColumns weightColumn
    (level1 level2 : float) :
  calculateEstimates data targetColumns weightColumn level1
  = calculateEstimates data targetColumns weightColumn level2.
Proof. reflexivity. Qed.


(** ** Claim 9: the pipeline writes to new objects only *)

Section Frame.

Import Store.

(** [m], run in a store that holds at least [n] objects, grows the store,
    leaves the objects below [n] as they are, and returns a value in [Q]. *)
Definition preserves {A : Type} (n : nat) (m : M A) (Q : A -> Prop) : Prop :=
  forall s,
    n <= List.length s ->
    List.length s <= List.length (snd (m s))
    /\ (forall l, l < n -> nth_error (snd (m s)) l = nth_error s l)
    /\ (forall a, fst (m s) = Ok a -> Q a).

Lemma preserves_weaken {A : Type} n (m : M A) (Q R : A -> Prop) :
  preserves n m Q -> (forall a, Q a -> R a) -> preserves n m R.
Proof.
  intros H HQ s Hs. destruct (H s Hs) as [H1 [H2 H3]]. auto.
Qed.

Lemma preserves_ret {A : Type} n (a : A) (Q : A -> Prop) :
  Q a -> preserves n (ret a) Q.
Proof.
  intros HQ s Hs. simpl. repeat split; auto.
  intros a' E. injection E as <-. exact HQ.
Qed.

Lemma preserves_lift {A : Type} n (r : res A) : preserves n (lift r) (fun _ => True).
Proof. intros s Hs. simpl. auto. Qed.

Lemma preserves_bind {A B : Type} n (m : M A) (f : A -> M B) (Q : A -> Prop)
    (R : B -> Prop) :
  preserves n m Q -> (forall a, Q a -> preserves n (f a) R) ->
  preserves n (bindM m f) R.
Proof.
  intros Hm Hf s Hs. unfold bindM.
  destruct (Hm s Hs) as [H1 [H2 H3]].
  destruct (m s) as [[a|] s'] eqn:E; simpl in *.
  - destruct (Hf a (H3 a eq_refl) s') as [G1 [G2 G3]]; [lia|].
    repeat split; auto; try lia.
    intros l Hl. rewrite G2, H2; auto.
  - repeat split; auto. discriminate.
Qed.

Lemma preserves_alloc n (o : object) : preserves n (alloc o) (fun l => n <= l).
Proof.
  intros s Hs. unfold alloc. simpl. rewrite length_app. simpl.
  repeat split; try lia.
  - intros l Hl. apply nth_error_app1. lia.
  - intros a E. injection E as <-. exact Hs.
Qed.

Lemma preserves_readRow n (l : loc) : preserves n (readRow l) (fun _ => True).
Proof.
  intros s Hs. unfold readRow.
  destruct (nth_error s l) as [[row|elements]|]; simpl; auto.
Qed.

Lemma preserves_readArray n (l : loc) : preserves n (readArray l) (fun _ => True).
Proof.
  intros s Hs. unfold readArray.
  destruct (nth_error s l) as [[row|elements]|]; simpl; auto.
Qed.

Lemma length_update (s : store) : forall l o,
  List.length (update s l o) = List.length s.
Proof.
  induction s as [|o' s IH]; intros [|l] o; simpl; auto.
Qed.

Lemma nth_error_update_other (s : store) : forall l l' o,
  l' <> l -> nth_error (update s l o) l' = nth_error s l'.
Proof.
  induction s as [|o' s IH]; intros [|l] [|l'] o H; simpl; auto;
    try congruence.
Qed.

Lemma nth_error_update_same (s : store) : forall l o,
  l < List.length s -> nth_error (update s l o) l = Some o.
Proof.
  induction s as [|o' s IH]; intros [|l] o H; simpl in *; try lia; auto.
  apply IH. lia.
Qed.

(** A write to an object at or above [n] leaves the objects below [n]. *)
Lemma preserves_setProp n (l : loc) (k : string) (v : Value) :
  n <= l -> preserves n (setProp l k v) (fun _ => True).
Proof.
  intros Hl s Hs. unfold setProp.
  destruct (nth_error s l) as [[row|elements]|]; simpl; auto.
  rewrite length_update. repeat split; auto.
  intros l' Hl'. apply nth_error_update_other. lia.
Qed.

Lemma preserves_mapS {A B : Type} n (f : A -> M B) (Q : B -> Prop) (l : list A) :
  (forall a, preserves n (f a) Q) -> preserves n (mapS f l) (Forall Q).
Proof.
  intros Hf. induction l as [|a l IH]; simpl.
  - now apply preserves_ret.
  - eapply preserves_bind; [apply Hf|]. intros b Hb.
    eapply preserves_bind; [apply IH|]. intros bs Hbs.
    apply preserves_ret. auto.
Qed.

Lemma preserves_forEach {A : Type} n (f : A -> M unit) (l : list A) :
  (forall a, preserves n (f a) (fun _ => True)) ->
  preserves n (forEach f l) (fun _ => True).
Proof.
  intros Hf. induction l as [|a l IH]; simpl.
  - now apply preserves_ret.
  - eapply preserves_bind; [apply Hf|]. auto.
Qed.

Lemma preserves_filterS {A : Type} n (f : A -> M bool) (l : list A) :
  (forall a, preserves n (f a) (fun _ => True)) ->
  preserves n (filterS f l) (fun _ => True).
Proof.
  intros Hf. induction l as [|a l IH]; simpl.
  - now apply preserves_ret.
  - eapply preserves_bind; [apply Hf|]. intros keep _.
    eapply preserves_bind; [apply IH|]. intros rest _.
    now apply preserves_ret.
Qed.

Lemma preserves_readRows n data : preserves n (readRows data) (fun _ => True).
Proof.
  unfold readRows. eapply preserves_bind; [apply preserves_readArray|].
  intros elements _.
  eapply preserves_weaken; [apply preserves_mapS with (Q := fun _ => True)|auto].
  intros l. apply preserves_readRow.
Qed.

Lemma preserves_getProp n l k : preserves n (getProp l k) (fun _ => True).
Proof.
  unfold getProp. eapply preserves_bind; [apply preserves_readRow|].
  intros row _. now apply preserves_ret.
Qed.

Ltac reads :=
  repeat first
    [ apply preserves_ret; exact I
    | apply preserves_lift
    | eapply preserves_bind; [apply preserves_readRows|]; intros
    | eapply preserves_bind; [apply preserves_readRow|]; intros ].

Lemma preserves_imputeColumn n data method row newRow col :
  n <= newRow ->
  preserves n (Store.imputeColumn data method row newRow col) (fun _ => True).
Proof.
  intros Hn. unfold Store.imputeColumn.
  eapply preserves_bind; [apply preserves_getProp|]. intros current _.
  destruct (isMissing current); [|now apply preserves_ret].
  destruct method; try (now apply preserves_ret);
    (eapply preserves_bind with (Q := fun _ => True);
     [| intros; apply preserves_setProp; exact Hn ]).
  - unfold Store.calculateColumnMean. reads.
  - unfold Store.calculateColumnMedian. reads.
  - unfold Store.calculateColumnMode. reads.
  - unfold Store.knnImputation. reads.
Qed.

Lemma preserves_handleMissingValues n data config :
  preserves n (Store.handleMissingValues data config) (fun out => n <= out).
Proof.
  unfold Store.handleMissingValues.
  eapply preserves_bind; [apply preserves_readArray|]. intros elements _.
  eapply preserves_bind; [|intros; apply preserves_alloc].
  apply preserves_mapS with (Q := fun _ => True). intros row.
  eapply preserves_bind; [apply preserves_readRow|]. intros content _.
  eapply preserves_bind; [apply preserves_alloc|]. intros newRow Hn.
  eapply preserves_bind.
  - apply preserves_forEach. intros col. now apply preserves_imputeColumn.
  - intros. now apply preserves_ret.
Qed.

Variable Math_log : float -> float.

Lemma preserves_outlierColumns n data config row newRow columns :
  n <= newRow ->
  preserves n (Store.outlierColumns Math_log data config row newRow columns)
            (fun _ => True).
Proof.
  intros Hn. induction columns as [|col columns IH]; simpl.
  - now apply preserves_ret.
  - eapply preserves_bind; [apply preserves_getProp|]. intros cell _.
    destruct (isNaN (parseFloat cell)); [exact IH|].
    eapply preserves_bind with (Q := fun _ => True).
    { unfold Store.detect. reads. }
    intros d _. destruct (isOutlier d); [|exact IH].
    destruct (out_action config).
    + now apply preserves_ret.
    + eapply preserves_bind with (Q := fun _ => True).
      { destruct (lt_bound _ _);
          [now apply preserves_setProp | now apply preserves_ret]. }
      intros _ _.
      eapply preserves_bind with (Q := fun _ => True).
      { destruct (gt_bound _ _);
          [now apply preserves_setProp | now apply preserves_ret]. }
      intros _ _. exact IH.
    + eapply preserves_bind; [now apply preserves_setProp|].
      intros _ _. exact IH.
Qed.

Lemma preserves_handleOutliers n data config :
  preserves n (Store.handleOutliers Math_log data config) (fun out => n <= out).
Proof.
  unfold Store.handleOutliers.
  eapply preserves_bind; [apply preserves_readArray|]. intros elements _.
  eapply preserves_bind; [|intros; apply preserves_alloc].
  apply preserves_mapS with (Q := fun _ => True). intros row.
  eapply preserves_bind; [apply preserves_readRow|]. intros content _.
  eapply preserves_bind; [apply preserves_alloc|]. intros newRow Hn.
  eapply preserves_bind.
  - now apply preserves_outlierColumns.
  - intros. now apply preserves_ret.
Qed.

Lemma preserves_applyRules n data rules :
  preserves n (Store.applyRules data rules) (fun out => n <= out).
Proof.
  unfold Store.applyRules.
  eapply preserves_bind; [apply preserves_readArray|]. intros elements _.
  eapply preserves_bind; [|intros; apply preserves_alloc].
  apply preserves_filterS. intros row. reads.
Qed.

Lemma preserves_cleanData n data config :
  preserves n (Store.cleanData Math_log data config) (fun out => n <= out).
Proof.
  unfold Store.cleanData.
  eapply preserves_bind; [apply preserves_readArray|]. intros elements _.
  eapply preserves_bind; [apply preserves_alloc|]. intros cleaned0 H0.
  eapply preserves_bind with (Q := fun out => n <= out).
  { destruct (imputation config);
      [apply preserves_handleMissingValues | now apply preserves_ret]. }
  intros cleaned1 H1.
  eapply preserves_bind with (Q := fun out => n <= out).
  { destruct (outliers config);
      [apply preserves_handleOutliers | now apply preserves_ret]. }
  intros cleaned2 H2.
  destruct (rules config); [now apply preserves_ret | apply preserves_applyRules].
Qed.

(** The state of the store after a run, and its result. *)
Definition unchanged {A : Type} (m : M A) (fresh : A -> store -> Prop) : Prop :=
  forall s,
    (forall l, l < List.length s -> nth_error (snd (m s)) l = nth_error s l)
    /\ (forall a, fst (m s) = Ok a -> fresh a s).

Lemma preserves_unchanged (m : M loc) :
  (forall n, preserves n m (fun out => n <= out)) ->
  unchanged m (fun out s => List.length s <= out).
Proof.
  intros H s. destruct (H (List.length s) s) as [_ [H2 H3]]; auto.
Qed.

(** *** The rows of the arrays returned *)

(** The row objects an array of the store refers to. *)
Definition elementsOf (s : store) (array : loc) : option (list loc) :=
  match nth_error s array with
  | Some (OArray elements) => Some elements
  | _ => None
  end.

(** An object that the store did not hold. *)
Definition newIn (s : store) (l : loc) : Prop := List.length s <= l.

Lemma readArray_Ok data s elements s' :
  readArray data s = (Ok elements, s') ->
  s' = s /\ elementsOf s data = Some elements.
Proof.
  unfold readArray, elementsOf.
  destruct (nth_error s data) as [[row|e]|]; intros H; inversion H; auto.
Qed.

Lemma elementsOf_alloc s elements :
  elementsOf (s ++ [OArray elements]) (List.length s) = Some elements.
Proof.
  unfold elementsOf. rewrite nth_error_app2 by lia.
  now rewrite Nat.sub_diag.
Qed.

Lemma Forall_filterNotNullRefs (P : loc -> Prop) (refs : list (option loc)) :
  Forall (fun o => match o with Some l => P l | None => True end) refs ->
  Forall P (filterNotNullRefs refs).
Proof.
  induction 1 as [|[l|] refs H _ IH]; simpl; auto.
Qed.

Lemma preserves_copyRow {B : Type} n (f : loc -> loc -> M B)
    (g : loc -> B -> option loc) :
  (forall row newRow, n <= newRow -> preserves n (f row newRow) (fun _ => True)) ->
  (forall newRow keep, g newRow keep = Some newRow \/ g newRow keep = None) ->
  forall row,
  preserves n
    (content <~ readRow row ;; newRow <~ alloc (ORow content) ;;
     keep <~ f row newRow ;; ret (g newRow keep))
    (fun o => match o with Some l => n <= l | None => True end).
Proof.
  intros Hf Hg row.
  eapply preserves_bind; [apply preserves_readRow|]. intros content _.
  eapply preserves_bind; [apply preserves_alloc|]. intros newRow Hn.
  eapply preserves_bind; [now apply Hf|]. intros keep _.
  apply preserves_ret. destruct (Hg newRow keep) as [-> | ->]; auto.
Qed.

(** A stage that copies every row: [data.map(row => { const newRow =
    { ...row }; ... })] followed by the filter. *)
Lemma copied_rows_are_new {B : Type} (f : loc -> loc -> M B)
    (g : loc -> B -> option loc) (data : loc) (s : store) (out : loc) :
  (forall n row newRow, n <= newRow -> preserves n (f row newRow) (fun _ => True)) ->
  (forall newRow keep, g newRow keep = Some newRow \/ g newRow keep = None) ->
  let m :=
    elements <~ readArray data ;;
    mapped <~
      mapS (fun row =>
              content <~ readRow row ;; newRow <~ alloc (ORow content) ;;
              keep <~ f row newRow ;; ret (g newRow keep))
           elements ;;
    alloc (OArray (filterNotNullRefs mapped)) in
  fst (m s) = Ok out ->
  exists rows,
    elementsOf (snd (m s)) out = Some rows /\ Forall (newIn s) rows.
Proof.
  intros Hf Hg m. unfold m, bindM.
  destruct (readArray data s) as [[elements|] s0] eqn:Er; [|discriminate].
  apply readArray_Ok in Er. destruct Er as [-> _].
  pose proof (preserves_mapS (List.length s) _ _ elements
                (preserves_copyRow (List.length s) f g (Hf (List.length s)) Hg)
                s (le_n _)) as [Hlen [_ HQ]].
  destruct (mapS _ elements s) as [[mapped|] s1]; [|discriminate].
  simpl in *. intros E. injection E as <-.
  exists (filterNotNullRefs mapped). split; [apply elementsOf_alloc|].
  apply Forall_filterNotNullRefs. specialize (HQ mapped eq_refl).
  eapply Forall_impl; [|exact HQ]. intros [l|]; auto.
Qed.

Lemma filterS_incl {A : Type} (f : A -> M bool) (l : list A) : forall s kept,
  fst (filterS f l s) = Ok kept -> incl kept l.
Proof.
  induction l as [|a l IH]; simpl; intros s kept H.
  - injection H as <-. apply incl_refl.
  - unfold bindM in H. destruct (f a s) as [[keep|] s1]; [|discriminate].
    destruct (filterS f l s1) as [[rest|] s2] eqn:E; [|discriminate].
    simpl in H. injection H as <-. specialize (IH s1 rest).
    rewrite E in IH. specialize (IH eq_refl).
    destruct keep; [apply incl_cons; [now left|]|]; now apply incl_tl.
Qed.

(** The rules stage puts row objects of its input into a new array. *)
Lemma applyRules_rows data rules s out :
  fst (Store.applyRules data rules s) = Ok out ->
  exists elements rows,
    elementsOf s data = Some elements
    /\ elementsOf (snd (Store.applyRules data rules s)) out = Some rows
    /\ incl rows elements.
Proof.
  unfold Store.applyRules, bindM.
  destruct (readArray data s) as [[elements|] s0] eqn:Er; [|discriminate].
  apply readArray_Ok in Er. destruct Er as [-> Ee].
  destruct (filterS _ elements s) as [[kept|] s1] eqn:Ef; [|discriminate].
  simpl. intros E. injection E as <-.
  exists elements, kept. split; auto. split; [apply elementsOf_alloc|].
  eapply filterS_incl with (s := s). rewrite Ef. reflexivity.
Qed.

Lemma handleMissingValues_rows_new data config s out :
  fst (Store.handleMissingValues data config s) = Ok out ->
  exists rows,
    elementsOf (snd (Store.handleMissingValues data config s)) out = Some rows
    /\ Forall (newIn s) rows.
Proof.
  apply (copied_rows_are_new
           (fun row newRow =>
              forEach (Store.imputeColumn data (imp_method config) row newRow)
                      (imp_columns config))
           (fun newRow _ => Some newRow)); auto.
  intros n row newRow Hn.
  apply preserves_forEach. intros col. now apply preserves_imputeColumn.
Qed.

Lemma handleOutliers_rows_new data config s out :
  fst (Store.handleOutliers Math_log data config s) = Ok out ->
  exists rows,
    elementsOf (snd (Store.handleOutliers Math_log data config s)) out = Some rows
    /\ Forall (newIn s) rows.
Proof.
  apply (copied_rows_are_new
           (fun row newRow =>
              Store.outlierColumns Math_log data config row newRow (out_columns config))
           (fun newRow (keep : bool) => if keep then Some newRow else None)).
  - intros. now apply preserves_outlierColumns.
  - intros newRow [|]; auto.
Qed.

Lemma newIn_grown (s s' : store) (rows : list loc) :
  List.length s <= List.length s' -> Forall (newIn s') rows -> Forall (newIn s) rows.
Proof.
  intros H. apply Forall_impl. unfold newIn. intros; lia.
Qed.

Lemma Forall_incl {A : Type} (P : A -> Prop) (l l' : list A) :
  incl l' l -> Forall P l -> Forall P l'.
Proof.
  intros Hi H. rewrite Forall_forall in *. auto.
Qed.

(** The current array of [cleanData] between two stages: where its rows come
    from. *)
Definition current (s : store) (P : list loc -> Prop) (r : res loc * store) : Prop :=
  match r with
  | (Ok out, s') =>
      List.length s <= List.length s'
      /\ exists rows, elementsOf s' out = Some rows /\ P rows
  | _ => True
  end.

Lemma current_copy (P : list loc -> Prop) (m : loc -> M loc) s cur st :
  (forall n, preserves n (m cur) (fun _ => True)) ->
  (forall out, fst (m cur st) = Ok out ->
     exists rows, elementsOf (snd (m cur st)) out = Some rows /\ Forall (newIn st) rows) ->
  List.length s <= List.length st ->
  current s (Forall (newIn s)) (m cur st).
Proof.
  intros Hp Hrows Hlen. unfold current.
  destruct (Hp 0 st (Nat.le_0_l _)) as [Hl _].
  destruct (m cur st) as [[out|] s']; auto. simpl in *.
  split; [lia|]. destruct (Hrows out eq_refl) as [rows [Er Hnew]].
  exists rows. split; auto. now apply (newIn_grown s st).
Qed.

Lemma bindM_Ok {A B : Type} (m : M A) (f : A -> M B) (s : store) (b : B) :
  fst (bindM m f s) = Ok b ->
  exists a s1, m s = (Ok a, s1) /\ bindM m f s = f a s1.
Proof.
  unfold bindM. destruct (m s) as [[a|] s1]; [|discriminate].
  intros _. exists a, s1. auto.
Qed.

Lemma cleanData_rows data config s out :
  fst (Store.cleanData Math_log data config s) = Ok out ->
  exists elements rows,
    elementsOf s data = Some elements
    /\ elementsOf (snd (Store.cleanData Math_log data config s)) out = Some rows
    /\ (imputation config <> None \/ outliers config <> None -> Forall (newIn s) rows)
    /\ (imputation config = None -> outliers config = None ->
        incl rows elements /\ (rules config = [] -> rows = elements)).
Proof.
  unfold Store.cleanData. intros H.
  destruct (bindM_Ok _ _ _ _ H) as (elements & s0' & Er & Eq).
  rewrite Eq in H |- *. clear Eq.
  apply readArray_Ok in Er. destruct Er as [-> Ee].
  exists elements.
  destruct (bindM_Ok _ _ _ _ H) as (cur0 & s0 & Ea & Eq).
  rewrite Eq in H |- *. clear Eq.
  unfold alloc in Ea. injection Ea as <- <-.
  set (s0 := s ++ [OArray elements]) in *.
  assert (Hs0 : List.length s <= List.length s0).
  { unfold s0. rewrite length_app. lia. }
  assert (E0 : elementsOf s0 (List.length s) = Some elements)
    by apply elementsOf_alloc.
  (* the imputation stage *)
  destruct (bindM_Ok _ _ _ _ H) as (cur1 & s1 & E1 & Eq).
  rewrite Eq in H |- *. clear Eq.
  assert (H1 : List.length s <= List.length s1
               /\ exists rows, elementsOf s1 cur1 = Some rows
                  /\ match imputation config with
                     | Some _ => Forall (newIn s) rows
                     | None => rows = elements
                     end).
  { destruct (imputation config) as [c|].
    - pose proof (current_copy (Forall (newIn s))
                    (fun cur => Store.handleMissingValues cur c) s (List.length s) s0)
        as Hc.
      cbv beta in Hc. rewrite E1 in Hc. apply Hc; auto.
      + intros n. eapply preserves_weaken; [apply preserves_handleMissingValues|auto].
      + intros o. rewrite <- E1. apply handleMissingValues_rows_new.
    - injection E1 as <- <-. split; auto. exists elements. auto. }
  destruct H1 as [Hs1 [rows1 [R1 P1]]]. clear E1.
  (* the outlier stage *)
  destruct (bindM_Ok _ _ _ _ H) as (cur2 & s2 & E2 & Eq).
  rewrite Eq in H |- *. clear Eq.
  assert (H2 : List.length s <= List.length s2
               /\ exists rows, elementsOf s2 cur2 = Some rows
                  /\ match outliers config with
                     | Some _ => Forall (newIn s) rows
                     | None => rows = rows1
                     end).
  { destruct (outliers config) as [c|].
    - pose proof (current_copy (Forall (newIn s))
                    (fun cur => Store.handleOutliers Math_log cur c) s cur1 s1)
        as Hc.
      cbv beta in Hc. rewrite E2 in Hc. apply Hc; auto.
      + intros n. eapply preserves_weaken; [apply preserves_handleOutliers|auto].
      + intros o. rewrite <- E2. apply handleOutliers_rows_new.
    - injection E2 as <- <-. split; auto. exists rows1. auto. }
  destruct H2 as [Hs2 [rows2 [R2 P2]]]. clear E2.
  (* the rules stage *)
  assert (H3 : exists rows,
             elementsOf (snd (match rules config with
                              | [] => ret cur2
                              | _ :: _ => Store.applyRules cur2 (rules config)
                              end s2)) out = Some rows
             /\ incl rows rows2 /\ (rules config = [] -> rows = rows2)).
  { destruct (rules config) as [|rule rules'].
    - simpl in H |- *. injection H as <-. exists rows2.
      split; auto. split; auto. apply incl_refl.
    - destruct (applyRules_rows _ _ _ _ H) as [elements' [rows [Ee' [Erows Hincl]]]].
      rewrite R2 in Ee'. injection Ee' as <-.
      exists rows. split; auto. split; auto. discriminate. }
  destruct H3 as [rows [E3 [Hincl Hsame]]].
  exists rows. split; auto. split; auto. split.
  - intros Hc. apply (Forall_incl _ rows2); auto.
    destruct (outliers config) as [c|]; auto. subst rows2.
    destruct (imputation config) as [c|]; auto.
    destruct Hc; congruence.
  - intros Hi Ho. rewrite Hi in P1. rewrite Ho in P2. subst rows1 rows2.
    auto.
Qed.

End Frame.

Definition flagRule : Rule :=
  {| rule_column := "x"; rule_condition := GreaterThan;
     rule_value := RScalar (VStr "0"); rule_action := Flag |}.

(** C9 fails at the rows of the arrays returned: in a store that holds two
    rows (at [0] and [1]) and the array of both (at [2]), the rules stage
    with a rule that flags returns a new array (at [3]) of the row objects
    [0] and [1] of its input, and so does [cleanData] when only that rule is
    configured (its array, the second new one, is at [4]). *)
Lemma rules_stage_returns_its_input_rows :
  let s := [Store.ORow (xCell (VNum 1)); Store.ORow (xCell (VNum 2));
            Store.OArray [0; 1]] in
  (fst (Store.applyRules 2 [flagRule] s) = Ok 3
   /\ elementsOf (snd (Store.applyRules 2 [flagRule] s)) 3 = Some [0; 1])
  /\ let config := {| imputation := None; outliers := None; rules := [flagRule] |} in
     fst (Store.cleanData (fun x => x) 2 config s) = Ok 4
     /\ elementsOf (snd (Store.cleanData (fun x => x) 2 config s)) 4 = Some [0; 1].
Proof. vm_compute. auto. Qed.

(** C9 (amended): [cleanData], and each of its three stages, leaves every
    object of the store it starts from as it is (the input array, the input
    rows and any other object hold the same values after the call, also when
    the call throws), and the array it returns is a new object.  The
    imputation stage and the outlier stage copy the rows: every row of the
    array they return is a new object.  The rules stage copies no row: the
    rows of the array it returns are row objects of its input.  So the rows
    that [cleanData] returns are new objects when an imputation or an outlier
    section is configured, and row objects of the caller otherwise (all of them
    when there is no rule either). *)
Theorem cleanData_leaves_its_input_unchanged (Math_log : float -> float) :
  ((forall data config,
      unchanged (Store.cleanData Math_log data config)
                (fun out s => List.length s <= out))
   /\ (forall data config,
         unchanged (Store.handleMissingValues data config)
                   (fun out s => List.length s <= out))
   /\ (forall data config,
         unchanged (Store.handleOutliers Math_log data config)
                   (fun out s => List.length s <= out))
   /\ (forall data rules,
         unchanged (Store.applyRules data rules)
                   (fun out s => List.length s <= out)))
  /\ (forall data config s out,
        fst (Store.handleMissingValues data config s) = Ok out ->
        exists rows,
          elementsOf (snd (Store.handleMissingValues data config s)) out = Some rows
          /\ Forall (newIn s) rows)
  /\ (forall data config s out,
        fst (Store.handleOutliers Math_log data config s) = Ok out ->
        exists rows,
          elementsOf (snd (Store.handleOutliers Math_log data config s)) out = Some rows
          /\ Forall (newIn s) rows)
  /\ (forall data rules s out,
        fst (Store.applyRules data rules s) = Ok out ->
        exists elements rows,
          elementsOf s data = Some elements
          /\ elementsOf (snd (Store.applyRules data rules s)) out = Some rows
          /\ incl rows elements)
  /\ (forall data config s out,
        fst (Store.cleanData Math_log data config s) = Ok out ->
        exists elements rows,
          elementsOf s data = Some elements
          /\ elementsOf (snd (Store.cleanData Math_log data config s)) out = Some rows
          /\ (imputation config <> None \/ outliers config <> None ->
              Forall (newIn s) rows)
          /\ (imputation config = None -> outliers config = None ->
              incl rows elements /\ (rules config = [] -> rows = elements))).
Proof.
  split; [|split; [|split; [|split]]].
  - split; [|split; [|split]]; intros; apply preserves_unchanged; intros n.
    + apply preserves_cleanData.
    + apply preserves_handleMissingValues.
    + apply preserves_handleOutliers.
    + apply preserves_applyRules.
  - apply handleMissingValues_rows_new.
  - apply handleOutliers_rows_new.
  - apply applyRules_rows.
  - apply cleanData_rows.
Qed.


(** ** Capping twice under [z-score] *)

Definition zscoreExample : list Row :=
  numbersExample [0; 0; 0; 0; 0; 0; 0; 0; 0; 0; 100]%float.

Definition zscoreCap : OutlierConfig :=
  {| out_method := ZScore; out_threshold := TNumber 3; out_action := Cap;
     out_columns := ["x"%string] |}.

Definition cappedOnce : list Row :=
  numbersExample [0; 0; 0; 0; 0; 0; 0; 0; 0; 0; 95.334845277319431]%float.

Definition cappedTwice : list Row :=
  numbersExample [0; 0; 0; 0; 0; 0; 0; 0; 0; 0; 90.887327240504362]%float.

(** Under [z-score] a second pass caps again: on ten [0]s and one [100] with
    threshold [3], capping turns [100] into the upper bound of the input,
    about [95.33]; capping the result again, with the mean and the deviation
    of the capped data, turns that cell into about [90.89]. *)
Lemma zscore_cap_differs (Math_log : float -> float) :
  handleOutliers Math_log zscoreExample zscoreCap = cappedOnce
  /\ handleOutliers Math_log cappedOnce zscoreCap = cappedTwice
  /\ handleOutliers Math_log (handleOutliers Math_log zscoreExample zscoreCap)
       zscoreCap
     <> handleOutliers Math_log zscoreExample zscoreCap.
Proof.
  assert (E1 : handleOutliers Math_log zscoreExample zscoreCap = cappedOnce)
    by (vm_compute; reflexivity).
  assert (E2 : handleOutliers Math_log cappedOnce zscoreCap = cappedTwice)
    by (vm_compute; reflexivity).
  repeat split; auto.
  rewrite E1, E2. intros E.
  apply (f_equal (fun rows => parseFloat (get (nth 10 rows []) "x"))) in E.
  apply (f_equal (fun x => PrimFloat.eqb x 95.334845277319431)) in E.
  vm_compute in E. discriminate.
Qed.


(** ** The order of numbers *)

Section FloatOrder.

Local Open Scope Z_scope.

Lemma digits2_pos_bounds (m : positive) :
  2 ^ (Zpos (digits2_pos m) - 1) <= Zpos m < 2 ^ Zpos (digits2_pos m).
Proof.
  induction m as [m IH|m IH|]; simpl digits2_pos.
  - rewrite Pos2Z.inj_succ.
    replace (Z.succ (Zpos (digits2_pos m)) - 1) with (Z.succ (Zpos (digits2_pos m) - 1))
      by lia.
    rewrite !Z.pow_succ_r by lia. lia.
  - rewrite Pos2Z.inj_succ.
    replace (Z.succ (Zpos (digits2_pos m)) - 1) with (Z.succ (Zpos (digits2_pos m) - 1))
      by lia.
    rewrite !Z.pow_succ_r by lia. lia.
  - simpl. lia.
Qed.

(** A valid finite number has a mantissa below [2^53], of exactly 53 bits
    above the least exponent, and an exponent from [-1074] to [971]. *)
Lemma bounded_inv (m : positive) (e : Z) :
  bounded prec emax m e = true ->
  -1074 <= e <= 971 /\ Zpos m < 2 ^ 53 /\ (-1074 < e -> 2 ^ 52 <= Zpos m).
Proof.
  unfold bounded, canonical_mantissa, fexp, emin, prec, emax.
  intros H. apply andb_true_iff in H. destruct H as [H1 H2].
  apply Z.eqb_eq in H1. apply Z.leb_le in H2.
  pose proof (digits2_pos_bounds m) as [Hlo Hhi].
  set (d := Zpos (digits2_pos m)) in *.
  assert (Hd : 0 < d) by (unfold d; lia).
  split; [lia|]. split.
  - assert (d <= 53) by lia.
    apply Z.lt_le_trans with (2 ^ d); auto.
    apply Z.pow_le_mono_r; lia.
  - intros He. assert (d = 53) by lia.
    replace 52 with (d - 1) by lia. exact Hlo.
Qed.

(** The rank of a number in the order of numbers ([NaN] apart). *)
Definition SFord (x : spec_float) : Z :=
  match x with
  | S754_nan => 0
  | S754_zero _ => 0
  | S754_infinity true => - 2 ^ 70
  | S754_infinity false => 2 ^ 70
  | S754_finite true m e => - ((e + 1075) * 2 ^ 53 + Zpos m)
  | S754_finite false m e => (e + 1075) * 2 ^ 53 + Zpos m
  end.

Lemma SFcompare_ord (a b : spec_float) :
  valid_binary a = true -> valid_binary b = true ->
  a <> S754_nan -> b <> S754_nan ->
  SFcompare a b = Some (SFord a ?= SFord b).
Proof.
  intros Va Vb Na Nb.
  destruct a as [sa|sa| |sa ma ea]; try congruence;
    destruct b as [sb|sb| |sb mb eb]; try congruence;
    simpl in Va, Vb;
    try (apply bounded_inv in Va; destruct Va as [Va1 [Va2 Va3]]);
    try (apply bounded_inv in Vb; destruct Vb as [Vb1 [Vb2 Vb3]]);
    destruct sa; destruct sb; simpl SFcompare; simpl SFord; f_equal;
    symmetry;
    try (apply Z.compare_eq_iff; reflexivity);
    try (apply Z.compare_lt_iff; change (2 ^ 70) with 1180591620717411303424;
         change (2 ^ 53) with 9007199254740992 in *; lia);
    try (apply Z.compare_gt_iff; change (2 ^ 70) with 1180591620717411303424;
         change (2 ^ 53) with 9007199254740992 in *; lia).
  - change (2 ^ 53) with 9007199254740992 in *.
    destruct (Z.compare_spec ea eb) as [E|E|E].
    + subst eb. change (Pos.compare_cont Eq ma mb) with (Pos.compare ma mb).
      destruct (Pos.compare_spec ma mb) as [F|F|F]; simpl.
      * subst. apply Z.compare_eq_iff. reflexivity.
      * apply Z.compare_gt_iff. lia.
      * apply Z.compare_lt_iff. lia.
    + apply Z.compare_gt_iff. lia.
    + apply Z.compare_lt_iff. lia.
  - change (2 ^ 53) with 9007199254740992 in *.
    destruct (Z.compare_spec ea eb) as [E|E|E].
    + subst eb. change (Pos.compare_cont Eq ma mb) with (Pos.compare ma mb).
      destruct (Pos.compare_spec ma mb) as [F|F|F]; simpl.
      * subst. apply Z.compare_eq_iff. reflexivity.
      * apply Z.compare_lt_iff. lia.
      * apply Z.compare_gt_iff. lia.
    + apply Z.compare_lt_iff. lia.
    + apply Z.compare_gt_iff. lia.
Qed.

Definition ord (x : float) : Z := SFord (Prim2SF x).

Lemma isNaN_Prim2SF (x : float) : isNaN x = false -> Prim2SF x <> S754_nan.
Proof.
  unfold isNaN, PrimFloat.is_nan. rewrite eqb_spec. intros H E.
  rewrite E in H. discriminate.
Qed.

Lemma Prim2SF_isNaN (x : float) : Prim2SF x <> S754_nan -> isNaN x = false.
Proof.
  unfold isNaN, PrimFloat.is_nan. rewrite eqb_spec. intros H.
  unfold SFeqb. rewrite SFcompare_ord by auto using Prim2SF_valid.
  now rewrite Z.compare_refl.
Qed.

(** [x < y] on numbers is the order of their ranks. *)
Lemma ltb_ord (x y : float) :
  isNaN x = false -> isNaN y = false ->
  PrimFloat.ltb x y = (ord x <? ord y).
Proof.
  intros Hx Hy. rewrite ltb_spec. unfold SFltb, ord.
  rewrite SFcompare_ord by auto using Prim2SF_valid, isNaN_Prim2SF.
  unfold Z.ltb. now destruct (_ ?= _).
Qed.

Lemma eqb_ord (x y : float) :
  isNaN x = false -> isNaN y = false ->
  PrimFloat.eqb x y = (ord x =? ord y).
Proof.
  intros Hx Hy. rewrite eqb_spec. unfold SFeqb, ord.
  rewrite SFcompare_ord by auto using Prim2SF_valid, isNaN_Prim2SF.
  rewrite Z.eqb_compare. now destruct (_ ?= _).
Qed.

Lemma ltb_NaN_l (x y : float) : isNaN x = true -> PrimFloat.ltb x y = false.
Proof.
  unfold isNaN, PrimFloat.is_nan. rewrite eqb_spec, ltb_spec.
  unfold SFeqb, SFltb. intros H.
  destruct (Prim2SF x) as [s|s| |s m e] eqn:E; try reflexivity; exfalso.
  - simpl in H. discriminate.
  - simpl in H. destruct s; discriminate.
  - pose proof (Prim2SF_valid x) as V. rewrite E in V.
    rewrite SFcompare_ord in H; auto; try discriminate.
    rewrite Z.compare_refl in H. discriminate.
Qed.

Lemma ltb_NaN_r (x y : float) : isNaN y = true -> PrimFloat.ltb x y = false.
Proof.
  intros H.
  assert (E : Prim2SF y = S754_nan).
  { destruct (Prim2SF y) eqn:E; auto;
      rewrite Prim2SF_isNaN in H by (rewrite E; discriminate); discriminate. }
  rewrite ltb_spec, E. unfold SFltb. now destruct (Prim2SF x).
Qed.

End FloatOrder.


(** ** The sign of a difference *)

Section Difference.

Local Open Scope Z_scope.

Lemma shr_m_shr_1 (mrs : shr_record) :
  0 <= shr_m mrs -> shr_m (shr_1 mrs) = shr_m mrs / 2.
Proof.
  destruct mrs as [m r s]. simpl. intros H.
  destruct m as [|[p|p|]|p]; cbn [shr_m]; try lia; try reflexivity.
  - apply Z.div_unique with 1; lia.
  - apply Z.div_unique with 0; lia.
Qed.

Lemma shr_m_iter_pos (p : positive) : forall mrs,
  0 <= shr_m mrs -> shr_m (iter_pos shr_1 p mrs) = shr_m mrs / 2 ^ Zpos p.
Proof.
  assert (Hnn : forall mrs q, 0 <= shr_m mrs -> 0 <= shr_m mrs / 2 ^ Zpos q).
  { intros. apply Z.div_pos; auto. apply Z.pow_pos_nonneg; lia. }
  assert (Hpos : forall q, 0 < 2 ^ Zpos q) by (intros; apply Z.pow_pos_nonneg; lia).
  induction p as [p IH|p IH|]; intros mrs H; simpl iter_pos.
  - assert (H1 : 0 <= shr_m (shr_1 mrs)).
    { rewrite shr_m_shr_1 by auto. apply Z.div_pos; lia. }
    assert (E : 2 ^ Zpos p~1 = 2 * (2 ^ Zpos p * 2 ^ Zpos p)).
    { rewrite (Pos2Z.inj_xI p).
      replace (2 * Zpos p + 1) with (Z.succ (Zpos p + Zpos p)) by lia.
      rewrite Z.pow_succ_r, Z.pow_add_r by lia. reflexivity. }
    rewrite E.
    rewrite IH by (rewrite IH by auto; apply Hnn; auto).
    rewrite IH by auto. rewrite shr_m_shr_1 by auto.
    pose proof (Hpos p).
    rewrite !Z.div_div by lia. reflexivity.
  - assert (E : 2 ^ Zpos p~0 = 2 ^ Zpos p * 2 ^ Zpos p).
    { rewrite (Pos2Z.inj_xO p).
      replace (2 * Zpos p) with (Zpos p + Zpos p) by lia.
      rewrite Z.pow_add_r by lia. reflexivity. }
    rewrite E.
    rewrite IH by (rewrite IH by auto; apply Hnn; auto).
    rewrite IH by auto.
    pose proof (Hpos p).
    rewrite !Z.div_div by lia. reflexivity.
  - rewrite shr_m_shr_1 by auto. reflexivity.
Qed.

(** Shifting a positive mantissa to its format exponent leaves it positive,
    when the exponent is at least the least one. *)
Lemma shr_fexp_positive (m : positive) (e : Z) (l : location) :
  -1074 <= e ->
  exists m', shr_m (fst (shr_fexp prec emax (Zpos m) e l)) = Zpos m'
             /\ -1074 <= snd (shr_fexp prec emax (Zpos m) e l).
Proof.
  intros He. unfold shr_fexp, shr, fexp, emin, prec, emax. simpl Zdigits2.
  pose proof (digits2_pos_bounds m) as [Hlo Hhi].
  set (d := Zpos (digits2_pos m)) in *.
  assert (Hd : 0 < d) by (unfold d; lia).
  destruct (Z.max (d + e - 53) (3 - 1024 - 53) - e) as [|n|n] eqn:En; simpl.
  - exists m. split; [now destruct l as [|[ | | ]]|lia].
  - rewrite shr_m_iter_pos by (destruct l as [|[ | | ]]; simpl; lia).
    replace (shr_m (shr_record_of_loc (Zpos m) l)) with (Zpos m)
      by (now destruct l as [|[ | | ]]).
    assert (Hn : Zpos n <= d - 1) by lia.
    assert (Hp : 2 ^ Zpos n <= Zpos m).
    { apply Z.le_trans with (2 ^ (d - 1)); auto. apply Z.pow_le_mono_r; lia. }
    assert (Hq : 0 < Zpos m / 2 ^ Zpos n).
    { apply Z.div_str_pos. split; auto. apply Z.pow_pos_nonneg; lia. }
    destruct (Zpos m / 2 ^ Zpos n) as [|q|q]; try lia.
    exists q. split; auto. lia.
  - exists m. split; [now destruct l as [|[ | | ]]|lia].
Qed.

Lemma round_nearest_even_positive (m : positive) (l : location) :
  exists m', round_nearest_even (Zpos m) l = Zpos m'.
Proof.
  assert (H : exists m', Zpos m + 1 = Zpos m') by (exists (m + 1)%positive; reflexivity).
  destruct l as [|[ | | ]]; unfold round_nearest_even; eauto.
  destruct (Z.even (Zpos m)); eauto.
Qed.

(** Rounding a positive mantissa keeps the sign: the result is a finite
    number or an infinity of that sign, never a zero. *)
Lemma binary_round_aux_sign (sx : bool) (m : positive) (e : Z) (l : location) :
  -1074 <= e ->
  (exists m' e', binary_round_aux prec emax sx (Zpos m) e l = S754_finite sx m' e')
  \/ binary_round_aux prec emax sx (Zpos m) e l = S754_infinity sx.
Proof.
  intros He. unfold binary_round_aux.
  destruct (shr_fexp_positive m e l He) as [m1 [H1 H1e]].
  destruct (shr_fexp prec emax (Zpos m) e l) as [mrs1 e1]. simpl in H1, H1e.
  rewrite H1.
  destruct (round_nearest_even_positive m1 (loc_of_shr_record mrs1)) as [m2 H2].
  rewrite H2.
  destruct (shr_fexp_positive m2 e1 loc_Exact H1e) as [m3 [H3 H3e]].
  destruct (shr_fexp prec emax (Zpos m2) e1 loc_Exact) as [mrs3 e3].
  simpl in H3. rewrite H3.
  destruct (e3 <=? emax - prec); eauto.
Qed.

Lemma Zpos_iter_xO (m d : positive) : Zpos (Pos.iter xO m d) = Zpos m * 2 ^ Zpos d.
Proof.
  induction d as [|d IH] using Pos.peano_ind.
  - simpl. lia.
  - rewrite Pos.iter_succ, Pos2Z.inj_xO, IH, Pos2Z.inj_succ, Z.pow_succ_r by lia.
    lia.
Qed.

(** Aligning to a smaller exponent multiplies the mantissa accordingly. *)
Lemma shl_align_spec (m : positive) (e e' : Z) :
  e' <= e ->
  Zpos (fst (shl_align m e e')) = Zpos m * 2 ^ (e - e')
  /\ snd (shl_align m e e') = e'.
Proof.
  intros H. unfold shl_align.
  destruct (e' - e) as [|d|d] eqn:E; simpl; try lia.
  - assert (e = e') by lia. subst. rewrite Z.sub_diag. simpl. lia.
  - rewrite Zpos_iter_xO. replace (e - e') with (Zpos d) by lia. auto.
Qed.

Lemma binary_round_sign (sx : bool) (m : positive) (e : Z) :
  -1074 <= e ->
  (exists m' e', binary_round prec emax sx m e = S754_finite sx m' e')
  \/ binary_round prec emax sx m e = S754_infinity sx.
Proof.
  intros He. unfold binary_round.
  set (f := fexp prec emax (Zpos (digits2_pos m) + e)).
  assert (Hf : -1074 <= f) by (unfold f, fexp, emin, prec, emax; lia).
  destruct (shl_align m e f) as [mz ez] eqn:E.
  apply binary_round_aux_sign.
  unfold shl_align in E.
  destruct (f - e) as [|d|d] eqn:Ed; injection E as <- <-; lia.
Qed.

(** [0 < a - b] exactly when [b < a], for numbers other than [NaN]. *)
Lemma SFsub_positive (a b : spec_float) :
  valid_binary a = true -> valid_binary b = true ->
  a <> S754_nan -> b <> S754_nan ->
  SFltb (S754_zero false) (SFsub prec emax a b) = (SFord b <? SFord a).
Proof.
  intros Va Vb Na Nb.
  destruct a as [sa|sa| |sa ma ea]; try congruence;
    destruct b as [sb|sb| |sb mb eb]; try congruence;
    simpl in Va, Vb;
    try (apply bounded_inv in Va; destruct Va as [Va1 [Va2 Va3]]);
    try (apply bounded_inv in Vb; destruct Vb as [Vb1 [Vb2 Vb3]]);
    change (2 ^ 53) with 9007199254740992 in *;
    change (2 ^ 52) with 4503599627370496 in *.
  1-8: destruct sa; destruct sb; simpl; symmetry;
       try (apply Z.ltb_lt; change (2 ^ 70) with 1180591620717411303424;
            change (2 ^ 53) with 9007199254740992; lia);
       try (apply Z.ltb_ge; change (2 ^ 70) with 1180591620717411303424;
            change (2 ^ 53) with 9007199254740992; lia).
  simpl SFsub.
  set (ez := Z.min ea eb).
  destruct (shl_align_spec ma ea ez) as [Ha _]; [unfold ez; lia|].
  destruct (shl_align_spec mb eb ez) as [Hb _]; [unfold ez; lia|].
  rewrite Ha, Hb.
  set (D := cond_Zopp sa (Zpos ma * 2 ^ (ea - ez))
            - cond_Zopp sb (Zpos mb * 2 ^ (eb - ez))).
  assert (Hsign : (0 < D <-> SFord (S754_finite sb mb eb) < SFord (S754_finite sa ma ea))
                  /\ (D = 0 \/ 0 < D \/ D < 0)).
  { split; [|lia].
    assert (Pa : 0 < 2 ^ (ea - ez)) by (apply Z.pow_pos_nonneg; unfold ez; lia).
    assert (Pb : 0 < 2 ^ (eb - ez)) by (apply Z.pow_pos_nonneg; unfold ez; lia).
    assert (Hlt : forall m1 e1 m2 e2 : Z,
               0 < m1 < 9007199254740992 -> 4503599627370496 <= m2 ->
               e1 < e2 -> m1 < m2 * 2 ^ (e2 - e1)).
    { intros m1 e1 m2 e2 H1 H2 H3.
      assert (2 ^ 1 <= 2 ^ (e2 - e1)) by (apply Z.pow_le_mono_r; lia).
      change (2 ^ 1) with 2 in *. nia. }
    unfold D, ez.
    destruct (Z.lt_trichotomy ea eb) as [E|[E|E]].
    - rewrite Z.min_l by lia. rewrite Z.sub_diag, Z.pow_0_r.
      pose proof (Hlt (Zpos ma) ea (Zpos mb) eb) as G.
      set (P := 2 ^ (eb - ea)) in *.
      destruct sa; destruct sb; cbn [SFord cond_Zopp];
        change (2 ^ 53) with 9007199254740992; lia.
    - subst eb. rewrite Z.min_l by lia. rewrite Z.sub_diag, Z.pow_0_r.
      destruct sa; destruct sb; cbn [SFord cond_Zopp];
        change (2 ^ 53) with 9007199254740992; lia.
    - rewrite Z.min_r by lia. rewrite Z.sub_diag, Z.pow_0_r.
      pose proof (Hlt (Zpos mb) eb (Zpos ma) ea) as G.
      set (P := 2 ^ (ea - eb)) in *.
      destruct sa; destruct sb; cbn [SFord cond_Zopp];
        change (2 ^ 53) with 9007199254740992; lia. }
  destruct Hsign as [Hs _].
  assert (Hez : -1074 <= ez) by (unfold ez; lia).
  set (oa := SFord (S754_finite sa ma ea)) in *.
  set (ob := SFord (S754_finite sb mb eb)) in *.
  clearbody oa ob.
  unfold binary_normalize.
  destruct D as [|d|d] eqn:ED.
  - simpl. symmetry. apply Z.ltb_ge. lia.
  - destruct (binary_round_sign false d ez Hez) as [[m' [e' R]]|R]; rewrite R;
      simpl; symmetry; apply Z.ltb_lt; apply Hs; lia.
  - destruct (binary_round_sign true d ez Hez) as [[m' [e' R]]|R]; rewrite R;
      simpl; symmetry; apply Z.ltb_ge; lia.
Qed.

End Difference.

(** The comparator [(a, b) => a - b] is positive exactly when [b < a]. *)
Lemma numeric_order_positive (a b : float) :
  isNaN a = false -> isNaN b = false ->
  PrimFloat.ltb 0 (numeric_order a b) = (ord b <? ord a)%Z.
Proof.
  intros Ha Hb. unfold numeric_order.
  rewrite ltb_spec, sub_spec.
  change (Prim2SF 0) with (S754_zero false).
  apply SFsub_positive; auto using Prim2SF_valid, isNaN_Prim2SF.
Qed.


(** ** Sorted arrays of numbers *)

Section SortedNumbers.

Local Open Scope Z_scope.

Definition numbers (l : list float) : Prop := Forall (fun x => isNaN x = false) l.

(** Ascending, in the order of numbers. *)
Fixpoint ascending (l : list float) : Prop :=
  match l with
  | [] => True
  | x :: l' => Forall (fun y => ord x <= ord y) l' /\ ascending l'
  end.

(** Pointwise equal as numbers ([0] and [-0] are equal). *)
Definition sameNumbers (l1 l2 : list float) : Prop :=
  Forall2 (fun a b => ord a = ord b) l1 l2.

Lemma sort_insert_cons (x y : float) (l : list float) :
  isNaN x = false -> isNaN y = false ->
  sort_insert numeric_order x (y :: l) =
  if ord y <? ord x then y :: sort_insert numeric_order x l else x :: y :: l.
Proof.
  intros Hx Hy. simpl. now rewrite numeric_order_positive.
Qed.

Lemma numbers_sort_insert x l :
  isNaN x = false -> numbers l -> numbers (sort_insert numeric_order x l).
Proof.
  intros Hx Hl. apply Forall_forall. intros y Hy.
  apply in_sort_insert in Hy. destruct Hy as [->|Hy]; auto.
  unfold numbers in Hl. rewrite Forall_forall in Hl. auto.
Qed.

Lemma numbers_sort l : numbers l -> numbers (sort numeric_order l).
Proof.
  intros Hl. apply Forall_forall. intros y Hy. apply in_sort in Hy.
  unfold numbers in Hl. rewrite Forall_forall in Hl. auto.
Qed.

Lemma ascending_sort_insert x l :
  isNaN x = false -> numbers l -> ascending l ->
  ascending (sort_insert numeric_order x l).
Proof.
  intros Hx. induction l as [|y l IH]; intros Hl Ha.
  - simpl. auto.
  - inversion Hl as [|? ? Hy Hl']; subst. destruct Ha as [Hay Ha].
    rewrite sort_insert_cons by auto.
    destruct (ord y <? ord x) eqn:E.
    + apply Z.ltb_lt in E. simpl. split; auto.
      apply Forall_forall. intros z Hz. apply in_sort_insert in Hz.
      destruct Hz as [->|Hz]; [lia|].
      rewrite Forall_forall in Hay. auto.
    + apply Z.ltb_ge in E. simpl. repeat split; auto.
      constructor; auto.
      eapply Forall_impl; [|exact Hay]. simpl. intros; lia.
Qed.

Lemma ascending_sort l : numbers l -> ascending (sort numeric_order l).
Proof.
  induction l as [|x l IH]; intros Hl; simpl; auto.
  inversion Hl; subst.
  apply ascending_sort_insert; auto. now apply numbers_sort.
Qed.

Lemma sameNumbers_refl l : sameNumbers l l.
Proof. induction l; constructor; auto. Qed.

Lemma sameNumbers_trans l1 l2 l3 :
  sameNumbers l1 l2 -> sameNumbers l2 l3 -> sameNumbers l1 l3.
Proof.
  unfold sameNumbers. intros H. revert l3.
  induction H as [|a b l1 l2 Hab H IH]; intros l3 H3; inversion H3; subst.
  - constructor.
  - constructor; [congruence|]. now apply IH.
Qed.

Lemma sameNumbers_length l1 l2 :
  sameNumbers l1 l2 -> List.length l1 = List.length l2.
Proof. intros H. induction H; simpl; auto. Qed.

(** Inserting equal numbers into pointwise equal arrays. *)
Lemma sameNumbers_sort_insert a b l1 l2 :
  isNaN a = false -> isNaN b = false -> numbers l1 -> numbers l2 ->
  ord a = ord b -> sameNumbers l1 l2 ->
  sameNumbers (sort_insert numeric_order a l1) (sort_insert numeric_order b l2).
Proof.
  intros Ha Hb H1 H2 Hab H. revert H1 H2.
  induction H as [|x y l1 l2 Hxy H IH]; intros H1 H2.
  - simpl. repeat constructor; auto.
  - inversion H1; inversion H2; subst.
    rewrite !sort_insert_cons by auto.
    rewrite <- Hab, <- Hxy.
    destruct (ord x <? ord a).
    + constructor; [exact Hxy|]. now apply IH.
    + constructor; [exact Hab|]. constructor; [exact Hxy|exact H].
Qed.

Lemma sameNumbers_sort l1 l2 :
  numbers l1 -> numbers l2 -> sameNumbers l1 l2 ->
  sameNumbers (sort numeric_order l1) (sort numeric_order l2).
Proof.
  intros H1 H2 H. revert H1 H2.
  induction H as [|x y l1 l2 Hxy H IH]; intros H1 H2; simpl.
  - constructor.
  - inversion H1; inversion H2; subst.
    apply sameNumbers_sort_insert; auto using numbers_sort.
Qed.

Section Monotone.

(** A map of numbers that keeps their order. *)
Variable f : float -> float.
Hypothesis f_number : forall x, isNaN x = false -> isNaN (f x) = false.
Hypothesis f_monotone : forall x y,
  isNaN x = false -> isNaN y = false -> ord x <= ord y -> ord (f x) <= ord (f y).

Lemma numbers_map l : numbers l -> numbers (map f l).
Proof.
  intros H. induction H; simpl; constructor; auto.
Qed.

Lemma shifted_insert x : forall l y,
  isNaN x = false -> isNaN y = false -> numbers l -> ascending l ->
  Forall (fun z => ord y <= ord z) l ->
  ord y <= ord x -> ord (f x) = ord (f y) ->
  sameNumbers (f y :: map f l) (map f (sort_insert numeric_order x l)).
Proof.
  induction l as [|z l IH]; intros y Hx Hy Hl Ha Hlow Hyx Hf.
  - simpl. repeat constructor; auto.
  - inversion Hl as [|? ? Hz Hl']; subst.
    inversion Hlow as [|? ? Hyz Hlow']; subst.
    destruct Ha as [Haz Ha].
    rewrite sort_insert_cons by auto.
    destruct (ord z <? ord x) eqn:E.
    + apply Z.ltb_lt in E. simpl map.
      assert (Hfz : ord (f z) = ord (f y)).
      { pose proof (f_monotone y z Hy Hz Hyz).
        pose proof (f_monotone z x Hz Hx). lia. }
      constructor; [congruence|].
      apply IH; auto; try lia.
    + simpl map. constructor; [congruence|]. apply sameNumbers_refl.
Qed.

Lemma map_sort_insert x : forall l,
  isNaN x = false -> numbers l -> ascending l ->
  sameNumbers (sort_insert numeric_order (f x) (map f l))
              (map f (sort_insert numeric_order x l)).
Proof.
  induction l as [|y l IH]; intros Hx Hl Ha.
  - simpl. apply sameNumbers_refl.
  - inversion Hl as [|? ? Hy Hl']; subst. destruct Ha as [Hay Ha].
    simpl map at 1.
    rewrite !sort_insert_cons by auto.
    destruct (ord y <? ord x) eqn:E.
    + apply Z.ltb_lt in E.
      destruct (ord (f y) <? ord (f x)) eqn:E'.
      * simpl map. constructor; [reflexivity|]. now apply IH.
      * apply Z.ltb_ge in E'.
        assert (Hf : ord (f x) = ord (f y)).
        { pose proof (f_monotone y x Hy Hx). lia. }
        simpl map. constructor; [exact Hf|].
        apply shifted_insert; auto. lia.
    + apply Z.ltb_ge in E.
      pose proof (f_monotone x y Hx Hy E) as Hm.
      assert (E' : (ord (f y) <? ord (f x)) = false) by (apply Z.ltb_ge; lia).
      rewrite E'. apply sameNumbers_refl.
Qed.

(** Sorting after an order-keeping map gives, number for number, the map of
    the sorted array. *)
Lemma sort_map l :
  numbers l ->
  sameNumbers (sort numeric_order (map f l)) (map f (sort numeric_order l)).
Proof.
  induction l as [|x l IH]; intros Hl; simpl.
  - constructor.
  - inversion Hl as [|? ? Hx Hl']; subst.
    eapply sameNumbers_trans.
    + apply (sameNumbers_sort_insert (f x) (f x)); auto;
        first [ apply numbers_sort; now apply numbers_map
              | apply numbers_map; now apply numbers_sort
              | now apply IH ].
    + apply map_sort_insert; auto using numbers_sort, ascending_sort.
Qed.

End Monotone.

Lemma sameNumbers_nth_error l1 l2 i :
  sameNumbers l1 l2 ->
  match nth_error l1 i, nth_error l2 i with
  | Some a, Some b => ord a = ord b
  | None, None => True
  | _, _ => False
  end.
Proof.
  intros H. revert i. induction H; intros [|i]; simpl; auto.
  apply IHForall2.
Qed.

End SortedNumbers.


(** ** Capping under winsorization *)

Section Winsorization.

Local Open Scope Z_scope.

Lemma ord_zero : ord 0%float = 0.
Proof. reflexivity. Qed.

(** A number read back from a cell is the same number. *)
Lemma parseFloat_VNum (x : float) :
  isNaN x = false ->
  isNaN (parseFloat (VNum x)) = false /\ ord (parseFloat (VNum x)) = ord x.
Proof.
  intros Hx. simpl.
  destruct (PrimFloat.eqb x 0) eqn:E; auto.
  rewrite eqb_ord in E by auto. apply Z.eqb_eq in E.
  split; [reflexivity|]. now rewrite E.
Qed.

Lemma in_columnNumbers data col x :
  In x (columnNumbers data col) -> isNaN x = false.
Proof.
  unfold columnNumbers. intros H. apply filter_In in H.
  destruct H as [_ H]. now destruct (isNaN x).
Qed.

Lemma numbers_columnNumbers data col : numbers (columnNumbers data col).
Proof. apply Forall_forall. apply in_columnNumbers. Qed.

Lemma array_get_in {A : Type} (l : list A) (i : float) (a : A) :
  array_get l i = Some a -> In a l.
Proof.
  unfold array_get. destruct (float2Z i) as [z|]; [|discriminate].
  destruct (0 <=? z); [|discriminate]. apply nth_error_In.
Qed.

Variables (data : list Row) (threshold : Threshold).

(** The bounds of a column: they do not depend on the value examined. *)
Definition boundsOf (rows : list Row) (col : string) : option float * option float :=
  let d := detect rows Winsorization threshold col 0%float in
  (lowerBound d, upperBound d).

Lemma detect_winsorization rows col value :
  detect rows Winsorization threshold col value
  = {| isOutlier := lt_bound value (fst (boundsOf rows col))
                    || gt_bound value (snd (boundsOf rows col));
       lowerBound := fst (boundsOf rows col);
       upperBound := snd (boundsOf rows col) |}.
Proof. reflexivity. Qed.

Lemma boundsOf_numbers rows col :
  (forall l, fst (boundsOf rows col) = Some l -> isNaN l = false)
  /\ (forall u, snd (boundsOf rows col) = Some u -> isNaN u = false).
Proof.
  unfold boundsOf, detect. simpl.
  split; intros x H; apply array_get_in in H; apply in_sort in H;
    now apply in_columnNumbers in H.
Qed.

(** The lower bound does not exceed the upper bound. *)
Definition ordered (bounds : option float * option float) : Prop :=
  match bounds with
  | (Some l, Some u) => PrimFloat.ltb u l = false
  | _ => True
  end.

(** What capping makes of a number: the number a capped cell parses to. *)
Definition capNumber (bounds : option float * option float) (v : float) : float :=
  if gt_bound v (snd bounds) then parseFloat (boundValue (snd bounds))
  else if lt_bound v (fst bounds) then parseFloat (boundValue (fst bounds))
  else v.

(** The rank of a capped number: the rank clamped between the bounds. *)
Definition clamp (lo hi : option Z) (z : Z) : Z :=
  match hi with
  | Some h => if h <? z then h else
                match lo with Some l => if z <? l then l else z | None => z end
  | None => match lo with Some l => if z <? l then l else z | None => z end
  end.

Lemma capNumber_spec bounds v :
  (forall l, fst bounds = Some l -> isNaN l = false) ->
  (forall u, snd bounds = Some u -> isNaN u = false) ->
  isNaN v = false ->
  isNaN (capNumber bounds v) = false
  /\ ord (capNumber bounds v)
     = clamp (option_map ord (fst bounds)) (option_map ord (snd bounds)) (ord v).
Proof.
  intros Hl Hu Hv. destruct bounds as [[l|] [u|]]; unfold capNumber; simpl in *;
    repeat match goal with
           | |- context [PrimFloat.ltb ?a ?b] =>
               rewrite (ltb_ord a b) by auto; destruct (ord a <? ord b)
           end;
    try (apply parseFloat_VNum; auto); auto.
Qed.

Lemma capNumber_NaN bounds v : isNaN v = true -> capNumber bounds v = v.
Proof.
  intros Hv. unfold capNumber, gt_bound, lt_bound.
  destruct bounds as [[l|] [u|]]; simpl;
    rewrite ?(ltb_NaN_l v), ?(ltb_NaN_r _ v) by auto; reflexivity.
Qed.

Lemma ordered_ord bounds :
  (forall l, fst bounds = Some l -> isNaN l = false) ->
  (forall u, snd bounds = Some u -> isNaN u = false) ->
  ordered bounds ->
  match bounds with
  | (Some l, Some u) => ord l <= ord u
  | _ => True
  end.
Proof.
  destruct bounds as [[l|] [u|]]; simpl; auto. intros Hl Hu H.
  rewrite ltb_ord in H by auto. apply Z.ltb_ge in H. exact H.
Qed.

Lemma clamp_monotone lo hi x y :
  match lo, hi with Some l, Some h => l <= h | _, _ => True end ->
  x <= y -> clamp lo hi x <= clamp lo hi y.
Proof.
  intros H Hxy. unfold clamp.
  destruct lo as [l|]; destruct hi as [h|];
    repeat match goal with
           | |- context [?a <? ?b] => destruct (Z.ltb_spec a b)
           end; lia.
Qed.

(** *** One row *)

(** The cell of column [col] after capping the row. *)
Definition capCell (row : Row) (col : string) : Value :=
  let value := parseFloat (get row col) in
  if gt_bound value (snd (boundsOf data col)) then boundValue (snd (boundsOf data col))
  else if lt_bound value (fst (boundsOf data col))
       then boundValue (fst (boundsOf data col))
       else get row col.

(** The column loop under winsorization and [cap], which never removes. *)
Fixpoint capColumns (rows : list Row) (row newRow : Row) (columns : list string) : Row :=
  match columns with
  | [] => newRow
  | col :: columns' =>
      let value := parseFloat (get row col) in
      let newRow1 :=
        if lt_bound value (fst (boundsOf rows col))
        then set newRow col (boundValue (fst (boundsOf rows col))) else newRow in
      let newRow2 :=
        if gt_bound value (snd (boundsOf rows col))
        then set newRow1 col (boundValue (snd (boundsOf rows col))) else newRow1 in
      capColumns rows row newRow2 columns'
  end.

Variable Math_log : float -> float.
Variable columns : list string.

Definition config : OutlierConfig :=
  {| out_method := Winsorization; out_threshold := threshold;
     out_action := Cap; out_columns := columns |}.

Lemma lt_bound_NaN v b : isNaN v = true -> lt_bound v b = false.
Proof. intros H. destruct b; simpl; auto using ltb_NaN_l. Qed.

Lemma gt_bound_NaN v b : isNaN v = true -> gt_bound v b = false.
Proof. intros H. destruct b; simpl; auto using ltb_NaN_r. Qed.

Lemma outlierColumns_cap rows row cols : forall newRow,
  outlierColumns Math_log rows
    {| out_method := Winsorization; out_threshold := threshold;
       out_action := Cap; out_columns := columns |} row newRow cols
  = Some (capColumns rows row newRow cols).
Proof.
  induction cols as [|col cols IH]; intros newRow;
    cbn [outlierColumns capColumns out_method out_threshold out_action]; auto.
  destruct (isNaN (parseFloat (get row col))) eqn:En.
  - rewrite lt_bound_NaN, gt_bound_NaN by auto. apply IH.
  - rewrite detect_winsorization. cbn [isOutlier lowerBound upperBound].
    destruct (lt_bound _ (fst (boundsOf rows col))) eqn:El;
      destruct (gt_bound _ (snd (boundsOf rows col))) eqn:Eg;
      cbn [orb]; apply IH.
Qed.

Lemma handleOutliers_cap rows :
  handleOutliers Math_log rows
    {| out_method := Winsorization; out_threshold := threshold;
       out_action := Cap; out_columns := columns |}
  = map (fun row => capColumns rows row row columns) rows.
Proof.
  unfold handleOutliers. cbn [out_columns].
  rewrite (map_ext _ (fun row => Some (capColumns rows row row columns)))
    by (intros; apply outlierColumns_cap).
  rewrite <- (map_map (fun row => capColumns rows row row columns) Some).
  apply filterNotNull_map_Some.
Qed.

Lemma capColumns_untouched rows row cols c : forall newRow,
  ~ In c cols -> get (capColumns rows row newRow cols) c = get newRow c.
Proof.
  induction cols as [|col cols IH]; intros newRow Hn; cbn [capColumns]; auto.
  assert (col <> c /\ ~ In c cols) as [Hc Hn'] by (simpl in Hn; tauto).
  rewrite IH by auto.
  destruct (gt_bound _ _); destruct (lt_bound _ _);
    rewrite ?get_set_other by congruence; reflexivity.
Qed.

(** Capping a column again writes the same cell. *)
Lemma capColumns_done row cols c : forall newRow,
  get newRow c = capCell row c ->
  get (capColumns data row newRow cols) c = capCell row c.
Proof.
  induction cols as [|col cols IH]; intros newRow H; cbn [capColumns]; auto.
  apply IH. destruct (string_dec col c) as [->|Hne].
  - unfold capCell in *.
    destruct (gt_bound _ _); [now rewrite get_set_same|].
    destruct (lt_bound _ _); [now rewrite get_set_same|exact H].
  - destruct (gt_bound _ _); destruct (lt_bound _ _);
      rewrite ?get_set_other by congruence; exact H.
Qed.

Lemma capColumns_get row cols c : forall newRow,
  In c cols -> get newRow c = get row c ->
  get (capColumns data row newRow cols) c = capCell row c.
Proof.
  induction cols as [|col cols IH]; intros newRow Hin H; [contradiction|].
  cbn [capColumns]. destruct (string_dec col c) as [->|Hne].
  - apply capColumns_done. unfold capCell.
    destruct (gt_bound _ _); [now rewrite get_set_same|].
    destruct (lt_bound _ _); [now rewrite get_set_same|exact H].
  - destruct Hin as [Heq|Hin]; [congruence|].
    apply IH; auto.
    destruct (gt_bound _ _); destruct (lt_bound _ _);
      rewrite ?get_set_other by congruence; exact H.
Qed.

Lemma parseFloat_capCell row c :
  parseFloat (capCell row c) = capNumber (boundsOf data c) (parseFloat (get row c)).
Proof.
  unfold capCell, capNumber.
  destruct (gt_bound _ _); auto. destruct (lt_bound _ _); auto.
Qed.

(** *** One column *)

Lemma isNaN_capNumber rows c v :
  isNaN (capNumber (boundsOf rows c) v) = isNaN v.
Proof.
  destruct (isNaN v) eqn:E.
  - now rewrite capNumber_NaN.
  - apply capNumber_spec; auto; apply boundsOf_numbers.
Qed.

Lemma filter_map_same {A B : Type} (p : B -> bool) (g : B -> B) (h : A -> B)
    (l : list A) :
  (forall b, p (g b) = p b) ->
  filter p (map (fun a => g (h a)) l) = map g (filter p (map h l)).
Proof.
  intros H. induction l as [|a l IH]; simpl; auto.
  rewrite H. destruct (p (h a)); simpl; congruence.
Qed.

(** The rows after one pass. *)
Definition capped : list Row := map (fun row => capColumns data row row columns) data.

(** The numbers of a selected column after one pass are the capped numbers
    of the column. *)
Lemma columnNumbers_capped c :
  In c columns ->
  columnNumbers capped c = map (capNumber (boundsOf data c)) (columnNumbers data c).
Proof.
  intros Hin. unfold columnNumbers, capped. rewrite map_map.
  rewrite (map_ext _ (fun row => capNumber (boundsOf data c) (parseFloat (get row c)))).
  - apply (filter_map_same (fun v => negb (isNaN v))).
    intros v. now rewrite isNaN_capNumber.
  - intros row. rewrite capColumns_get by auto. apply parseFloat_capCell.
Qed.

Lemma array_get_map {A B : Type} (f : A -> B) (l : list A) (i : float) :
  array_get (map f l) i = option_map f (array_get l i).
Proof.
  unfold array_get. destruct (float2Z i) as [z|]; auto.
  destruct (0 <=? z); auto. apply nth_error_map.
Qed.

Lemma array_get_sameNumbers l1 l2 i :
  sameNumbers l1 l2 ->
  match array_get l1 i, array_get l2 i with
  | Some a, Some b => ord a = ord b
  | None, None => True
  | _, _ => False
  end.
Proof.
  intros H. unfold array_get. destruct (float2Z i) as [z|]; auto.
  destruct (0 <=? z); auto. now apply sameNumbers_nth_error.
Qed.

(** Two bounds that are absent together or equal as numbers. *)
Definition sameBound (b b' : option float) : Prop :=
  match b, b' with
  | Some x, Some y => ord x = ord y /\ isNaN y = false
  | None, None => True
  | _, _ => False
  end.

Lemma within_bounds (L U L' U' : option float) (v : float) (z : Z) :
  isNaN v = false ->
  ord v = clamp (option_map ord L) (option_map ord U) z ->
  match option_map ord L, option_map ord U with
  | Some l, Some h => l <= h
  | _, _ => True
  end ->
  sameBound L L' -> sameBound U U' ->
  lt_bound v L' = false /\ gt_bound v U' = false.
Proof.
  intros Hv Ho Hlh Bl Bu. unfold sameBound in Bl, Bu.
  destruct L as [l|]; destruct L' as [l'|]; try contradiction;
    destruct U as [u|]; destruct U' as [u'|]; try contradiction;
    simpl in *; unfold clamp in Ho;
    repeat match goal with
           | H : _ /\ _ |- _ => destruct H
           end;
    rewrite ?ltb_ord by auto; split; try reflexivity; apply Z.ltb_ge;
    repeat match goal with
           | H : context [?a <? ?b] |- _ => destruct (Z.ltb_spec a b)
           end; lia.
Qed.

Section Column.

Variable c : string.
Hypothesis c_selected : In c columns.
Hypothesis c_ordered : ordered (boundsOf data c).

Let bounds := boundsOf data c.
Let lo := option_map ord (fst bounds).
Let hi := option_map ord (snd bounds).

Lemma lo_le_hi : match lo, hi with Some l, Some h => l <= h | _, _ => True end.
Proof.
  pose proof (ordered_ord bounds (proj1 (boundsOf_numbers data c))
                (proj2 (boundsOf_numbers data c)) c_ordered) as H.
  unfold lo, hi. destruct bounds as [[l|] [u|]]; simpl; auto.
Qed.

Lemma capNumber_number v : isNaN v = false -> isNaN (capNumber bounds v) = false.
Proof. intros H. unfold bounds. now rewrite isNaN_capNumber. Qed.

Lemma capNumber_ord v : isNaN v = false -> ord (capNumber bounds v) = clamp lo hi (ord v).
Proof. intros H. apply capNumber_spec; auto; apply boundsOf_numbers. Qed.

Lemma capNumber_monotone x y :
  isNaN x = false -> isNaN y = false -> ord x <= ord y ->
  ord (capNumber bounds x) <= ord (capNumber bounds y).
Proof.
  intros Hx Hy H. rewrite !capNumber_ord by auto.
  apply clamp_monotone; auto. apply lo_le_hi.
Qed.

(** The sorted numbers of the column after one pass are, number for number,
    the capped sorted numbers of the column. *)
Lemma sorted_capped :
  sameNumbers (sort numeric_order (columnNumbers capped c))
              (map (capNumber bounds) (sort numeric_order (columnNumbers data c))).
Proof.
  rewrite columnNumbers_capped by exact c_selected.
  apply sort_map.
  - exact capNumber_number.
  - exact capNumber_monotone.
  - apply numbers_columnNumbers.
Qed.

Lemma length_sorted_capped :
  List.length (sort numeric_order (columnNumbers capped c))
  = List.length (sort numeric_order (columnNumbers data c)).
Proof.
  rewrite (sameNumbers_length _ _ sorted_capped). apply length_map.
Qed.

(** An entry of the sorted numbers after one pass. *)
Lemma entry_capped i :
  match array_get (sort numeric_order (columnNumbers data c)) i,
        array_get (sort numeric_order (columnNumbers capped c)) i with
  | Some x, Some y => ord y = clamp lo hi (ord x) /\ isNaN y = false
  | None, None => True
  | _, _ => False
  end.
Proof.
  pose proof (array_get_sameNumbers _ _ i sorted_capped) as H.
  rewrite array_get_map in H.
  destruct (array_get (sort numeric_order (columnNumbers data c)) i) as [x|] eqn:Ex;
    destruct (array_get (sort numeric_order (columnNumbers capped c)) i) as [y|] eqn:Ey;
    simpl in H; auto.
  assert (Hx : isNaN x = false).
  { apply array_get_in, in_sort in Ex. now apply in_columnNumbers in Ex. }
  assert (Hy : isNaN y = false).
  { apply array_get_in, in_sort in Ey. now apply in_columnNumbers in Ey. }
  split; auto. rewrite H. now apply capNumber_ord.
Qed.

Lemma clamp_lower l : lo = Some l -> clamp lo hi l = l.
Proof.
  pose proof lo_le_hi as H. intros E. rewrite E in *. unfold clamp.
  destruct hi as [h|];
    repeat match goal with
           | |- context [?a <? ?b] => destruct (Z.ltb_spec a b)
           end; lia.
Qed.

Lemma clamp_upper h : hi = Some h -> clamp lo hi h = h.
Proof.
  pose proof lo_le_hi as H. intros E. rewrite E in *. unfold clamp.
  destruct lo as [l|];
    repeat match goal with
           | |- context [?a <? ?b] => destruct (Z.ltb_spec a b)
           end; lia.
Qed.

(** The percentiles of the configuration, with their defaults. *)
Definition lowerPercentile : float :=
  match threshold with TPercentiles lower _ => lower | TNumber _ => 0.01%float end.

Definition upperPercentile : float :=
  match threshold with TPercentiles _ upper => upper | TNumber _ => 0.99%float end.

Lemma fst_boundsOf rows col :
  fst (boundsOf rows col)
  = array_get (sort numeric_order (columnNumbers rows col))
      (Math_floor (nat2float (List.length (sort numeric_order (columnNumbers rows col)))
                   * lowerPercentile)%float).
Proof. reflexivity. Qed.

Lemma snd_boundsOf rows col :
  snd (boundsOf rows col)
  = array_get (sort numeric_order (columnNumbers rows col))
      (Math_floor (nat2float (List.length (sort numeric_order (columnNumbers rows col)))
                   * upperPercentile)%float).
Proof. reflexivity. Qed.

(** The bounds after one pass are the bounds before it. *)
Lemma bounds_capped :
  sameBound (fst bounds) (fst (boundsOf capped c))
  /\ sameBound (snd bounds) (snd (boundsOf capped c)).
Proof.
  split.
  - assert (Hl : forall x, fst bounds = Some x -> clamp lo hi (ord x) = ord x).
    { intros x E. apply clamp_lower. unfold lo. now rewrite E. }
    unfold bounds in Hl |- *.
    rewrite (fst_boundsOf capped c). rewrite (fst_boundsOf data c) in Hl |- *.
    rewrite length_sorted_capped.
    match goal with
    | |- sameBound (array_get _ ?i) _ => pose proof (entry_capped i) as E
    end.
    unfold sameBound.
    destruct (array_get (sort numeric_order (columnNumbers data c)) _) as [x|];
      destruct (array_get (sort numeric_order (columnNumbers capped c)) _) as [y|];
      auto.
    destruct E as [E Hy]. split; auto. rewrite E. symmetry. now apply Hl.
  - assert (Hu : forall x, snd bounds = Some x -> clamp lo hi (ord x) = ord x).
    { intros x E. apply clamp_upper. unfold hi. now rewrite E. }
    unfold bounds in Hu |- *.
    rewrite (snd_boundsOf capped c). rewrite (snd_boundsOf data c) in Hu |- *.
    rewrite length_sorted_capped.
    match goal with
    | |- sameBound (array_get _ ?i) _ => pose proof (entry_capped i) as E
    end.
    unfold sameBound.
    destruct (array_get (sort numeric_order (columnNumbers data c)) _) as [x|];
      destruct (array_get (sort numeric_order (columnNumbers capped c)) _) as [y|];
      auto.
    destruct E as [E Hy]. split; auto. rewrite E. symmetry. now apply Hu.
Qed.

(** After one pass no number of the column lies outside the bounds. *)
Lemma capped_within row :
  let value := parseFloat (get (capColumns data row row columns) c) in
  lt_bound value (fst (boundsOf capped c)) = false
  /\ gt_bound value (snd (boundsOf capped c)) = false.
Proof.
  cbv zeta. rewrite capColumns_get by auto. rewrite parseFloat_capCell.
  fold bounds.
  destruct (isNaN (parseFloat (get row c))) eqn:En.
  - rewrite capNumber_NaN by auto.
    split; [now apply lt_bound_NaN | now apply gt_bound_NaN].
  - destruct bounds_capped as [Bl Bu].
    apply (within_bounds (fst bounds) (snd bounds) _ _ _
             (ord (parseFloat (get row c)))); auto.
    + now apply capNumber_number.
    + now apply capNumber_ord.
    + apply lo_le_hi.
Qed.

End Column.

Lemma capColumns_within rows row cols : forall newRow,
  (forall col, In col cols ->
     lt_bound (parseFloat (get row col)) (fst (boundsOf rows col)) = false
     /\ gt_bound (parseFloat (get row col)) (snd (boundsOf rows col)) = false) ->
  capColumns rows row newRow cols = newRow.
Proof.
  induction cols as [|col cols IH]; intros newRow H; cbn [capColumns]; auto.
  destruct (H col) as [Hl Hg]; [now left|]. rewrite Hl, Hg.
  apply IH. intros col' Hin. apply H. now right.
Qed.

Lemma map_id_in {A : Type} (f : A -> A) (l : list A) :
  (forall a, In a l -> f a = a) -> map f l = l.
Proof.
  induction l as [|a l IH]; simpl; intros H; auto.
  rewrite H by auto. rewrite IH; auto.
Qed.

Lemma capped_twice :
  (forall col, In col columns -> ordered (boundsOf data col)) ->
  map (fun row => capColumns capped row row columns) capped = capped.
Proof.
  intros Hord. apply map_id_in. intros row' Hin.
  unfold capped in Hin. apply in_map_iff in Hin. destruct Hin as [row [<- Hin]].
  apply capColumns_within. intros col Hc.
  apply (capped_within col Hc (Hord col Hc) row).
Qed.

End Winsorization.

Definition winsorizationExample : list Row :=
  numbersExample [10; 2; 3; 4; 5; 6; 7; 8; 9; 1; 11; 12; 13; 14; 15; 16; 17; 18; 19;
                  1000]%float.


(** * Further properties of the cleaning stages *)

(** ** Imputation writes missing cells of selected columns only *)

(** The imputation stage returns as many rows as it is given, and in each row
    every cell that is not missing, and every cell of a column that is not
    selected, keeps its value. *)
Theorem imputation_keeps_other_cells data config out :
  handleMissingValues data config = Ok out ->
  List.length out = List.length data
  /\ forall i row,
       nth_error data i = Some row ->
       exists row',
         nth_error out i = Some row'
         /\ forall col,
              ~ In col (imp_columns config) \/ isMissing (get row col) = false ->
              get row' col = get row col.
Proof.
  intros H. apply handleMissingValues_rows in H. split.
  - now apply mapM_Ok_length in H.
  - intros i row Hn.
    destruct (mapM_Ok_nth _ _ _ _ _ H Hn) as [row' [Hf Hn']].
    exists row'. split; auto.
    intros col [Hc|Hc].
    + eapply foldM_imputeColumn_untouched; eauto.
    + eapply foldM_imputeColumn_kept; eauto.
Qed.

Definition twoColumns (x y : Value) : Row := [("x"%string, x); ("y"%string, y)].

Lemma imputation_keeps_other_cells_witness :
  List.length [twoColumns (VNum 6) VNull; twoColumns (VNum 6) (VNum 3)]
  = List.length [twoColumns VNull VNull; twoColumns (VNum 6) (VNum 3)]
  /\ forall i row,
       nth_error [twoColumns VNull VNull; twoColumns (VNum 6) (VNum 3)] i = Some row ->
       exists row',
         nth_error [twoColumns (VNum 6) VNull; twoColumns (VNum 6) (VNum 3)] i
         = Some row'
         /\ forall col,
              ~ In col ["x"%string] \/ isMissing (get row col) = false ->
              get row' col = get row col.
Proof.
  exact (imputation_keeps_other_cells
           [twoColumns VNull VNull; twoColumns (VNum 6) (VNum 3)]
           {| imp_method := Mean; imp_columns := ["x"%string] |}
           [twoColumns (VNum 6) VNull; twoColumns (VNum 6) (VNum 3)]
           eq_refl).
Defined.

(** ** A column without any value *)

Lemma columnNumbers_all_missing data col :
  (forall row, In row data -> isMissing (get row col) = true) ->
  columnNumbers data col = [].
Proof.
  unfold columnNumbers. induction data as [|row data IH]; simpl; intros H; auto.
  rewrite (isMissing_parseFloat (get row col)) by auto. simpl. auto.
Qed.

(** When every cell of a column is missing, the mean, the median and the
    deviation of the column are [NaN], nearest-neighbour imputation falls
    back to that mean, and mean imputation writes [NaN] into every cell of
    the column instead of failing. *)
Theorem column_without_values_gives_NaN data col :
  (forall row, In row data -> isMissing (get row col) = true) ->
  calculateColumnMean data col = NaN
  /\ calculateColumnMedian data col = NaN
  /\ calculateColumnStd data col = NaN
  /\ (forall targetRow options,
        knnImputation data targetRow col options = Ok (VNum NaN))
  /\ exists out,
       handleMissingValues data {| imp_method := Mean; imp_columns := [col] |} = Ok out
       /\ forall i row,
            nth_error data i = Some row ->
            exists row', nth_error out i = Some row' /\ get row' col = VNum NaN.
Proof.
  intros H.
  assert (Hmean : calculateColumnMean data col = NaN).
  { unfold calculateColumnMean. now rewrite columnNumbers_all_missing. }
  split; [exact Hmean|]. split; [|split; [|split]].
  - unfold calculateColumnMedian. now rewrite columnNumbers_all_missing.
  - unfold calculateColumnStd. now rewrite columnNumbers_all_missing.
  - intros targetRow options. unfold knnImputation.
    assert (E : filter (fun row => negb (isMissing (get row col))) data = []).
    { clear Hmean. induction data as [|row rows IH]; simpl; auto.
      rewrite H by (now left). simpl. apply IH. intros r Hr. apply H. now right. }
    rewrite E. now rewrite Hmean.
  - set (config := {| imp_method := Mean; imp_columns := [col] |}).
    destruct (handleMissingValues_total data config) as [out Hout].
    { intros row c. simpl. discriminate. }
    exists out. split; auto. intros i row Hn.
    apply (handleMissingValues_replaced data config out i row col); auto.
    + simpl. auto.
    + apply H. eapply nth_error_In; eauto.
    + simpl. now rewrite Hmean.
Qed.

Lemma column_without_values_gives_NaN_witness :
  calculateColumnMean [xCell VNull; xCell (VStr "")] "x" = NaN.
Proof.
  apply (column_without_values_gives_NaN [xCell VNull; xCell (VStr "")] "x").
  intros row [<-|[<-|[]]]; reflexivity.
Defined.

(** When every cell of a column is [null] or [undefined], the mode of the
    column does not exist: [calculateColumnMode] throws, and so does mode
    imputation on that column as soon as there is a row. *)
Theorem mode_of_empty_column_throws data col :
  (forall row, In row data ->
     strict_eq (get row col) VNull || strict_eq (get row col) VUndefined = true) ->
  calculateColumnMode data col = TypeError
  /\ (data <> [] ->
      forall columns,
        handleMissingValues data {| imp_method := Mode; imp_columns := col :: columns |}
        = TypeError).
Proof.
  intros H.
  assert (Hmode : calculateColumnMode data col = TypeError).
  { unfold calculateColumnMode.
    assert (E : filter (fun v => negb (strict_eq v VNull) && negb (strict_eq v VUndefined))
                       (map (fun row => get row col) data) = []).
    { induction data as [|row rows IH]; simpl; auto.
      assert (Hr := H row (or_introl eq_refl)).
      destruct (strict_eq (get row col) VNull);
        destruct (strict_eq (get row col) VUndefined); try discriminate; simpl;
        apply IH; intros r Hr'; apply H; now right. }
    rewrite E. reflexivity. }
  split; auto.
  intros Hne columns. destruct data as [|row rows]; [congruence|].
  unfold handleMissingValues. simpl.
  assert (Hm : isMissing (get row col) = true).
  { unfold isMissing. assert (Hr := H row (or_introl eq_refl)).
    destruct (strict_eq (get row col) VNull);
      destruct (strict_eq (get row col) VUndefined); auto; discriminate. }
  unfold imputeColumn at 1. rewrite Hm, Hmode. reflexivity.
Qed.

Lemma mode_of_empty_column_throws_witness :
  calculateColumnMode [xCell VNull; xCell VUndefined] "x" = TypeError.
Proof.
  apply (mode_of_empty_column_throws [xCell VNull; xCell VUndefined] "x").
  intros row [<-|[<-|[]]]; reflexivity.
Defined.


(** ** Outliers: removal keeps the other rows as they are *)

(** Whether the cell of [row] in [col] parses to an outlier of its column. *)
Definition outlierCell (data : list Row) (method : OutlierMethod)
    (threshold : Threshold) (row : Row) (col : string) : bool :=
  negb (isNaN (parseFloat (get row col)))
  && isOutlier (detect data method threshold col (parseFloat (get row col))).

Lemma outlierColumns_remove Math_log data method threshold columns row cols :
  forall newRow,
  outlierColumns Math_log data
    {| out_method := method; out_threshold := threshold;
       out_action := OutlierRemove; out_columns := columns |} row newRow cols
  = if existsb (outlierCell data method threshold row) cols then None else Some newRow.
Proof.
  induction cols as [|col cols IH]; intros newRow;
    cbn [outlierColumns existsb out_method out_threshold out_action]; auto.
  unfold outlierCell at 1.
  destruct (isNaN (parseFloat (get row col))); cbn [negb andb orb]; auto.
  destruct (isOutlier _); cbn [orb]; auto.
Qed.

Lemma filterNotNull_map_if (p : Row -> bool) (rows : list Row) :
  filterNotNull (map (fun row => if p row then None else Some row) rows)
  = filter (fun row => negb (p row)) rows.
Proof.
  induction rows as [|row rows IH]; simpl; auto.
  destruct (p row); simpl; congruence.
Qed.

(** With the action [remove], the outlier stage returns exactly the input
    rows none of whose selected cells parses to an outlier of its column, in
    order and unchanged; the bounds are those of the whole input. *)
Theorem outlier_removal_filters_rows Math_log data method threshold columns :
  handleOutliers Math_log data
    {| out_method := method; out_threshold := threshold;
       out_action := OutlierRemove; out_columns := columns |}
  = filter (fun row => negb (existsb (outlierCell data method threshold row) columns))
           data.
Proof.
  unfold handleOutliers. cbn [out_columns].
  rewrite (map_ext _ (fun row =>
                        if existsb (outlierCell data method threshold row) columns
                        then None else Some row))
    by (intros; apply outlierColumns_remove).
  apply filterNotNull_map_if.
Qed.

(** ** Outliers: capping and transforming keep the rows and the other cells *)

Lemma outlierColumns_keeps Math_log data config row cols c :
  out_action config <> OutlierRemove ->
  ~ In c cols \/ isNaN (parseFloat (get row c)) = true ->
  forall newRow,
  exists newRow',
    outlierColumns Math_log data config row newRow cols = Some newRow'
    /\ get newRow' c = get newRow c.
Proof.
  intros Ha Hc. induction cols as [|col cols IH]; intros newRow;
    cbn [outlierColumns]; eauto.
  assert (Hc' : ~ In c cols \/ isNaN (parseFloat (get row c)) = true)
    by (simpl in Hc; tauto).
  specialize (IH Hc').
  destruct (isNaN (parseFloat (get row col))) eqn:En; auto.
  assert (Hne : c <> col).
  { intros ->. destruct Hc as [Hc|Hc]; [simpl in Hc; tauto|congruence]. }
  destruct (isOutlier _); auto.
  destruct (out_action config); [congruence| |].
  - match goal with
    | |- exists r, outlierColumns _ _ _ _ ?nr _ = _ /\ _ =>
        destruct (IH nr) as [r [E G]]; exists r; split; auto; rewrite G
    end.
    destruct (lt_bound _ _); destruct (gt_bound _ _);
      rewrite ?get_set_other by auto; reflexivity.
  - match goal with
    | |- exists r, outlierColumns _ _ _ _ ?nr _ = _ /\ _ =>
        destruct (IH nr) as [r [E G]]; exists r; split; auto; rewrite G
    end.
    now rewrite get_set_other.
Qed.

Lemma filterNotNull_nth (f : Row -> option Row) (rows : list Row) :
  (forall row, In row rows -> f row <> None) ->
  List.length (filterNotNull (map f rows)) = List.length rows
  /\ forall i row,
       nth_error rows i = Some row ->
       nth_error (filterNotNull (map f rows)) i = f row.
Proof.
  induction rows as [|r rows IH]; intros H.
  - split; auto. intros [|i] row E; discriminate.
  - assert (Hrows : forall row, In row rows -> f row <> None)
      by (intros; apply H; now right).
    destruct (IH Hrows) as [IH1 IH2].
    simpl. destruct (f r) as [r'|] eqn:E; [|exfalso; apply (H r); simpl; auto].
    split; [simpl; congruence|].
    intros [|i] row Hn; simpl in Hn |- *.
    + injection Hn as <-. now rewrite E.
    + now apply IH2.
Qed.

Lemma outlierColumns_total Math_log data config row cols :
  out_action config <> OutlierRemove ->
  forall newRow, outlierColumns Math_log data config row newRow cols <> None.
Proof.
  intros Ha. induction cols as [|col cols IH]; intros newRow;
    cbn [outlierColumns]; try discriminate.
  destruct (isNaN _); auto. destruct (isOutlier _); auto.
  destruct (out_action config); auto; congruence.
Qed.

(** With the actions [cap] and [transform], the outlier stage returns as many
    rows as it is given, and in each row every cell of a column that is not
    selected, and every cell that does not parse to a number, keeps its
    value. *)
Theorem outlier_treatment_keeps_other_cells Math_log data config :
  out_action config <> OutlierRemove ->
  List.length (handleOutliers Math_log data config) = List.length data
  /\ forall i row,
       nth_error data i = Some row ->
       exists row',
         nth_error (handleOutliers Math_log data config) i = Some row'
         /\ forall col,
              ~ In col (out_columns config)
              \/ isNaN (parseFloat (get row col)) = true ->
              get row' col = get row col.
Proof.
  intros Ha. unfold handleOutliers.
  destruct (filterNotNull_nth
              (fun row => outlierColumns Math_log data config row row
                            (out_columns config)) data) as [Hlen Hnth].
  { intros row _. now apply outlierColumns_total. }
  split; auto. intros i row Hn. rewrite (Hnth i row Hn).
  destruct (outlierColumns Math_log data config row row (out_columns config))
    as [row'|] eqn:E; [|now apply outlierColumns_total in E].
  exists row'. split; auto. intros col Hc.
  destruct (outlierColumns_keeps Math_log data config row (out_columns config)
              col Ha Hc row) as [r [E' G]].
  congruence.
Qed.

Lemma outlier_treatment_keeps_other_cells_witness :
  List.length
    (handleOutliers (fun x => x) iqrExample
       {| out_method := Iqr; out_threshold := TNumber 1.5; out_action := Cap;
          out_columns := ["x"%string] |})
  = List.length iqrExample.
Proof.
  apply (outlier_treatment_keeps_other_cells (fun x => x) iqrExample
           {| out_method := Iqr; out_threshold := TNumber 1.5; out_action := Cap;
              out_columns := ["x"%string] |}).
  simpl. discriminate.
Defined.

(** ** Outliers: a method without a branch *)

Lemma outlierColumns_isolationForest Math_log data threshold action columns row cols :
  forall newRow,
  outlierColumns Math_log data
    {| out_method := IsolationForest; out_threshold := threshold;
       out_action := action; out_columns := columns |} row newRow cols
  = Some newRow.
Proof.
  induction cols as [|col cols IH]; intros newRow;
    cbn [outlierColumns out_method out_threshold]; auto.
  destruct (isNaN _); auto. cbn [detect isOutlier]. auto.
Qed.

(** The method [isolation-forest], which the configuration form offers and
    the configuration type declares, detects nothing: whatever the action,
    the threshold and the columns, the outlier stage returns its input. *)
Theorem isolation_forest_changes_nothing Math_log data threshold action columns :
  handleOutliers Math_log data
    {| out_method := IsolationForest; out_threshold := threshold;
       out_action := action; out_columns := columns |}
  = data.
Proof.
  unfold handleOutliers. cbn [out_columns].
  rewrite (map_ext _ Some) by (intros; apply outlierColumns_isolationForest).
  apply filterNotNull_map_Some.
Qed.

(** ** Winsorization: capped cells lie within the bounds *)

Lemma sameBound_refl threshold data col :
  sameBound (fst (boundsOf threshold data col)) (fst (boundsOf threshold data col))
  /\ sameBound (snd (boundsOf threshold data col)) (snd (boundsOf threshold data col)).
Proof.
  destruct (boundsOf_numbers threshold data col) as [Hl Hu].
  unfold sameBound.
  destruct (fst (boundsOf threshold data col));
    destruct (snd (boundsOf threshold data col)); auto.
Qed.

(** Under [winsorization] with action [cap], when the lower bound of a
    selected column does not exceed its upper bound, no cell of that column
    in the output parses to a number below the lower bound or above the
    upper bound that were computed from the input. *)
Theorem winsorization_cap_within_bounds Math_log data threshold columns col row' :
  In col columns ->
  ordered (boundsOf threshold data col) ->
  In row' (handleOutliers Math_log data
             {| out_method := Winsorization; out_threshold := threshold;
                out_action := Cap; out_columns := columns |}) ->
  lt_bound (parseFloat (get row' col)) (fst (boundsOf threshold data col)) = false
  /\ gt_bound (parseFloat (get row' col)) (snd (boundsOf threshold data col)) = false.
Proof.
  intros Hin Hord Hrow. rewrite handleOutliers_cap in Hrow.
  apply in_map_iff in Hrow. destruct Hrow as [row [<- _]].
  rewrite capColumns_get by auto. rewrite parseFloat_capCell.
  destruct (isNaN (parseFloat (get row col))) eqn:En.
  - rewrite capNumber_NaN by auto.
    split; [now apply lt_bound_NaN | now apply gt_bound_NaN].
  - destruct (sameBound_refl threshold data col) as [Bl Bu].
    apply (within_bounds (fst (boundsOf threshold data col))
             (snd (boundsOf threshold data col)) _ _ _
             (ord (parseFloat (get row col)))); auto.
    + now apply capNumber_number.
    + now apply capNumber_ord.
    + now apply lo_le_hi.
Qed.

Lemma winsorization_cap_within_bounds_witness :
  lt_bound (parseFloat (get (xCell (VNum 2)) "x"))
    (fst (boundsOf (TPercentiles 0.05 0.95) winsorizationExample "x")) = false
  /\ gt_bound (parseFloat (get (xCell (VNum 2)) "x"))
       (snd (boundsOf (TPercentiles 0.05 0.95) winsorizationExample "x")) = false.
Proof.
  apply (winsorization_cap_within_bounds (fun x => x) winsorizationExample
           (TPercentiles 0.05 0.95) ["x"%string] "x" (xCell (VNum 2))).
  - simpl. auto.
  - vm_compute. reflexivity.
  - vm_compute. auto 20.
Defined.


(** ** Validation rules *)

Lemma filterM_filter {A : Type} (f : A -> res bool) (p : A -> bool) (l : list A) :
  (forall a, In a l -> f a = Ok (p a)) -> filterM f l = Ok (filter p l).
Proof.
  induction l as [|a l IH]; simpl; intros H; auto.
  rewrite (H a) by auto. simpl. rewrite IH by auto. simpl.
  now destruct (p a).
Qed.

Lemma filterM_Ok_length {A : Type} (f : A -> res bool) (l : list A) : forall out,
  filterM f l = Ok out -> (List.length out <= List.length l)%nat.
Proof.
  induction l as [|a l IH]; simpl; intros out H.
  - injection H as <-. auto.
  - destruct (f a) as [keep|]; simpl in H; try discriminate.
    destruct (filterM f l) as [rest|]; simpl in H; try discriminate.
    injection H as <-. specialize (IH rest eq_refl).
    destruct keep; simpl; lia.
Qed.

(** Rules whose action is [flag] or [transform] drop no row: when no rule has
    the action [remove] and the value of every [range] rule can be
    destructured, the validation stage returns its input. *)
Theorem rules_without_remove_keep_all_rows data rules :
  (forall rule, In rule rules ->
     rule_action rule <> RuleRemove
     /\ (rule_condition rule = Range ->
         destructurePair (rule_value rule) <> TypeError)) ->
  applyRules data rules = Ok data.
Proof.
  intros H. unfold applyRules. apply filterM_all_kept. intros row _.
  induction rules as [|rule rules IH]; simpl; auto.
  destruct (H rule (or_introl eq_refl)) as [Ha Hr].
  assert (Hv : exists b, violatesRule rule row = Ok b).
  { unfold violatesRule. destruct (rule_condition rule); eauto.
    destruct (destructurePair (rule_value rule)) as [[mn mx]|] eqn:E;
      [simpl; eauto | now elim Hr]. }
  destruct Hv as [b ->]. simpl.
  assert (E : isRuleRemove (rule_action rule) = false)
    by (destruct (rule_action rule); auto; congruence).
  rewrite E, andb_false_r. apply IH. intros r Hr'. apply H. now right.
Qed.

Definition flagExample : list Rule :=
  [ {| rule_column := "x"; rule_condition := GreaterThan;
       rule_value := RScalar (VNum 100); rule_action := Flag |} ].

Lemma rules_without_remove_keep_all_rows_witness :
  applyRules iqrExample flagExample = Ok iqrExample.
Proof.
  apply (rules_without_remove_keep_all_rows iqrExample flagExample).
  intros rule [<-|[]]. split; discriminate.
Defined.

(** A [greater-than] rule with action [remove] returns exactly the rows whose
    cell is not at most the threshold, both read with [parseFloat]; a row
    whose cell does not parse to a number is therefore kept. *)
Theorem greater_than_rule_removes data col target :
  applyRules data
    [ {| rule_column := col; rule_condition := GreaterThan;
         rule_value := target; rule_action := RuleRemove |} ]
  = Ok (filter (fun row =>
                  negb (PrimFloat.leb (parseFloat (get row col))
                                      (RuleValue_parseFloat target)))
               data)
  /\ forall row,
       isNaN (parseFloat (get row col)) = true ->
       PrimFloat.leb (parseFloat (get row col)) (RuleValue_parseFloat target) = false.
Proof.
  split.
  - unfold applyRules. apply filterM_filter. intros row _. simpl.
    unfold violatesRule. simpl.
    now destruct (PrimFloat.leb _ _).
  - intros row Hn. rewrite leb_spec.
    assert (E : Prim2SF (parseFloat (get row col)) = S754_nan).
    { destruct (Prim2SF (parseFloat (get row col))) eqn:E; auto;
        rewrite Prim2SF_isNaN in Hn by (rewrite E; discriminate); discriminate. }
    rewrite E. reflexivity.
Qed.

(** An [equals] rule compares with [!==], without conversion: when the target
    is a text, as the form supplies it, every row whose cell is a number
    violates the rule, so with the action [remove] no such row is kept. *)
Theorem equals_rule_with_text_target_removes_numbers data col target :
  (forall row, In row data -> exists x, get row col = VNum x) ->
  applyRules data
    [ {| rule_column := col; rule_condition := Equals;
         rule_value := RScalar (VStr target); rule_action := RuleRemove |} ]
  = Ok [].
Proof.
  intros H. unfold applyRules.
  rewrite (filterM_filter _ (fun _ => false)).
  - f_equal. clear H. induction data; simpl; auto.
  - intros row Hin. destruct (H row Hin) as [x Hx].
    simpl. unfold violatesRule. simpl. rewrite Hx. reflexivity.
Qed.

Lemma equals_rule_with_text_target_removes_numbers_witness :
  applyRules iqrExample
    [ {| rule_column := "x"; rule_condition := Equals;
         rule_value := RScalar (VStr "3"); rule_action := RuleRemove |} ]
  = Ok [].
Proof.
  apply (equals_rule_with_text_target_removes_numbers iqrExample "x" "3").
  intros row Hin. unfold iqrExample, numbersExample in Hin.
  apply in_map_iff in Hin. destruct Hin as [v [<- _]]. exists v. reflexivity.
Defined.

(** Scalars that cannot be destructured into a pair. *)
Definition notIterable (v : Value) : bool :=
  match v with
  | VStr _ => false
  | _ => true
  end.

(** A [range] rule whose value is a number, a boolean, [null] or [undefined]
    makes the validation stage throw as soon as there is a row, whatever the
    action of the rule and the rules after it. *)
Theorem range_rule_with_scalar_throws row data col v action rules :
  notIterable v = true ->
  applyRules (row :: data)
    ({| rule_column := col; rule_condition := Range;
        rule_value := RScalar v; rule_action := action |} :: rules)
  = TypeError.
Proof.
  intros H. unfold applyRules. simpl. unfold violatesRule. simpl.
  destruct v; try discriminate; reflexivity.
Qed.

Lemma range_rule_with_scalar_throws_witness :
  applyRules iqrExample
    [ {| rule_column := "x"; rule_condition := Range;
         rule_value := RScalar (VNum 5); rule_action := Flag |} ]
  = TypeError.
Proof.
  exact (range_rule_with_scalar_throws (xCell (VNum 1))
           (numbersExample [2; 3; 4; 8]%float) "x" (VNum 5) Flag [] eq_refl).
Defined.

(** ** The pipeline never adds rows *)

Lemma length_filterNotNull (rows : list (option Row)) :
  (List.length (filterNotNull rows) <= List.length rows)%nat.
Proof.
  induction rows as [|[row|] rows IH]; simpl; lia.
Qed.

(** [cleanData] returns at most as many rows as it is given, and exactly as
    many when no outlier section and no rule is configured. *)
Theorem cleanData_never_adds_rows Math_log data config out :
  cleanData Math_log data config = Ok out ->
  (List.length out <= List.length data)%nat
  /\ (outliers config = None -> rules config = [] ->
      List.length out = List.length data).
Proof.
  unfold cleanData. intros H.
  destruct (match imputation config with
            | Some c => handleMissingValues data c
            | None => Ok data
            end) as [imputed|] eqn:Ei; simpl in H; try discriminate.
  assert (Hi : List.length imputed = List.length data).
  { destruct (imputation config) as [c|].
    - apply handleMissingValues_rows in Ei. now apply mapM_Ok_length in Ei.
    - now injection Ei as <-. }
  split.
  - set (treated := match outliers config with
                    | Some c => handleOutliers Math_log imputed c
                    | None => imputed
                    end) in *.
    assert (Ht : (List.length treated <= List.length imputed)%nat).
    { unfold treated. destruct (outliers config) as [c|]; auto.
      unfold handleOutliers.
      etransitivity; [apply length_filterNotNull|]. now rewrite length_map. }
    destruct (rules config) as [|rule rules'].
    + injection H as <-. lia.
    + apply filterM_Ok_length in H. lia.
  - intros Eo Er. rewrite Eo, Er in H. injection H as <-. exact Hi.
Qed.

Lemma cleanData_never_adds_rows_witness :
  (List.length [xCell (VNum 1); xCell (VNum 2); xCell (VNum 3); xCell (VNum 2.75);
                xCell (VNum 5)]
   <= List.length meanExample)%nat.
Proof.
  apply (cleanData_never_adds_rows (fun x => x) meanExample
           {| imputation := Some {| imp_method := Mean; imp_columns := ["x"%string] |};
              outliers := None; rules := [] |}).
  vm_compute. reflexivity.
Defined.


(** ** Estimates: one result per target column with an observation *)

Lemma map_value_observations data column weightColumn :
  map value (observations data column weightColumn) = columnNumbers data column.
Proof.
  unfold observations, columnNumbers.
  induction data as [|row data IH]; simpl; auto.
  destruct (isNaN (parseFloat (get row column))); simpl; congruence.
Qed.

Lemma columnNumbers_nonempty data column :
  columnNumbers data column <> []
  <-> existsb (fun row => negb (isNaN (parseFloat (get row column)))) data = true.
Proof.
  unfold columnNumbers. induction data as [|row data IH]; simpl.
  - split; [congruence|discriminate].
  - destruct (isNaN (parseFloat (get row column))); simpl; auto.
    split; auto. discriminate.
Qed.

(** [calculateEstimates] returns one result for each target column in which
    some cell parses to a number, in the order of the target columns (a
    column named twice is estimated twice), and none for the other columns;
    the sample size of a result is the number of cells of its column that
    parse to a number, which is at least one. *)
Theorem estimates_cover_columns_with_observations data targetColumns weightColumn
    confidenceLevel :
  map variable (calculateEstimates data targetColumns weightColumn confidenceLevel)
  = filter (fun column =>
              existsb (fun row => negb (isNaN (parseFloat (get row column)))) data)
           targetColumns
  /\ forall result,
       In result (calculateEstimates data targetColumns weightColumn confidenceLevel) ->
       sampleSize result = List.length (columnNumbers data (variable result))
       /\ (0 < sampleSize result)%nat.
Proof.
  unfold calculateEstimates.
  set (t := getTCriticalValue _ _). clearbody t.
  assert (Hcol : forall column,
             (columnNumbers data column = []
              /\ estimateColumn data weightColumn t column = [])
             \/ (columnNumbers data column <> []
                 /\ exists result,
                      estimateColumn data weightColumn t column = [result]
                      /\ variable result = column
                      /\ sampleSize result = List.length (columnNumbers data column))).
  { intros column. unfold estimateColumn.
    pose proof (map_value_observations data column weightColumn) as E.
    destruct (observations data column weightColumn) as [|item items].
    - left. simpl in E. auto.
    - right. rewrite <- E. split; [discriminate|].
      eexists. split; [reflexivity|]. simpl. split; auto.
      now rewrite length_map. }
  split.
  - induction targetColumns as [|column columns IH]; simpl; auto.
    rewrite map_app, IH.
    destruct (Hcol column) as [[En Ee]|[En [result [Ee [Ev _]]]]]; rewrite Ee.
    + destruct (existsb _ data) eqn:Ex; auto.
      apply columnNumbers_nonempty in Ex. contradiction.
    + apply columnNumbers_nonempty in En. rewrite En. simpl. now rewrite Ev.
  - intros result Hin. apply in_flat_map in Hin. destruct Hin as [column [_ Hin]].
    destruct (Hcol column) as [[En Ee]|[En [r [Ee [Ev Es]]]]]; rewrite Ee in Hin.
    + contradiction.
    + destruct Hin as [<-|[]]. rewrite Ev, Es. split; auto.
      destruct (columnNumbers data column); [congruence|simpl; lia].
Qed.

(** ** The mode is a most frequent value *)

Definition occurrences (keys : list string) (k : string) : nat :=
  count_occ string_dec keys k.

Lemma obj_get_countStep o k0 k :
  obj_get (countStep o k0) k
  = if String.eqb k k0
    then Some (match obj_get o k0 with Some n => S n | None => 1%nat end)
    else obj_get o k.
Proof.
  unfold countStep. destruct (String.eqb k k0) eqn:E.
  - apply String.eqb_eq in E. subst k0.
    destruct (obj_get o k); apply obj_get_set_same.
  - apply String.eqb_neq in E.
    destruct (obj_get o k0); now apply obj_get_set_other.
Qed.

Lemma obj_get_fold_countStep keys : forall o k,
  obj_get (fold_left countStep keys o) k
  = match obj_get o k, occurrences keys k with
    | None, O => None
    | None, S n => Some (S n)
    | Some m, n => Some (m + n)%nat
    end.
Proof.
  unfold occurrences.
  induction keys as [|k0 keys IH]; intros o k; simpl.
  - destruct (obj_get o k); auto.
  - rewrite IH, obj_get_countStep.
    destruct (string_dec k0 k) as [->|Hne].
    + rewrite String.eqb_refl.
      destruct (obj_get o k); f_equal; lia.
    + assert (E : String.eqb k k0 = false) by (apply String.eqb_neq; congruence).
      rewrite E. reflexivity.
Qed.

(** [countBy] counts: the entry of a key is the number of its occurrences. *)
Lemma obj_get_countBy keys k :
  obj_get (countBy keys) k
  = match occurrences keys k with O => None | S n => Some (S n) end.
Proof.
  exact (obj_get_fold_countStep keys [] k).
Qed.

Lemma fold_left_maximum (count : string -> nat) (l : list string) : forall a,
  let r := fold_left (fun a b => if (count b <? count a)%nat then a else b) l a in
  (count a <= count r)%nat /\ forall x, In x l -> (count x <= count r)%nat.
Proof.
  induction l as [|b l IH]; intros a; simpl.
  - split; auto. contradiction.
  - destruct (IH (if (count b <? count a)%nat then a else b)) as [H1 H2].
    destruct (Nat.ltb_spec (count b) (count a)); split; try lia;
      intros x [<-|Hx]; auto; lia.
Qed.

(** The key that the reducer returns is a key of the frequency map, and no
    key occurs more often. *)
Lemma mostFrequentKey_most_frequent (values : list Value) (key : string) :
  mostFrequentKey values = Ok key ->
  let keys := map ToString values in
  In key (obj_keys (countBy keys))
  /\ In key keys
  /\ forall k, (occurrences keys k <= occurrences keys key)%nat.
Proof.
  intros H keys. unfold mostFrequentKey in H.
  fold keys in H.
  set (frequency := countBy keys) in *.
  destruct (reduce1 _ (obj_keys frequency)) as [r|] eqn:Er; simpl in H;
    try discriminate.
  injection H as ->.
  set (count := occurrences keys).
  assert (Hgt : forall a b, In a (obj_keys frequency) -> In b (obj_keys frequency) ->
                  frequency_gt frequency a b = (count b <? count a)%nat).
  { intros a b Ha Hb. unfold frequency_gt, frequency. rewrite !obj_get_countBy.
    apply in_keys_countBy in Ha. apply in_keys_countBy in Hb.
    apply (count_occ_In string_dec) in Ha. apply (count_occ_In string_dec) in Hb.
    fold (occurrences keys a) in *. fold (occurrences keys b) in *. unfold count.
    destruct (occurrences keys a); [lia|]. destruct (occurrences keys b); [lia|].
    reflexivity. }
  destruct (obj_keys frequency) as [|a l] eqn:Ek; simpl in Er; [discriminate|].
  injection Er as Er.
  assert (Er' : fold_left (fun a b => if (count b <? count a)%nat then a else b) l a
                = key /\ In key (a :: l)).
  { clear - Er Hgt. revert a Er Hgt. induction l as [|b l IH]; intros a Er Hgt.
    - simpl in *. auto.
    - simpl in *. rewrite Hgt in Er by auto.
      destruct (IH _ Er) as [E Hin].
      + intros x y Hx Hy. apply Hgt.
        * destruct Hx as [<-|Hx]; auto. destruct (_ <? _)%nat; auto.
        * destruct Hy as [<-|Hy]; auto. destruct (_ <? _)%nat; auto.
      + split; auto.
        destruct Hin as [<-|Hin]; auto. destruct (_ <? _)%nat; auto. }
  destruct Er' as [Emax Hin].
  assert (Hkey : In key keys).
  { apply in_keys_countBy. fold frequency. now rewrite Ek. }
  split; [exact Hin|]. split; auto. intros k.
  destruct (fold_left_maximum count l a) as [Ha Hl]. rewrite Emax in Ha, Hl.
  destruct (in_dec string_dec k (a :: l)) as [[<-|Hk]|Hn]; auto.
  assert (E : occurrences keys k = 0%nat).
  { destruct (occurrences keys k) eqn:E; auto. exfalso. apply Hn.
    rewrite <- Ek. apply obj_get_in_keys. unfold frequency.
    rewrite obj_get_countBy, E. discriminate. }
  unfold count in *. lia.
Qed.

(** When [calculateColumnMode] returns, its result is the text of a key that
    occurs at least as often as every other key among the strings of the
    cells of the column that are neither [null] nor [undefined]. *)
Theorem mode_is_most_frequent data col key :
  calculateColumnMode data col = Ok (VStr key) ->
  let keys :=
    map ToString
        (filter (fun v => negb (strict_eq v VNull) && negb (strict_eq v VUndefined))
                (map (fun row => get row col) data)) in
  In key keys /\ forall k, (occurrences keys k <= occurrences keys key)%nat.
Proof.
  intros H keys. unfold calculateColumnMode in H.
  destruct (mostFrequentKey _) as [r|] eqn:Er; simpl in H; try discriminate.
  injection H as ->.
  apply mostFrequentKey_most_frequent in Er. tauto.
Qed.

Lemma mode_is_most_frequent_witness :
  let keys :=
    map ToString
        (filter (fun v => negb (strict_eq v VNull) && negb (strict_eq v VUndefined))
                (map (fun row => get row "x") modeExample)) in
  In "1"%string keys /\ forall k, (occurrences keys k <= occurrences keys "1")%nat.
Proof.
  apply (mode_is_most_frequent modeExample "x" "1").
  vm_compute. reflexivity.
Defined.


(** ** Distances *)

Lemma SFabs_binary_round (m : positive) (e : Z) :
  SFabs (binary_round prec emax true m e) = SFabs (binary_round prec emax false m e).
Proof.
  unfold binary_round, binary_round_aux.
  destruct (shl_align m e _) as [mz ez].
  destruct (shr_fexp prec emax (Zpos mz) ez loc_Exact) as [mrs e1].
  destruct (shr_fexp prec emax _ e1 loc_Exact) as [mrs2 e2].
  destruct (shr_m mrs2); auto.
  destruct (e2 <=? emax - prec)%Z; auto.
Qed.

(** [|a - b|] and [|b - a|] are the same number. *)
Lemma SFabs_SFsub_swap (a b : spec_float) :
  SFabs (SFsub prec emax a b) = SFabs (SFsub prec emax b a).
Proof.
  destruct a as [sa|sa| |sa ma ea]; destruct b as [sb|sb| |sb mb eb];
    try reflexivity;
    try (destruct sa; destruct sb; reflexivity);
    try (destruct sa; reflexivity); try (destruct sb; reflexivity).
  simpl SFsub. rewrite (Z.min_comm eb ea).
  set (ez := Z.min ea eb).
  set (A := Zpos (fst (shl_align ma ea ez))).
  set (B := Zpos (fst (shl_align mb eb ez))).
  assert (E : (cond_Zopp sb B - cond_Zopp sa A = - (cond_Zopp sa A - cond_Zopp sb B))%Z)
    by lia.
  rewrite E.
  destruct (cond_Zopp sa A - cond_Zopp sb B)%Z as [|d|d]; simpl Z.opp;
    unfold binary_normalize; auto using SFabs_binary_round.
Qed.

Lemma abs_sub_swap (a b : float) :
  Math_abs (a - b)%float = Math_abs (b - a)%float.
Proof.
  unfold Math_abs. apply Prim2SF_inj.
  rewrite !abs_spec, !sub_spec. apply SFabs_SFsub_swap.
Qed.

Lemma fold_left_ext_in {A B : Type} (f g : B -> A -> B) (l : list A) :
  (forall b a, f b a = g b a) -> forall b, fold_left f l b = fold_left g l b.
Proof.
  intros H. induction l as [|a l IH]; intros b; simpl; auto.
  now rewrite H, IH.
Qed.

(** The distance between two rows does not depend on their order. *)
Theorem distance_is_symmetric row1 row2 columns metric :
  calculateDistance row1 row2 columns metric
  = calculateDistance row2 row1 columns metric.
Proof.
  unfold calculateDistance.
  rewrite (fold_left_ext_in _
             (fun '(distance, validDimensions) col =>
                let val1 := parseFloat (get row2 col) in
                let val2 := parseFloat (get row1 col) in
                if negb (isNaN val1) && negb (isNaN val2) then
                  let diff := Math_abs (val1 - val2)%float in
                  match metric with
                  | Euclidean => ((distance + diff * diff)%float, S validDimensions)
                  | Manhattan => ((distance + diff)%float, S validDimensions)
                  end
                else (distance, validDimensions))); auto.
  intros [distance validDimensions] col. cbv zeta.
  rewrite andb_comm, abs_sub_swap. reflexivity.
Qed.

(** When on no column both rows hold a number the distance is [Infinity],
    whatever the metric: such a row ranks after every comparable one. *)
Theorem distance_without_common_number_is_Infinity row1 row2 columns metric :
  (forall col, In col columns ->
     isNaN (parseFloat (get row1 col)) || isNaN (parseFloat (get row2 col)) = true) ->
  calculateDistance row1 row2 columns metric = Infinity.
Proof.
  intros H. unfold calculateDistance.
  assert (E : forall acc,
             fold_left
               (fun '(distance, validDimensions) col =>
                  let val1 := parseFloat (get row1 col) in
                  let val2 := parseFloat (get row2 col) in
                  if negb (isNaN val1) && negb (isNaN val2) then
                    let diff := Math_abs (val1 - val2)%float in
                    match metric with
                    | Euclidean => ((distance + diff * diff)%float, S validDimensions)
                    | Manhattan => ((distance + diff)%float, S validDimensions)
                    end
                  else (distance, validDimensions))
               columns acc = acc).
  { induction columns as [|col columns IH]; intros [distance validDimensions];
      simpl; auto.
    assert (Hc := H col (or_introl eq_refl)).
    rewrite <- negb_orb, Hc. simpl. apply IH. intros c Hin. apply H. now right. }
  rewrite E. reflexivity.
Qed.

Lemma distance_without_common_number_is_Infinity_witness :
  calculateDistance (obj_set [] "a" (VNum 1)) (obj_set [] "a" (VStr "n/a"))
    ["a"%string; "b"%string] Euclidean = Infinity.
Proof.
  apply distance_without_common_number_is_Infinity.
  intros col [<-|[<-|[]]]; vm_compute; reflexivity.
Defined.


(** ** Descriptive statistics *)

Lemma ascending_last (l : list float) (x : float) :
  ascending l -> nth_error l (List.length l - 1) = Some x ->
  forall y, In y l -> (ord y <= ord x)%Z.
Proof.
  induction l as [|a l IH]; intros Ha Hx y Hy; [destruct Hy|].
  destruct Ha as [Hall Ha]. rewrite Forall_forall in Hall.
  simpl in Hx. rewrite Nat.sub_0_r in Hx.
  destruct l as [|b l'].
  - simpl in Hx. injection Hx as <-. destruct Hy as [<-|[]]. lia.
  - assert (Hx' : nth_error (b :: l') (List.length (b :: l') - 1) = Some x).
    { cbn [List.length]. rewrite Nat.sub_succ, Nat.sub_0_r. exact Hx. }
    destruct Hy as [<-|Hy]; auto.
    apply Hall. eapply nth_error_In; eauto.
Qed.

Lemma describeColumn_count data column :
  stat_count (describeColumn data column) = List.length (columnNumbers data column).
Proof.
  unfold describeColumn.
  destruct (columnNumbers data column) as [|v values] eqn:E; auto.
  cbn [stat_count]. apply length_sort.
Qed.

(** The minimum and the maximum reported for a column are numbers of that
    column, and no number of the column is below the minimum or above the
    maximum. *)
Theorem descriptive_min_max_bound_values data column row :
  In row data ->
  isNaN (parseFloat (get row column)) = false ->
  let stats := describeColumn data column in
  In (stat_min stats) (columnNumbers data column)
  /\ In (stat_max stats) (columnNumbers data column)
  /\ PrimFloat.ltb (parseFloat (get row column)) (stat_min stats) = false
  /\ PrimFloat.ltb (stat_max stats) (parseFloat (get row column)) = false.
Proof.
  intros Hrow Hv stats.
  assert (Hin : In (parseFloat (get row column)) (columnNumbers data column)).
  { unfold columnNumbers. apply filter_In. split.
    - apply in_map_iff. eauto.
    - now rewrite Hv. }
  set (v := parseFloat (get row column)) in *.
  pose proof (numbers_columnNumbers data column) as Hnum.
  pose proof (ascending_sort _ Hnum) as Hasc.
  pose proof (numbers_sort _ Hnum) as Hsorted.
  assert (Hs : In v (sort numeric_order (columnNumbers data column)))
    by now apply in_sort.
  unfold stats, describeColumn.
  destruct (columnNumbers data column) as [|v0 values] eqn:E; [destruct Hin|].
  rewrite <- E in *. cbn [stat_min stat_max].
  set (sorted := sort numeric_order (columnNumbers data column)) in *.
  assert (Hlen : List.length sorted <> 0%nat).
  { unfold sorted. rewrite length_sort, E. discriminate. }
  destruct (nth_error sorted 0) as [lo|] eqn:Elo;
    [|apply nth_error_None in Elo; lia].
  destruct (nth_error sorted (List.length sorted - 1)) as [hi|] eqn:Ehi;
    [|apply nth_error_None in Ehi; lia].
  cbn [num_or_undefined].
  assert (Hlo : In lo sorted) by (eapply nth_error_In; eauto).
  assert (Hhi : In hi sorted) by (eapply nth_error_In; eauto).
  unfold numbers in Hsorted. rewrite Forall_forall in Hsorted.
  split; [now apply (in_sort numeric_order)|].
  split; [now apply (in_sort numeric_order)|].
  rewrite !ltb_ord by auto.
  split; apply Z.ltb_ge.
  - destruct sorted as [|s0 sorted']; [discriminate|].
    simpl in Elo. injection Elo as ->. destruct Hasc as [Hall _].
    rewrite Forall_forall in Hall. destruct Hs as [<-|Hs]; [lia|auto].
  - eapply ascending_last; eauto.
Qed.

Lemma descriptive_min_max_bound_values_witness :
  let data := [xCell (VNum 3); xCell (VStr "1.5"); xCell (VStr ""); xCell (VNum 2)] in
  PrimFloat.ltb 2 (stat_min (describeColumn data "x")) = false.
Proof.
  intros data.
  destruct (descriptive_min_max_bound_values data "x" (xCell (VNum 2)))
    as (_ & _ & H & _).
  - simpl. auto.
  - vm_compute. reflexivity.
  - exact H.
Defined.

(** Both analyses count the same cells: the sample size of an estimate is the
    count that the descriptive statistics give for its column. *)
Theorem descriptive_count_is_sample_size data targetColumns weightColumn
    confidenceLevel result :
  In result (calculateEstimates data targetColumns weightColumn confidenceLevel) ->
  exists stats,
    In stats (calculateDescriptiveStatistics data targetColumns)
    /\ stat_column stats = variable result
    /\ stat_count stats = sampleSize result.
Proof.
  unfold calculateEstimates, calculateDescriptiveStatistics.
  set (t := getTCriticalValue _ _). clearbody t.
  intros H. apply in_flat_map in H. destruct H as [column [Hc Hr]].
  exists (describeColumn data column). split; [now apply in_map|].
  unfold estimateColumn in Hr.
  pose proof (map_value_observations data column weightColumn) as E.
  destruct (observations data column weightColumn) as [|item items] eqn:Eo;
    [destruct Hr|].
  destruct Hr as [<-|[]]. cbn [variable sampleSize].
  rewrite describeColumn_count, <- E, length_map. split; auto.
  unfold describeColumn. now destruct (columnNumbers data column).
Qed.

Lemma descriptive_count_is_sample_size_witness :
  exists stats,
    In stats (calculateDescriptiveStatistics meanExample ["x"%string])
    /\ stat_column stats = "x"%string
    /\ stat_count stats = 4%nat.
Proof.
  destruct (calculateEstimates meanExample ["x"%string] None 0.95)
    as [|result rest] eqn:E; [vm_compute in E; discriminate|].
  destruct (descriptive_count_is_sample_size meanExample ["x"%string] None 0.95 result)
    as (stats & H1 & H2 & H3).
  - rewrite E. now left.
  - vm_compute in E. injection E as <- <-. exists stats. auto.
Defined.


(** ** Claim 10: what mode and nearest-neighbour imputation insert *)

(** *** Sorting by distance *)






(** *** The nearest neighbours *)

Section Neighbours.

Variables (data : list Row) (targetRow : Row) (col : string) (options : KNNOptions).

(** The rows with a value in the target column, and the distance of a row
    from the target row. *)
Definition completeRows : list Row :=
  filter (fun row => negb (isMissing (get row col))) data.



End Neighbours.









(** ** Rounding next to a number

    The result of rounding lies on the same side of every number as the
    exact value that is rounded. *)

Section Rounding.

Local Open Scope Z_scope.

Lemma iter_pos_nat {A : Type} (f : A -> A) (p : positive) : forall x,
  iter_pos f p x = Nat.iter (Pos.to_nat p) f x.
Proof.
  induction p as [p IH|p IH|]; intros x; simpl iter_pos.
  - rewrite !IH, <- Nat.iter_succ_r, <- Nat.iter_add.
    f_equal. rewrite Pos2Nat.inj_xI. lia.
  - rewrite !IH, <- Nat.iter_add. f_equal. rewrite Pos2Nat.inj_xO. lia.
  - reflexivity.
Qed.

(** The record after [k] shifts of [m0]: the quotient, and no bit set when
    nothing was shifted out. *)
Definition shifted (m0 : Z) (k : nat) (r : shr_record) : Prop :=
  shr_m r = m0 / 2 ^ Z.of_nat k
  /\ (m0 mod 2 ^ Z.of_nat k = 0 -> shr_r r = false /\ shr_s r = false).

Lemma pow2_pos (k : Z) : 0 <= k -> 0 < 2 ^ k.
Proof. intros. apply Z.pow_pos_nonneg; lia. Qed.

Lemma shifted_step (m0 : Z) (k : nat) (r : shr_record) :
  0 <= m0 -> shifted m0 k r -> shifted m0 (S k) (shr_1 r).
Proof.
  intros H0 [Hm He].
  pose proof (pow2_pos (Z.of_nat k) (Nat2Z.is_nonneg k)) as Hp.
  assert (Hq : 0 <= shr_m r) by (rewrite Hm; apply Z.div_pos; lia).
  assert (E : 2 ^ Z.of_nat (S k) = 2 ^ Z.of_nat k * 2).
  { rewrite Nat2Z.inj_succ, Z.pow_succ_r by lia. lia. }
  split.
  - rewrite shr_m_shr_1 by auto. rewrite Hm, Z.div_div by lia. now rewrite E.
  - intros Hz. rewrite E in Hz.
    assert (Hk : m0 mod 2 ^ Z.of_nat k = 0).
    { apply Z.mod_divide in Hz; [|lia]. apply Z.mod_divide; [lia|].
      destruct Hz as [c Hc]. exists (c * 2). lia. }
    destruct (He Hk) as [Hr Hs].
    assert (Heven : shr_m r mod 2 = 0).
    { rewrite Hm. apply Z.mod_divide in Hz; [|lia]. destruct Hz as [c Hc].
      rewrite Hc. replace (c * (2 ^ Z.of_nat k * 2)) with (c * 2 * 2 ^ Z.of_nat k) by lia.
      rewrite Z.div_mul by lia. apply Z.mod_mul. lia. }
    destruct r as [m r s]. simpl in *. subst r s.
    destruct m as [|[p|p|]|p]; simpl; auto; try lia.
    + rewrite Pos2Z.inj_xI in Heven.
      replace (2 * Zpos p + 1) with (1 + Zpos p * 2) in Heven by lia.
      rewrite Z.mod_add in Heven by lia. discriminate.
    + discriminate.
Qed.

Lemma shifted_iter (m0 : Z) (k : nat) :
  0 <= m0 ->
  shifted m0 k (Nat.iter k shr_1 {| shr_m := m0; shr_r := false; shr_s := false |}).
Proof.
  intros H0. induction k as [|k IH].
  - simpl. unfold shifted. simpl. rewrite Z.div_1_r. auto.
  - simpl Nat.iter. now apply shifted_step.
Qed.

(** A shift by [n] places of an exact mantissa. *)
Lemma shr_exact (m0 e n : Z) :
  0 <= m0 -> 0 <= n ->
  let '(mrs, e') := shr (shr_record_of_loc m0 loc_Exact) e n in
  e' = e + n
  /\ shr_m mrs = m0 / 2 ^ n
  /\ (m0 mod 2 ^ n = 0 -> loc_of_shr_record mrs = loc_Exact).
Proof.
  intros H0 Hn. unfold shr. destruct n as [|p|p]; try lia.
  - simpl. rewrite Z.div_1_r. split; [lia|]. auto.
  - rewrite iter_pos_nat.
    destruct (shifted_iter m0 (Pos.to_nat p) H0) as [Hm He].
    rewrite positive_nat_Z in Hm, He. simpl shr_record_of_loc.
    split; [reflexivity|]. split; [exact Hm|].
    intros Hz. destruct (He Hz) as [Hr Hs].
    destruct (Nat.iter _ _ _) as [m r s]. simpl in *. now subst.
Qed.

(** What rounding returns for the mantissa [m1] at the exponent [e1]. *)
Definition rounded (s : bool) (m1 e1 : Z) : spec_float :=
  match m1 with
  | Z0 => S754_zero s
  | Zpos p =>
      if m1 <? 2 ^ 53
      then (if e1 <=? 971 then S754_finite s p e1 else S754_infinity s)
      else (if e1 + 1 <=? 971 then S754_finite s 4503599627370496 (e1 + 1)
            else S754_infinity s)
  | Zneg _ => S754_nan
  end.

Lemma digits2_pos_le (p : positive) (k : Z) :
  Zpos p < 2 ^ k -> Zpos (digits2_pos p) <= k.
Proof.
  intros H. pose proof (digits2_pos_bounds p) as [Hlo _].
  destruct (Z_le_gt_dec (Zpos (digits2_pos p)) k) as [|Hgt]; auto.
  exfalso.
  assert (2 ^ k <= 2 ^ (Zpos (digits2_pos p) - 1)).
  { destruct (Z_lt_le_dec k 0).
    - rewrite (Z.pow_neg_r 2 k) by lia. apply Z.pow_nonneg. lia.
    - apply Z.pow_le_mono_r; lia. }
  lia.
Qed.

Lemma digits2_pos_ge (p : positive) (k : Z) :
  2 ^ k <= Zpos p -> k < Zpos (digits2_pos p).
Proof.
  intros H. pose proof (digits2_pos_bounds p) as [_ Hhi].
  destruct (Z_lt_le_dec k (Zpos (digits2_pos p))) as [|Hle]; auto.
  exfalso.
  assert (2 ^ Zpos (digits2_pos p) <= 2 ^ k) by (apply Z.pow_le_mono_r; lia).
  lia.
Qed.

(** The second, normalising shift. *)
Lemma renormalise (s : bool) (m1 e1 : Z) :
  0 <= m1 <= 2 ^ 53 -> -1074 <= e1 ->
  (let '(mrs, e2) := shr_fexp prec emax m1 e1 loc_Exact in
   match shr_m mrs with
   | Z0 => S754_zero s
   | Zpos m => if e2 <=? emax - prec then S754_finite s m e2 else S754_infinity s
   | Zneg _ => S754_nan
   end) = rounded s m1 e1.
Proof.
  intros Hm He. unfold shr_fexp, fexp, emin, prec, emax, rounded.
  destruct m1 as [|p|p]; try lia.
  - simpl Zdigits2.
    destruct (Z.max (0 + e1 - 53) (3 - 1024 - 53) - e1) eqn:E; try reflexivity. lia.
  - simpl Zdigits2. change (1024 - 53) with 971.
    destruct (Z.ltb_spec (Zpos p) (2 ^ 53)) as [Hlt|Hge].
    + pose proof (digits2_pos_le p 53 Hlt) as Hd.
      destruct (Z.max (Zpos (digits2_pos p) + e1 - 53) (3 - 1024 - 53) - e1) eqn:E;
        try reflexivity. lia.
    + assert (Ep : p = 9007199254740992%positive).
      { change (2 ^ 53) with 9007199254740992 in *. lia. }
      subst p. vm_compute digits2_pos.
      replace (Z.max (54 + e1 - 53) (3 - 1024 - 53) - e1) with 1 by lia.
      reflexivity.
Qed.

(** Rounding an exact mantissa whose exponent is not above the exponent of
    the result. *)
Lemma binary_round_aux_spec (s : bool) (m : positive) (e : Z) :
  let e1 := Z.max (Zpos (digits2_pos m) + e - 53) (-1074) in
  let q := Zpos m / 2 ^ (e1 - e) in
  e <= e1 ->
  q < 2 ^ 53 /\ (-1074 < e1 -> 2 ^ 52 <= q)
  /\ exists m1,
       q <= m1 <= q + 1 /\ (Zpos m mod 2 ^ (e1 - e) = 0 -> m1 = q)
       /\ binary_round_aux prec emax s (Zpos m) e loc_Exact = rounded s m1 e1.
Proof.
  intros e1 q He.
  pose proof (digits2_pos_bounds m) as [Hlo Hhi].
  set (d := Zpos (digits2_pos m)) in *.
  assert (Hd : 0 < d) by (unfold d; lia).
  pose proof (pow2_pos (e1 - e)) as Hp. specialize (Hp ltac:(lia)).
  assert (Hq : q < 2 ^ 53).
  { unfold q. apply Z.div_lt_upper_bound; auto.
    rewrite <- Z.pow_add_r by lia.
    apply Z.lt_le_trans with (2 ^ d); auto.
    apply Z.pow_le_mono_r; lia. }
  assert (Hq' : -1074 < e1 -> 2 ^ 52 <= q).
  { intros H1. unfold q. apply Z.div_le_lower_bound; auto.
    rewrite <- Z.pow_add_r by lia.
    replace (e1 - e + 52) with (d - 1) by lia. exact Hlo. }
  split; auto. split; auto.
  unfold binary_round_aux.
  assert (Ef : fexp prec emax (Zdigits2 (Zpos m) + e) - e = e1 - e).
  { unfold fexp, emin, prec, emax. simpl Zdigits2. fold d. unfold e1. lia. }
  unfold shr_fexp at 1. rewrite Ef.
  pose proof (shr_exact (Zpos m) e (e1 - e) ltac:(lia) ltac:(lia)) as Hs.
  destruct (shr (shr_record_of_loc (Zpos m) loc_Exact) e (e1 - e)) as [mrs e'].
  destruct Hs as [He' [Hm Hx]].
  replace e' with e1 by lia.
  set (m1 := round_nearest_even (shr_m mrs) (loc_of_shr_record mrs)).
  assert (Hq0 : 0 <= q) by (unfold q; apply Z.div_pos; lia).
  assert (H1 : q <= m1 <= q + 1 /\ (Zpos m mod 2 ^ (e1 - e) = 0 -> m1 = q)).
  { unfold m1. rewrite Hm. fold q. split.
    - unfold round_nearest_even.
      destruct (loc_of_shr_record mrs) as [|[| |]]; try lia.
      destruct (Z.even q); lia.
    - intros Hz. rewrite (Hx Hz). reflexivity. }
  exists m1. split; [tauto|]. split; [tauto|].
  apply renormalise; [lia|unfold e1; lia].
Qed.

(** [m * 2 ^ e <= m' * 2 ^ e'], on integers. *)
Definition le_value (m e m' e' : Z) : Prop :=
  m * 2 ^ (e - Z.min e e') <= m' * 2 ^ (e' - Z.min e e').

Lemma SFord_finite_bound (s : bool) (m : positive) (e : Z) :
  bounded prec emax m e = true ->
  Z.abs (SFord (S754_finite s m e)) < 2 ^ 70.
Proof.
  intros H. apply bounded_inv in H. destruct H as [He [Hm _]].
  change (2 ^ 53) with 9007199254740992 in *.
  change (2 ^ 70) with 1180591620717411303424.
  destruct s; cbn [SFord]; change (2 ^ 53) with 9007199254740992; lia.
Qed.

Ltac rounded_cases m1 e1 :=
  unfold rounded;
  destruct m1 as [|p1|p1]; [| |lia];
  [ | destruct (Z.ltb_spec (Zpos p1) (2 ^ 53));
      [ destruct (Z.leb_spec e1 971) | destruct (Z.leb_spec (e1 + 1) 971) ] ];
  cbn [SFord];
  change (2 ^ 70) with 1180591620717411303424 in *;
  change (2 ^ 53) with 9007199254740992 in *;
  change (2 ^ 52) with 4503599627370496 in *.

(** The rounded value is not above a number that the exact value is not
    above. *)
Lemma rounded_le (m : positive) (e : Z) (mk : positive) (ek : Z) :
  e <= Z.max (Zpos (digits2_pos m) + e - 53) (-1074) ->
  bounded prec emax mk ek = true ->
  le_value (Zpos m) e (Zpos mk) ek ->
  SFord (binary_round_aux prec emax false (Zpos m) e loc_Exact)
  <= SFord (S754_finite false mk ek).
Proof.
  intros He Hb Hv.
  destruct (binary_round_aux_spec false m e He) as [Hq [Hq' [m1 [Hm1 [Hx ->]]]]].
  pose proof (digits2_pos_bounds m) as [Hlo Hhi].
  set (d := Zpos (digits2_pos m)) in *.
  set (e1 := Z.max (d + e - 53) (-1074)) in *.
  set (q := Zpos m / 2 ^ (e1 - e)) in *.
  apply bounded_inv in Hb. destruct Hb as [Hek [Hmk Hmk']].
  unfold le_value in Hv.
  destruct (Z_lt_le_dec ek e1) as [Hlt|Hge].
  - exfalso. set (mu := Z.min e ek) in *.
    assert (A : 2 ^ (52 + e1 - mu) <= Zpos m * 2 ^ (e - mu)).
    { replace (52 + e1 - mu) with ((d - 1) + (e - mu)) by lia.
      rewrite Z.pow_add_r by lia.
      apply Z.mul_le_mono_nonneg_r; auto. apply Z.pow_nonneg. lia. }
    assert (B : Zpos mk * 2 ^ (ek - mu) < 2 ^ (52 + e1 - mu)).
    { apply Z.lt_le_trans with (2 ^ 53 * 2 ^ (ek - mu)).
      - apply Z.mul_lt_mono_pos_r; auto. apply pow2_pos. lia.
      - rewrite <- Z.pow_add_r by lia. apply Z.pow_le_mono_r; lia. }
    lia.
  - assert (Emu : Z.min e ek = e) by lia. rewrite Emu, Z.sub_diag in Hv.
    simpl (2 ^ 0) in Hv. rewrite Z.mul_1_r in Hv.
    set (K := Zpos mk * 2 ^ (ek - e1)).
    pose proof (pow2_pos (e1 - e) ltac:(lia)) as Hp.
    assert (EK : Zpos mk * 2 ^ (ek - e) = K * 2 ^ (e1 - e)).
    { unfold K. rewrite <- Z.mul_assoc, <- Z.pow_add_r by lia.
      do 2 f_equal. lia. }
    assert (HqK : q <= K).
    { unfold q. apply Z.div_le_upper_bound; auto. lia. }
    assert (Hm1K : m1 <= K).
    { destruct (Z.eq_dec q K) as [E|Hne]; [|lia].
      rewrite Hx; auto.
      pose proof (Z.mul_div_le (Zpos m) (2 ^ (e1 - e)) Hp) as Hle. fold q in Hle.
      assert (Em : Zpos m = K * 2 ^ (e1 - e)) by lia.
      rewrite Em. apply Z.mod_mul. lia. }
    assert (HK : ek = e1 -> K = Zpos mk).
    { intros ->. unfold K. rewrite Z.sub_diag. simpl. lia. }
    assert (HK' : K < 2 ^ 53 * 2 ^ (ek - e1)).
    { unfold K. apply Z.mul_lt_mono_pos_r; auto. apply pow2_pos. lia. }
    assert (Hq0 : 0 <= q) by (unfold q; apply Z.div_pos; lia).
    destruct (Z.eq_dec ek e1) as [Eek|Nek].
    + specialize (HK Eek). rounded_cases m1 e1; lia.
    + assert (Hmk2 : 4503599627370496 <= Zpos mk).
      { change 4503599627370496 with (2 ^ 52). apply Hmk'. lia. }
      rounded_cases m1 e1; lia.
Qed.

(** The rounded value is not below a number that the exact value is not
    below. *)
Lemma rounded_ge (m : positive) (e : Z) (mk : positive) (ek : Z) :
  e <= Z.max (Zpos (digits2_pos m) + e - 53) (-1074) ->
  bounded prec emax mk ek = true ->
  le_value (Zpos mk) ek (Zpos m) e ->
  SFord (S754_finite false mk ek)
  <= SFord (binary_round_aux prec emax false (Zpos m) e loc_Exact).
Proof.
  intros He Hb Hv.
  destruct (binary_round_aux_spec false m e He) as [Hq [Hq' [m1 [Hm1 [Hx ->]]]]].
  pose proof (digits2_pos_bounds m) as [Hlo Hhi].
  set (d := Zpos (digits2_pos m)) in *.
  set (e1 := Z.max (d + e - 53) (-1074)) in *.
  set (q := Zpos m / 2 ^ (e1 - e)) in *.
  apply bounded_inv in Hb. destruct Hb as [Hek [Hmk Hmk']].
  unfold le_value in Hv.
  assert (Hq0 : 0 <= q) by (unfold q; apply Z.div_pos; [lia|apply pow2_pos; lia]).
  destruct (Z_lt_le_dec ek e1) as [Hlt|Hge].
  - specialize (Hq' ltac:(lia)).
    change (2 ^ 52) with 4503599627370496 in Hq'.
    rounded_cases m1 e1; lia.
  - assert (Emu : Z.min ek e = e) by lia. rewrite Emu, Z.sub_diag in Hv.
    simpl (2 ^ 0) in Hv. rewrite Z.mul_1_r in Hv.
    set (K := Zpos mk * 2 ^ (ek - e1)).
    pose proof (pow2_pos (e1 - e) ltac:(lia)) as Hp.
    assert (EK : Zpos mk * 2 ^ (ek - e) = K * 2 ^ (e1 - e)).
    { unfold K. rewrite <- Z.mul_assoc, <- Z.pow_add_r by lia.
      do 2 f_equal. lia. }
    assert (HKq : K <= q).
    { unfold q. apply Z.div_le_lower_bound; auto. lia. }
    assert (HK1 : Zpos mk <= K).
    { unfold K. pose proof (pow2_pos (ek - e1) ltac:(lia)). nia. }
    destruct (Z.eq_dec ek e1) as [Eek|Nek].
    + assert (HK : K = Zpos mk).
      { unfold K. rewrite Eek, Z.sub_diag. simpl. lia. }
      rounded_cases m1 e1; lia.
    + exfalso.
      assert (H52 : 2 ^ 52 <= Zpos mk) by (apply Hmk'; lia).
      assert (2 ^ 53 <= K).
      { unfold K. change (2 ^ 53) with (2 ^ 52 * 2 ^ 1).
        apply Z.mul_le_mono_nonneg; try lia.
        apply Z.pow_le_mono_r; lia. }
      lia.
Qed.

(** The comparison of values at any common exponent. *)
Lemma le_value_at (nu m e m' e' : Z) :
  nu <= e -> nu <= e' ->
  (le_value m e m' e' <-> m * 2 ^ (e - nu) <= m' * 2 ^ (e' - nu)).
Proof.
  intros H H'. unfold le_value. set (mu := Z.min e e').
  assert (Hmu : nu <= mu) by (unfold mu; lia).
  pose proof (pow2_pos (mu - nu) ltac:(lia)) as Hp.
  replace (e - nu) with ((e - mu) + (mu - nu)) by lia.
  replace (e' - nu) with ((e' - mu) + (mu - nu)) by lia.
  rewrite !Z.pow_add_r by (unfold mu; lia).
  rewrite !Z.mul_assoc. split; intros Hv.
  - apply Z.mul_le_mono_nonneg_r; lia.
  - apply Z.mul_le_mono_pos_r in Hv; auto.
Qed.

Lemma le_value_refl (m e : Z) : le_value m e m e.
Proof. unfold le_value. lia. Qed.

Lemma le_value_trans (m1 e1 m2 e2 m3 e3 : Z) :
  le_value m1 e1 m2 e2 -> le_value m2 e2 m3 e3 -> le_value m1 e1 m3 e3.
Proof.
  set (nu := Z.min e1 (Z.min e2 e3)).
  rewrite (le_value_at nu m1 e1 m2 e2), (le_value_at nu m2 e2 m3 e3),
    (le_value_at nu m1 e1 m3 e3) by (unfold nu; lia).
  lia.
Qed.

(** The same value with a longer mantissa. *)
Lemma le_value_shift_l (k m e m' e' : Z) :
  0 <= k -> (le_value (m * 2 ^ k) (e - k) m' e' <-> le_value m e m' e').
Proof.
  intros Hk. set (nu := Z.min (e - k) e').
  rewrite (le_value_at nu (m * 2 ^ k)), (le_value_at nu m) by (unfold nu; lia).
  rewrite <- Z.mul_assoc, <- Z.pow_add_r by (unfold nu; lia).
  replace (k + (e - k - nu)) with (e - nu) by lia. tauto.
Qed.

Lemma le_value_shift_r (k m e m' e' : Z) :
  0 <= k -> (le_value m e (m' * 2 ^ k) (e' - k) <-> le_value m e m' e').
Proof.
  intros Hk. set (nu := Z.min e (e' - k)).
  rewrite (le_value_at nu m e (m' * 2 ^ k)), (le_value_at nu m e m')
    by (unfold nu; lia).
  rewrite <- Z.mul_assoc, <- Z.pow_add_r by (unfold nu; lia).
  replace (k + (e' - k - nu)) with (e' - nu) by lia. tauto.
Qed.

(** The mantissa that [binary_round] hands on: the same value, at an exponent
    that is not above the exponent of the result. *)
Lemma shl_align_fexp_spec (m : positive) (e : Z) :
  let '(mz, ez) := shl_align m e (fexp prec emax (Zpos (digits2_pos m) + e)) in
  ez <= Z.max (Zpos (digits2_pos mz) + ez - 53) (-1074)
  /\ exists k, 0 <= k /\ Zpos mz = Zpos m * 2 ^ k /\ ez = e - k.
Proof.
  pose proof (digits2_pos_bounds m) as [Hlo Hhi].
  set (d := Zpos (digits2_pos m)) in *.
  assert (Hd : 0 < d) by (unfold d; lia).
  set (f := fexp prec emax (d + e)).
  assert (Ef : f = Z.max (d + e - 53) (-1074)).
  { unfold f, fexp, emin, prec, emax. lia. }
  destruct (Z_lt_le_dec f e) as [Hlt|Hge].
  - pose proof (shl_align_spec m e f ltac:(lia)) as [Hm He].
    destruct (shl_align m e f) as [mz ez]. cbn [fst snd] in Hm, He. subst ez.
    split.
    + assert (Hz : 2 ^ (d - 1 + (e - f)) <= Zpos mz).
      { rewrite Hm, Z.pow_add_r by lia.
        apply Z.mul_le_mono_nonneg_r; auto. apply Z.pow_nonneg. lia. }
      apply digits2_pos_ge in Hz. lia.
    + exists (e - f). split; [lia|]. split; auto. lia.
  - unfold shl_align. destruct (f - e) as [|p|p] eqn:E; try lia.
    + split; [fold d; lia|]. exists 0. simpl. split; lia.
    + split; [fold d; lia|]. exists 0. simpl. split; lia.
Qed.

Lemma binary_round_le (m : positive) (e : Z) (mk : positive) (ek : Z) :
  bounded prec emax mk ek = true ->
  le_value (Zpos m) e (Zpos mk) ek ->
  SFord (binary_round prec emax false m e) <= SFord (S754_finite false mk ek).
Proof.
  intros Hb Hv. unfold binary_round.
  pose proof (shl_align_fexp_spec m e) as H.
  destruct (shl_align m e _) as [mz ez]. destruct H as [HP [k [Hk [Hm He]]]].
  apply rounded_le; auto.
  rewrite Hm, He. now apply le_value_shift_l.
Qed.

Lemma binary_round_ge (m : positive) (e : Z) (mk : positive) (ek : Z) :
  bounded prec emax mk ek = true ->
  le_value (Zpos mk) ek (Zpos m) e ->
  SFord (S754_finite false mk ek) <= SFord (binary_round prec emax false m e).
Proof.
  intros Hb Hv. unfold binary_round.
  pose proof (shl_align_fexp_spec m e) as H.
  destruct (shl_align m e _) as [mz ez]. destruct H as [HP [k [Hk [Hm He]]]].
  apply rounded_ge; auto.
  rewrite Hm, He. now apply le_value_shift_r.
Qed.

(** *** Signs *)

Lemma binary_round_aux_opp (m e : Z) (l : location) :
  binary_round_aux prec emax true m e l
  = SFopp (binary_round_aux prec emax false m e l).
Proof.
  unfold binary_round_aux.
  destruct (shr_fexp prec emax m e l) as [mrs e1].
  destruct (shr_fexp prec emax _ e1 loc_Exact) as [mrs2 e2].
  destruct (shr_m mrs2); auto.
  destruct (e2 <=? emax - prec); auto.
Qed.

Lemma binary_round_opp (m : positive) (e : Z) :
  binary_round prec emax true m e = SFopp (binary_round prec emax false m e).
Proof.
  unfold binary_round. destruct (shl_align m e _) as [mz ez].
  apply binary_round_aux_opp.
Qed.

Lemma SFord_opp (x : spec_float) : SFord (SFopp x) = - SFord x.
Proof. destruct x as [[|]|[|]| |[|] m e]; cbn [SFopp SFord negb]; lia. Qed.

(** A number that is not negative: a zero, or above zero. *)
Definition nonnegative (x : spec_float) : Prop :=
  match x with
  | S754_zero _ | S754_infinity false | S754_finite false _ _ => True
  | _ => False
  end.

Lemma nonnegative_rounded (m1 e1 : Z) :
  0 <= m1 -> nonnegative (rounded false m1 e1).
Proof.
  intros H. unfold rounded. destruct m1 as [|p|p]; try lia; [exact I|].
  destruct (Zpos p <? 2 ^ 53); [destruct (e1 <=? 971)|destruct (e1 + 1 <=? 971)];
    exact I.
Qed.

(** *** Validity *)

Lemma digits2_pos_eq (p : positive) (k : Z) :
  2 ^ (k - 1) <= Zpos p < 2 ^ k -> Zpos (digits2_pos p) = k.
Proof.
  intros [Hlo Hhi]. apply digits2_pos_le in Hhi. apply digits2_pos_ge in Hlo. lia.
Qed.

Lemma bounded_intro (m : positive) (e : Z) :
  -1074 <= e <= 971 -> Zpos m < 2 ^ 53 -> (-1074 < e -> 2 ^ 52 <= Zpos m) ->
  bounded prec emax m e = true.
Proof.
  intros He Hm Hn. unfold bounded, canonical_mantissa, fexp, emin, prec, emax.
  apply andb_true_iff. split; [|apply Z.leb_le; lia].
  apply Z.eqb_eq.
  pose proof (digits2_pos_le m 53 Hm).
  destruct (Z.eq_dec e (-1074)) as [->|Hne]; [lia|].
  rewrite (digits2_pos_eq m 53); [lia|].
  split; [change (53 - 1) with 52; apply Hn; lia|exact Hm].
Qed.

Lemma valid_rounded (s : bool) (m1 e1 : Z) :
  -1074 <= e1 -> m1 <= 2 ^ 53 -> (-1074 < e1 -> 2 ^ 52 <= m1) ->
  valid_binary (rounded s m1 e1) = true.
Proof.
  intros He Hm Hn. unfold rounded. destruct m1 as [|p|p]; auto.
  destruct (Z.ltb_spec (Zpos p) (2 ^ 53)).
  - destruct (Z.leb_spec e1 971); auto. simpl. apply bounded_intro; auto; lia.
  - destruct (Z.leb_spec (e1 + 1) 971); auto. simpl.
    apply bounded_intro; try lia; try reflexivity.
Qed.

Lemma valid_binary_round_aux (s : bool) (m : positive) (e : Z) :
  e <= Z.max (Zpos (digits2_pos m) + e - 53) (-1074) ->
  valid_binary (binary_round_aux prec emax s (Zpos m) e loc_Exact) = true.
Proof.
  intros He.
  destruct (binary_round_aux_spec s m e He) as [Hq [Hq' [m1 [Hm1 [Hx ->]]]]].
  apply valid_rounded; lia.
Qed.

Lemma valid_binary_normalize (z e : Z) :
  valid_binary (binary_normalize prec emax z e false) = true.
Proof.
  destruct z as [|m|m]; simpl; auto; unfold binary_round;
    pose proof (shl_align_fexp_spec m e) as H;
    destruct (shl_align m e _) as [mz ez]; destruct H as [HP _];
    now apply valid_binary_round_aux.
Qed.

(** *** Ranks and values *)

Lemma rank_le_value (m1 : positive) (e1 : Z) (m2 : positive) (e2 : Z) :
  bounded prec emax m1 e1 = true -> bounded prec emax m2 e2 = true ->
  SFord (S754_finite false m1 e1) <= SFord (S754_finite false m2 e2) ->
  le_value (Zpos m1) e1 (Zpos m2) e2.
Proof.
  intros H1 H2 Hr. apply bounded_inv in H1, H2.
  destruct H1 as [He1 [Hm1 Hn1]]. destruct H2 as [He2 [Hm2 Hn2]].
  cbn [SFord] in Hr. unfold le_value.
  change (2 ^ 53) with 9007199254740992 in *.
  change (2 ^ 52) with 4503599627370496 in *.
  destruct (Z.lt_trichotomy e1 e2) as [Hlt|[->|Hgt]].
  - replace (Z.min e1 e2) with e1 by lia. rewrite Z.sub_diag. simpl (2 ^ 0).
    specialize (Hn2 ltac:(lia)).
    assert (2 ^ 1 <= 2 ^ (e2 - e1)) by (apply Z.pow_le_mono_r; lia).
    change (2 ^ 1) with 2 in *. nia.
  - rewrite Z.min_id, Z.sub_diag. simpl (2 ^ 0). lia.
  - specialize (Hn1 ltac:(lia)). lia.
Qed.

Lemma SFord_positive (m : positive) (e : Z) :
  bounded prec emax m e = true -> 0 < SFord (S754_finite false m e).
Proof.
  intros H. apply bounded_inv in H. cbn [SFord].
  change (2 ^ 53) with 9007199254740992. lia.
Qed.

Lemma SFord_negative (m : positive) (e : Z) :
  bounded prec emax m e = true -> SFord (S754_finite true m e) < 0.
Proof.
  intros H. apply bounded_inv in H. cbn [SFord].
  change (2 ^ 53) with 9007199254740992. lia.
Qed.

(** The mantissa of a finite number with its sign. *)
Definition signed (s : bool) (m : positive) : Z := cond_Zopp s (Zpos m).

Lemma le_value_opp (a e b e' : Z) :
  le_value (- a) e (- b) e' <-> le_value b e' a e.
Proof. unfold le_value. rewrite (Z.min_comm e' e). lia. Qed.

Lemma le_value_neg_pos (a e b e' : Z) :
  0 <= a -> 0 <= b -> le_value (- a) e b e'.
Proof.
  intros Ha Hb. unfold le_value.
  pose proof (pow2_pos (e - Z.min e e') ltac:(lia)).
  pose proof (pow2_pos (e' - Z.min e e') ltac:(lia)). nia.
Qed.

Lemma le_value_pos_neg (a e b e' : Z) :
  0 < a -> 0 <= b -> ~ le_value a e (- b) e'.
Proof.
  intros Ha Hb. unfold le_value.
  pose proof (pow2_pos (e - Z.min e e') ltac:(lia)).
  pose proof (pow2_pos (e' - Z.min e e') ltac:(lia)). nia.
Qed.

Lemma SFord_le_value (s1 : bool) (m1 : positive) (e1 : Z) (s2 : bool)
    (m2 : positive) (e2 : Z) :
  bounded prec emax m1 e1 = true -> bounded prec emax m2 e2 = true ->
  SFord (S754_finite s1 m1 e1) <= SFord (S754_finite s2 m2 e2) ->
  le_value (signed s1 m1) e1 (signed s2 m2) e2.
Proof.
  intros H1 H2 Hr. destruct s1; destruct s2; unfold signed, cond_Zopp.
  - apply le_value_opp. apply rank_le_value; auto.
    cbn [SFord] in *. lia.
  - apply le_value_neg_pos; lia.
  - pose proof (SFord_positive m1 e1 H1). pose proof (SFord_negative m2 e2 H2). lia.
  - now apply rank_le_value.
Qed.

Lemma binary_round_nonneg (m : positive) (e : Z) :
  nonnegative (binary_round prec emax false m e)
  /\ 0 <= SFord (binary_round prec emax false m e).
Proof.
  unfold binary_round.
  pose proof (shl_align_fexp_spec m e) as H.
  destruct (shl_align m e _) as [mz ez]. destruct H as [HP _].
  destruct (binary_round_aux_spec false mz ez HP) as [Hq [Hq' [m1 [Hm1 [Hx ->]]]]].
  assert (Hq0 : 0 <= Zpos mz / 2 ^ (Z.max (Zpos (digits2_pos mz) + ez - 53) (-1074) - ez)).
  { apply Z.div_pos; [lia|]. apply pow2_pos. lia. }
  split; [apply nonnegative_rounded; lia|].
  set (e1 := Z.max (Zpos (digits2_pos mz) + ez - 53) (-1074)) in *.
  assert (He1 : -1074 <= e1) by (unfold e1; lia).
  rounded_cases m1 e1; lia.
Qed.

(** *** Normalising a signed mantissa *)

Lemma normalize_le (z e : Z) (sk : bool) (mk : positive) (ek : Z) :
  bounded prec emax mk ek = true ->
  le_value z e (signed sk mk) ek ->
  SFord (binary_normalize prec emax z e false) <= SFord (S754_finite sk mk ek).
Proof.
  intros Hb Hv. destruct z as [|p|p]; cbn [binary_normalize].
  - destruct sk.
    + exfalso. unfold signed, cond_Zopp, le_value in Hv.
      pose proof (pow2_pos (ek - Z.min e ek) ltac:(lia)). nia.
    + pose proof (SFord_positive mk ek Hb). cbn [SFord] in *. lia.
  - destruct sk.
    + exfalso. revert Hv. unfold signed, cond_Zopp. apply le_value_pos_neg; lia.
    + now apply binary_round_le.
  - rewrite binary_round_opp, SFord_opp.
    destruct sk.
    + unfold signed, cond_Zopp in Hv.
      change (Zneg p) with (- Zpos p) in Hv. apply le_value_opp in Hv.
      pose proof (binary_round_ge p e mk ek Hb Hv) as H.
      cbn [SFord] in *. lia.
    + pose proof (SFord_positive mk ek Hb).
      pose proof (proj2 (binary_round_nonneg p e)). lia.
Qed.

Lemma normalize_ge (z e : Z) (sk : bool) (mk : positive) (ek : Z) :
  bounded prec emax mk ek = true ->
  le_value (signed sk mk) ek z e ->
  SFord (S754_finite sk mk ek) <= SFord (binary_normalize prec emax z e false).
Proof.
  intros Hb Hv. destruct z as [|p|p]; cbn [binary_normalize].
  - destruct sk.
    + pose proof (SFord_negative mk ek Hb). cbn [SFord] in *. lia.
    + exfalso. unfold signed, cond_Zopp, le_value in Hv.
      pose proof (pow2_pos (ek - Z.min ek e) ltac:(lia)). nia.
  - destruct sk.
    + pose proof (SFord_negative mk ek Hb).
      pose proof (proj2 (binary_round_nonneg p e)). lia.
    + now apply binary_round_ge.
  - rewrite binary_round_opp, SFord_opp.
    destruct sk.
    + unfold signed, cond_Zopp in Hv.
      change (Zneg p) with (- Zpos p) in Hv. apply le_value_opp in Hv.
      pose proof (binary_round_le p e mk ek Hb Hv) as H.
      cbn [SFord] in *. lia.
    + exfalso. unfold signed, cond_Zopp in Hv.
      change (Zneg p) with (- Zpos p) in Hv.
      change (Zpos mk) with (- - Zpos mk) in Hv. apply le_value_opp in Hv.
      revert Hv. apply le_value_pos_neg; lia.
Qed.

Lemma signed_shl_align (s : bool) (m : positive) (e ez : Z) :
  ez <= e ->
  cond_Zopp s (Zpos (fst (shl_align m e ez))) = signed s m * 2 ^ (e - ez).
Proof.
  intros H. destruct (shl_align_spec m e ez H) as [-> _].
  unfold signed. destruct s; cbn [cond_Zopp]; [rewrite Z.mul_opp_l|]; reflexivity.
Qed.

(** *** Adding and subtracting a number that is not negative *)

Lemma SFsub_le (a t : spec_float) :
  valid_binary a = true -> valid_binary t = true -> nonnegative t ->
  SFsub prec emax a t = S754_nan \/ SFord (SFsub prec emax a t) <= SFord a.
Proof.
  intros Va Vt Ht.
  destruct a as [sa|sa| |sa ma ea]; destruct t as [st|[|]| |[|] mt et];
    try contradiction; cbn [SFsub]; auto;
    try (right; destruct sa; try destruct st; cbn [SFord negb]; lia).
  - right. cbn [negb]. pose proof (SFord_negative mt et Vt) as H.
    change (SFord (S754_zero sa)) with 0. lia.
  - right. pose proof (SFord_finite_bound sa ma ea Va) as H.
    change (SFord (S754_infinity (negb false))) with (- 2 ^ 70). lia.
  - right. apply normalize_le; auto.
    apply (le_value_at (Z.min ea et)); try lia.
    rewrite Z.sub_diag. simpl (2 ^ 0).
    rewrite signed_shl_align by lia. cbn [cond_Zopp].
    destruct (shl_align_spec mt et (Z.min ea et) ltac:(lia)) as [Et _].
    lia.
Qed.

Lemma SFadd_ge (a t : spec_float) :
  valid_binary a = true -> valid_binary t = true -> nonnegative t ->
  SFadd prec emax a t = S754_nan \/ SFord a <= SFord (SFadd prec emax a t).
Proof.
  intros Va Vt Ht.
  destruct a as [sa|sa| |sa ma ea]; destruct t as [st|[|]| |[|] mt et];
    try contradiction; cbn [SFadd]; auto;
    try (right; destruct sa; try destruct st; cbn [SFord negb]; lia).
  all: right.
  - pose proof (SFord_positive mt et Vt) as H.
    change (SFord (S754_zero sa)) with 0. lia.
  - pose proof (SFord_finite_bound sa ma ea Va) as H.
    change (SFord (S754_infinity false)) with (2 ^ 70). lia.
  - apply normalize_ge; auto.
    apply (le_value_at (Z.min ea et)); try lia.
    rewrite Z.sub_diag. simpl (2 ^ 0).
    rewrite signed_shl_align by lia. cbn [cond_Zopp].
    destruct (shl_align_spec mt et (Z.min ea et) ltac:(lia)) as [Et _].
    lia.
Qed.

(** *** The difference of two ordered numbers, and its multiples *)

Lemma SFsub_nonnegative (a b : spec_float) :
  valid_binary a = true -> valid_binary b = true ->
  a <> S754_nan -> b <> S754_nan ->
  SFord b <= SFord a ->
  SFsub prec emax a b = S754_nan \/ nonnegative (SFsub prec emax a b).
Proof.
  intros Va Vb Na Nb H.
  destruct a as [sa|sa| |sa ma ea]; try congruence;
    destruct b as [sb|sb| |sb mb eb]; try congruence; cbn [SFsub].
  - destruct sa; destruct sb; right; exact I.
  - destruct sb; [right; exact I|exfalso].
    cbn [SFord] in H. change (2 ^ 70) with 1180591620717411303424 in H. lia.
  - destruct sb; [right; exact I|exfalso].
    pose proof (SFord_positive mb eb Vb). cbn [SFord] in *. lia.
  - destruct sa; [exfalso|right; exact I].
    cbn [SFord] in H. change (2 ^ 70) with 1180591620717411303424 in H. lia.
  - destruct sa; destruct sb; auto; [exfalso|right; exact I].
    cbn [SFord] in H. change (2 ^ 70) with 1180591620717411303424 in H. lia.
  - destruct sa; [exfalso|right; exact I].
    pose proof (SFord_finite_bound sb mb eb Vb).
    change (SFord (S754_infinity true)) with (- 2 ^ 70) in H. lia.
  - destruct sa; [exfalso|right; exact I].
    pose proof (SFord_negative ma ea Va). cbn [SFord] in *. lia.
  - destruct sb; [right; exact I|exfalso].
    pose proof (SFord_finite_bound sa ma ea Va).
    change (SFord (S754_infinity false)) with (2 ^ 70) in H. lia.
  - right.
    pose proof (SFord_le_value sb mb eb sa ma ea Vb Va H) as Hv.
    apply (le_value_at (Z.min ea eb)) in Hv; try lia.
    rewrite <- !signed_shl_align in Hv by lia.
    set (A := cond_Zopp sa _) in *. set (B := cond_Zopp sb _) in *.
    destruct (A - B) as [|p|p] eqn:E; try lia; cbn [binary_normalize].
    + exact I.
    + apply binary_round_nonneg.
Qed.

Lemma digits2_pos_mul (mx my : positive) :
  2 ^ 52 <= Zpos mx -> 53 <= Zpos (digits2_pos (mx * my)).
Proof.
  intros H. assert (H' : 2 ^ 52 <= Zpos (mx * my)) by (rewrite Pos2Z.inj_mul; nia).
  apply digits2_pos_ge in H'. lia.
Qed.

(** The product with a positive normal number of a number that is not
    negative. *)
Lemma SFmul_nonnegative (mx : positive) (ex : Z) (y : spec_float) :
  2 ^ 52 <= Zpos mx ->
  nonnegative y ->
  nonnegative (SFmul prec emax (S754_finite false mx ex) y).
Proof.
  intros Hx Hy. destruct y as [sy|[|]| |[|] my ey]; try contradiction; cbn [SFmul].
  - exact I.
  - exact I.
  - assert (HP : ex + ey <= Z.max (Zpos (digits2_pos (mx * my)) + (ex + ey) - 53) (-1074)).
    { pose proof (digits2_pos_mul mx my Hx). lia. }
    destruct (binary_round_aux_spec false (mx * my) (ex + ey) HP)
      as [Hq [Hq' [m1 [Hm1 [_ E]]]]].
    cbn [xorb]. rewrite E. apply nonnegative_rounded.
    assert (0 <= Zpos (mx * my)
                 / 2 ^ (Z.max (Zpos (digits2_pos (mx * my)) + (ex + ey) - 53) (-1074)
                        - (ex + ey))).
    { apply Z.div_pos; [lia|]. apply pow2_pos. lia. }
    lia.
Qed.

Lemma rounded_ord_nonneg (m1 e1 : Z) :
  0 <= m1 -> -1074 <= e1 -> 0 <= SFord (rounded false m1 e1).
Proof. intros Hm He. rounded_cases m1 e1; lia. Qed.

(** *** Numbers *)

Lemma isNaN_true (x : float) : isNaN x = true <-> Prim2SF x = S754_nan.
Proof.
  split; intros H.
  - destruct (Prim2SF x) eqn:E; auto;
      rewrite Prim2SF_isNaN in H by (rewrite E; discriminate); discriminate.
  - destruct (isNaN x) eqn:E; auto. apply isNaN_Prim2SF in E. contradiction.
Qed.

Lemma leb_ord (x y : float) :
  PrimFloat.leb x y = true ->
  isNaN x = false /\ isNaN y = false /\ ord x <= ord y.
Proof.
  rewrite leb_spec. unfold SFleb. intros H.
  assert (Nx : Prim2SF x <> S754_nan).
  { intros E. rewrite E in H. discriminate. }
  assert (Ny : Prim2SF y <> S754_nan).
  { intros E. rewrite E in H. destruct (Prim2SF x); discriminate. }
  rewrite SFcompare_ord in H by auto using Prim2SF_valid.
  split; [now apply Prim2SF_isNaN|]. split; [now apply Prim2SF_isNaN|].
  unfold ord. destruct (Z.compare_spec (SFord (Prim2SF x)) (SFord (Prim2SF y)));
    try lia; discriminate.
Qed.

(** The bounds of the [iqr] method enclose the quartiles they are computed
    from, or are [NaN]. *)
Lemma iqr_bounds_enclose (q1 q3 : float) :
  isNaN q1 = false -> isNaN q3 = false -> ord q1 <= ord q3 ->
  let iqr := (q3 - q1)%float in
  (isNaN (q1 - 1.5 * iqr)%float = true \/ ord (q1 - 1.5 * iqr)%float <= ord q1)
  /\ (isNaN (q3 + 1.5 * iqr)%float = true \/ ord q3 <= ord (q3 + 1.5 * iqr)%float).
Proof.
  intros H1 H3 Ho iqr.
  assert (Ht : Prim2SF (1.5 * iqr)%float = S754_nan
               \/ nonnegative (Prim2SF (1.5 * iqr)%float)).
  { rewrite mul_spec. unfold iqr. rewrite sub_spec.
    destruct (SFsub_nonnegative (Prim2SF q3) (Prim2SF q1)) as [E|Hn];
      auto using Prim2SF_valid, isNaN_Prim2SF.
    - left. unfold SF64sub. rewrite E. reflexivity.
    - right. apply SFmul_nonnegative; auto. vm_compute. discriminate. }
  unfold ord. rewrite !isNaN_true, sub_spec, add_spec.
  destruct Ht as [E|Hn].
  - rewrite E. split; left.
    + unfold SF64sub. destruct (Prim2SF q1); reflexivity.
    + unfold SF64add. destruct (Prim2SF q3); reflexivity.
  - split.
    + apply SFsub_le; auto using Prim2SF_valid.
    + apply SFadd_ge; auto using Prim2SF_valid.
Qed.

(** *** Integers as numbers *)

Lemma Prim2SF_Z2float (z : Z) :
  Prim2SF (Z2float z) = binary_normalize prec emax z 0 false.
Proof. unfold Z2float. apply Prim2SF_SF2Prim. apply valid_binary_normalize. Qed.

(** A positive integer becomes a number that is at least [1]. *)
Lemma positive_integer_float (p : positive) :
  binary_round prec emax false p 0 = S754_infinity false
  \/ exists m e,
       binary_round prec emax false p 0 = S754_finite false m e
       /\ bounded prec emax m e = true /\ -52 <= e.
Proof.
  pose proof (binary_round_nonneg p 0) as [Hn _].
  pose proof (valid_binary_normalize (Zpos p) 0) as Hv. cbn [binary_normalize] in Hv.
  assert (H1 : SFord (S754_finite false 4503599627370496 (-52))
               <= SFord (binary_round prec emax false p 0)).
  { apply binary_round_ge; [reflexivity|].
    unfold le_value. change (Z.min (-52) 0) with (-52).
    change (2 ^ (-52 - -52)) with 1. change (2 ^ (0 - -52)) with 4503599627370496.
    lia. }
  destruct (binary_round prec emax false p 0) as [s|[|]| |[|] m e];
    try contradiction; auto.
  right. exists m, e. split; auto. split; auto.
  simpl in Hv. apply bounded_inv in Hv. destruct Hv as [He [Hm _]].
  cbn [SFord] in H1. change (2 ^ 53) with 9007199254740992 in *. lia.
Qed.

Lemma SFord_finite_inj (m1 : positive) (e1 : Z) (m2 : positive) (e2 : Z) :
  bounded prec emax m1 e1 = true -> bounded prec emax m2 e2 = true ->
  SFord (S754_finite false m1 e1) = SFord (S754_finite false m2 e2) ->
  m1 = m2 /\ e1 = e2.
Proof.
  intros H1 H2 E. apply bounded_inv in H1, H2.
  cbn [SFord] in E. change (2 ^ 53) with 9007199254740992 in *.
  assert (e1 = e2) by lia. subst. split; auto. lia.
Qed.

(** An integer below [2 ^ 53] is a number, and reads back. *)
Lemma exact_integer (q : Z) :
  0 <= q < 2 ^ 53 -> float2Z (Z2float q) = Some q.
Proof.
  intros [H0 Hq]. unfold float2Z. rewrite Prim2SF_Z2float.
  destruct q as [|p|p]; try lia; cbn [binary_normalize]; [reflexivity|].
  fold (float2Z (Z2float (Zpos p))).
  pose proof (digits2_pos_bounds p) as [Hlo Hhi].
  pose proof (digits2_pos_le p 53 Hq) as Hd.
  set (d := Zpos (digits2_pos p)) in *.
  assert (Hd0 : 0 < d) by (unfold d; lia).
  set (k := 53 - d).
  pose proof (pow2_pos k ltac:(unfold k; lia)) as Hk.
  set (mk := Z.to_pos (Zpos p * 2 ^ k)).
  assert (Emk : Zpos mk = Zpos p * 2 ^ k) by (unfold mk; rewrite Z2Pos.id; nia).
  assert (Hb : bounded prec emax mk (- k) = true).
  { apply bounded_intro.
    - unfold k. lia.
    - rewrite Emk. replace 53 with (d + k) by (unfold k; lia).
      rewrite Z.pow_add_r by (unfold k; lia). nia.
    - intros _. rewrite Emk. replace 52 with ((d - 1) + k) by (unfold k; lia).
      rewrite Z.pow_add_r by (unfold k; lia). nia. }
  assert (Hle : SFord (binary_round prec emax false p 0)
                <= SFord (S754_finite false mk (- k))).
  { apply binary_round_le; auto. rewrite Emk.
    replace (- k) with (0 - k) by lia.
    apply le_value_shift_r; [unfold k; lia|apply le_value_refl]. }
  assert (Hge : SFord (S754_finite false mk (- k))
                <= SFord (binary_round prec emax false p 0)).
  { apply binary_round_ge; auto. rewrite Emk.
    replace (- k) with (0 - k) by lia.
    apply le_value_shift_l; [unfold k; lia|apply le_value_refl]. }
  pose proof (SFord_finite_bound false mk (- k) Hb) as Hbound.
  pose proof (SFord_positive mk (- k) Hb) as Hpos.
  pose proof (valid_binary_normalize (Zpos p) 0) as Hv. cbn [binary_normalize] in Hv.
  pose proof (binary_round_nonneg p 0) as [Hn _].
  destruct (binary_round prec emax false p 0) as [s|[|]| |[|] m e];
    try contradiction.
  - exfalso. change (SFord (S754_zero s)) with 0 in *. lia.
  - exfalso. change (SFord (S754_infinity false)) with (2 ^ 70) in *. lia.
  - destruct (SFord_finite_inj m e mk (- k)) as [-> ->]; auto; [lia|].
    destruct (Z.leb_spec 0 (- k)).
    + assert (k = 0) by lia. f_equal. rewrite Emk.
      replace (- k) with 0 by lia. replace k with 0 by lia. simpl. lia.
    + rewrite Z.opp_involutive, Emk, Z.mod_mul, Z.eqb_refl by lia.
      now rewrite Z.div_mul by lia.
Qed.

Lemma float2Z_finite (x : float) (s : bool) (m : positive) (e : Z) :
  Prim2SF x = S754_finite s m e ->
  float2Z x
  = if 0 <=? e then Some (cond_Zopp s (Zpos m * 2 ^ e))
    else if Zpos m mod 2 ^ (- e) =? 0 then Some (cond_Zopp s (Zpos m / 2 ^ (- e)))
         else None.
Proof. intros E. unfold float2Z. rewrite E. destruct s; reflexivity. Qed.

Lemma float2Z_negative (x : float) (m : positive) (e z : Z) :
  Prim2SF x = S754_finite true m e -> float2Z x = Some z -> z < 0.
Proof.
  intros E. rewrite (float2Z_finite x true m e E). cbn [cond_Zopp].
  destruct (Z.leb_spec 0 e) as [He|He].
  - intros H. assert (Ez : z = - (Zpos m * 2 ^ e)) by congruence.
    pose proof (pow2_pos e ltac:(lia)).
    assert (0 < Zpos m * 2 ^ e) by (apply Z.mul_pos_pos; lia). lia.
  - pose proof (pow2_pos (- e) ltac:(lia)) as Hp.
    destruct (Z.eqb_spec (Zpos m mod 2 ^ (- e)) 0) as [Hm|Hm]; [|discriminate].
    intros H. assert (Ez : z = - (Zpos m / 2 ^ (- e))) by congruence.
    pose proof (Z.div_mod (Zpos m) (2 ^ (- e)) ltac:(lia)) as Hd.
    rewrite Hm in Hd.
    assert (0 < Zpos m / 2 ^ (- e)).
    { apply Z.div_str_pos. split; auto.
      pose proof (Z.mod_pos_bound (Zpos m) (2 ^ (- e)) Hp).
      destruct (Z_le_gt_dec (2 ^ (- e)) (Zpos m)) as [|Hgt]; auto.
      rewrite Z.mod_small in Hm by lia. lia. }
    lia.
Qed.

(** The integer part of a positive number. *)
Definition floorZ (m : positive) (e : Z) : Z :=
  if 0 <=? e then Zpos m * 2 ^ e else Zpos m / 2 ^ (- e).

(** An index that [Math.floor] yields and that is not negative. *)
Lemma floor_index (y : float) (z : Z) :
  float2Z (Math_floor y) = Some z -> 0 <= z ->
  ((exists s, Prim2SF y = S754_zero s) /\ z = 0)
  \/ exists m e, Prim2SF y = S754_finite false m e /\ z = floorZ m e.
Proof.
  intros H Hz. unfold Math_floor in H.
  pose proof (Prim2SF_valid y) as Hv.
  destruct (Prim2SF y) as [s|s| |s m e] eqn:E.
  - left. split; eauto. unfold float2Z in H. rewrite E in H. congruence.
  - exfalso. unfold float2Z in H. rewrite E in H. discriminate.
  - exfalso. unfold float2Z in H. rewrite E in H. discriminate.
  - simpl in Hv. apply bounded_inv in Hv. destruct Hv as [He [Hm _]].
    destruct (Z.ltb_spec e 0) as [Hneg|Hpos].
    + pose proof (pow2_pos (- e) ltac:(lia)) as Hp.
      assert (Hq : 0 <= Zpos m / 2 ^ (- e) < 2 ^ 53).
      { split; [apply Z.div_pos; lia|].
        apply Z.div_lt_upper_bound; auto. nia. }
      destruct s.
      * exfalso.
        destruct (Zpos m mod 2 ^ (- e) =? 0).
        -- pose proof (float2Z_negative y m e z E H). lia.
        -- set (q := Zpos m / 2 ^ (- e)) in *.
           destruct (q + 1) as [|p|p] eqn:Eq; try lia.
           change (- Zpos p) with (Zneg p) in H.
           assert (Ep : Prim2SF (Z2float (Zneg p))
                        = SFopp (binary_round prec emax false p 0)).
           { rewrite Prim2SF_Z2float. cbn [binary_normalize].
             apply binary_round_opp. }
           destruct (positive_integer_float p) as [Ei|[m' [e' [Ef _]]]].
           ++ rewrite Ei in Ep. unfold float2Z in H. rewrite Ep in H. discriminate.
           ++ rewrite Ef in Ep.
              pose proof (float2Z_negative _ m' e' z Ep H). lia.
      * right. exists m, e. split; auto.
        rewrite exact_integer in H by auto. injection H as <-.
        unfold floorZ. destruct (Z.leb_spec 0 e); auto. lia.
    + destruct s.
      * exfalso. pose proof (float2Z_negative y m e z E H). lia.
      * right. exists m, e. split; auto.
        rewrite (float2Z_finite y false m e E) in H. cbn [cond_Zopp] in H.
        unfold floorZ. destruct (Z.leb_spec 0 e); try lia. congruence.
Qed.

Lemma floorZ_monotone (m1 : positive) (e1 : Z) (m2 : positive) (e2 : Z) :
  le_value (Zpos m1) e1 (Zpos m2) e2 -> floorZ m1 e1 <= floorZ m2 e2.
Proof.
  intros Hv. set (nu := Z.min (Z.min e1 e2) 0).
  assert (F : forall (m : positive) e, nu <= e ->
                floorZ m e = (Zpos m * 2 ^ (e - nu)) / 2 ^ (- nu)).
  { intros m e He. unfold floorZ.
    pose proof (pow2_pos (- nu) ltac:(unfold nu; lia)) as Hp.
    destruct (Z.leb_spec 0 e).
    - replace (e - nu) with (e + - nu) by lia.
      rewrite Z.pow_add_r by (unfold nu; lia).
      rewrite Z.mul_assoc, Z.div_mul by lia. reflexivity.
    - replace (- nu) with ((e - nu) + - e) by lia.
      pose proof (pow2_pos (e - nu) ltac:(lia)).
      pose proof (pow2_pos (- e) ltac:(lia)).
      rewrite Z.pow_add_r by lia.
      rewrite (Z.mul_comm (Zpos m)), Z.div_mul_cancel_l by lia. reflexivity. }
  rewrite !F by (unfold nu; lia).
  apply Z.div_le_mono; [apply pow2_pos; unfold nu; lia|].
  apply (le_value_at nu); auto; unfold nu; lia.
Qed.

(** The indices that [Math.floor] yields follow the order of the numbers. *)
Lemma floor_monotone (y1 y2 : float) (z1 z2 : Z) :
  isNaN y1 = false -> isNaN y2 = false -> ord y1 <= ord y2 ->
  float2Z (Math_floor y1) = Some z1 -> float2Z (Math_floor y2) = Some z2 ->
  0 <= z1 -> 0 <= z2 -> z1 <= z2.
Proof.
  intros N1 N2 Ho H1 H2 Hz1 Hz2.
  pose proof (Prim2SF_valid y1) as V1. pose proof (Prim2SF_valid y2) as V2.
  unfold ord in Ho.
  destruct (floor_index y1 z1 H1 Hz1) as [[[s1 E1] ->]|[m1 [e1 [E1 ->]]]]; auto.
  destruct (floor_index y2 z2 H2 Hz2) as [[[s2 E2] ->]|[m2 [e2 [E2 ->]]]].
  - exfalso. rewrite E1, E2 in *. simpl in V1.
    pose proof (SFord_positive m1 e1 V1). cbn [SFord] in *. lia.
  - rewrite E1, E2 in *. simpl in V1, V2.
    apply floorZ_monotone. now apply rank_le_value.
Qed.

(** *** Percentiles of a length *)

Lemma rounded_not_nan (s : bool) (m1 e1 : Z) :
  0 <= m1 -> rounded s m1 e1 <> S754_nan.
Proof.
  intros H. unfold rounded. destruct m1 as [|p|p]; try lia; try discriminate.
  destruct (Zpos p <? 2 ^ 53); [destruct (e1 <=? 971)|destruct (e1 + 1 <=? 971)];
    discriminate.
Qed.

(** The product of two positive numbers, the first one normal. *)
Lemma SFmul_positive_spec (mx : positive) (ex : Z) (my : positive) (ey : Z) :
  2 ^ 52 <= Zpos mx ->
  let e := ex + ey in
  e <= Z.max (Zpos (digits2_pos (mx * my)) + e - 53) (-1074)
  /\ binary_round_aux prec emax false (Zpos (mx * my)) e loc_Exact <> S754_nan
  /\ 0 <= SFord (binary_round_aux prec emax false (Zpos (mx * my)) e loc_Exact).
Proof.
  intros Hx e.
  assert (HP : e <= Z.max (Zpos (digits2_pos (mx * my)) + e - 53) (-1074)).
  { pose proof (digits2_pos_mul mx my Hx). lia. }
  split; auto.
  destruct (binary_round_aux_spec false (mx * my) e HP) as [Hq [Hq' [m1 [Hm1 [_ ->]]]]].
  assert (0 <= Zpos (mx * my)
               / 2 ^ (Z.max (Zpos (digits2_pos (mx * my)) + e - 53) (-1074) - e)).
  { apply Z.div_pos; [lia|]. apply pow2_pos. lia. }
  split; [apply rounded_not_nan; lia|apply rounded_ord_nonneg; lia].
Qed.

Lemma half_bounded (mx : positive) (ex : Z) :
  bounded prec emax mx ex = true -> -52 <= ex ->
  bounded prec emax mx (ex - 1) = true /\ 2 ^ 52 <= Zpos mx.
Proof.
  intros Hb He. apply bounded_inv in Hb. destruct Hb as [He' [Hm Hn]].
  specialize (Hn ltac:(lia)). split; auto.
  apply bounded_intro; auto; lia.
Qed.

Lemma pow2_half (nu : Z) :
  nu <= -53 -> 2 ^ 52 * 2 ^ (-53 - nu) = 2 ^ (-1 - nu).
Proof.
  intros H. rewrite <- Z.pow_add_r by lia. f_equal. lia.
Qed.

(** A number times a factor that does not exceed one half does not exceed
    half the number. *)
Lemma SFmul_le_half (mx : positive) (ex : Z) (lp : spec_float) :
  bounded prec emax mx ex = true -> -52 <= ex ->
  valid_binary lp = true -> lp <> S754_nan ->
  SFord lp <= SFord (S754_finite false 4503599627370496 (-53)) ->
  SFmul prec emax (S754_finite false mx ex) lp <> S754_nan
  /\ SFord (SFmul prec emax (S754_finite false mx ex) lp)
     <= SFord (S754_finite false mx (ex - 1)).
Proof.
  intros Hb He Vl Nl Ho.
  destruct (half_bounded mx ex Hb He) as [Hk Hx].
  pose proof (SFord_positive mx (ex - 1) Hk) as Hpos.
  destruct lp as [sl|sl| |sl ml el]; try congruence; cbn [SFmul xorb].
  - split; [discriminate|]. change (SFord (S754_zero sl)) with 0. lia.
  - destruct sl.
    + split; [discriminate|].
      pose proof (SFord_finite_bound false mx (ex - 1) Hk).
      change (SFord (S754_infinity true)) with (- 2 ^ 70). lia.
    + exfalso. cbn [SFord] in Ho.
      change (2 ^ 70) with 1180591620717411303424 in Ho.
      change (2 ^ 53) with 9007199254740992 in Ho. lia.
  - destruct (SFmul_positive_spec mx ex ml el Hx) as [HP [Nn Hnn]].
    destruct sl.
    + rewrite binary_round_aux_opp. split.
      * destruct (binary_round_aux _ _ _ _ _ _); try discriminate. congruence.
      * rewrite SFord_opp. lia.
    + split; auto. apply rounded_le; auto.
      simpl in Vl.
      pose proof (rank_le_value ml el 4503599627370496 (-53) Vl eq_refl Ho) as Hv.
      unfold le_value in Hv. set (nu := Z.min el (-53)) in *.
      apply (le_value_at (ex + nu)); try (unfold nu; lia).
      replace (ex + el - (ex + nu)) with (el - nu) by lia.
      replace (ex - 1 - (ex + nu)) with (-1 - nu) by lia.
      change 4503599627370496 with (2 ^ 52) in Hv.
      rewrite pow2_half in Hv by (unfold nu; lia).
      rewrite Pos2Z.inj_mul, <- Z.mul_assoc.
      apply Z.mul_le_mono_nonneg_l; lia.
Qed.

(** A number times a factor that is at least one half is at least half the
    number. *)
Lemma SFmul_ge_half (mx : positive) (ex : Z) (up : spec_float) :
  bounded prec emax mx ex = true -> -52 <= ex ->
  valid_binary up = true -> up <> S754_nan ->
  SFord (S754_finite false 4503599627370496 (-53)) <= SFord up ->
  SFmul prec emax (S754_finite false mx ex) up <> S754_nan
  /\ SFord (S754_finite false mx (ex - 1))
     <= SFord (SFmul prec emax (S754_finite false mx ex) up).
Proof.
  intros Hb He Vu Nu Ho.
  destruct (half_bounded mx ex Hb He) as [Hk Hx].
  assert (Hhalf : 0 < SFord (S754_finite false 4503599627370496 (-53)))
    by (apply SFord_positive; reflexivity).
  destruct up as [su|su| |su mu eu]; try congruence; cbn [SFmul xorb].
  - exfalso. change (SFord (S754_zero su)) with 0 in Ho. lia.
  - destruct su.
    + exfalso. change (SFord (S754_infinity true)) with (- 2 ^ 70) in Ho.
      pose proof (Z.pow_nonneg 2 70). lia.
    + split; [discriminate|].
      pose proof (SFord_finite_bound false mx (ex - 1) Hk).
      change (SFord (S754_infinity false)) with (2 ^ 70). lia.
  - destruct su.
    + exfalso. simpl in Vu. pose proof (SFord_negative mu eu Vu). lia.
    + destruct (SFmul_positive_spec mx ex mu eu Hx) as [HP [Nn Hnn]].
      split; auto. apply rounded_ge; auto.
      simpl in Vu.
      pose proof (rank_le_value 4503599627370496 (-53) mu eu eq_refl Vu Ho) as Hv.
      unfold le_value in Hv. set (nu := Z.min (-53) eu) in *.
      apply (le_value_at (ex + nu)); try (unfold nu; lia).
      replace (ex + eu - (ex + nu)) with (eu - nu) by lia.
      replace (ex - 1 - (ex + nu)) with (-1 - nu) by lia.
      change 4503599627370496 with (2 ^ 52) in Hv.
      rewrite pow2_half in Hv by (unfold nu; lia).
      rewrite Pos2Z.inj_mul, <- Z.mul_assoc.
      apply Z.mul_le_mono_nonneg_l; lia.
Qed.

(** The index of a percentile that does not exceed one half is not above
    the index of a percentile that is at least one half. *)
Lemma percentile_indices_ordered (n : nat) (lp up : float) (z1 z2 : Z) :
  (0 < n)%nat ->
  PrimFloat.leb lp 0.5 = true -> PrimFloat.leb 0.5 up = true ->
  float2Z (Math_floor (nat2float n * lp)) = Some z1 ->
  float2Z (Math_floor (nat2float n * up)) = Some z2 ->
  0 <= z1 -> 0 <= z2 -> z1 <= z2.
Proof.
  intros Hn Hl Hu H1 H2 Hz1 Hz2.
  apply leb_ord in Hl. destruct Hl as [Nl [_ Hl]].
  apply leb_ord in Hu. destruct Hu as [_ [Nu Hu]].
  unfold ord in Hl, Hu. change (Prim2SF 0.5) with
    (S754_finite false 4503599627370496 (-53)) in Hl, Hu.
  assert (Ex : exists p, Prim2SF (nat2float n) = binary_round prec emax false p 0).
  { unfold nat2float. rewrite Prim2SF_Z2float.
    destruct (Z.of_nat n) as [|p|p] eqn:E; try lia. exists p. reflexivity. }
  destruct Ex as [p Ex].
  destruct (positive_integer_float p) as [Ei|[mx [ex [Ef [Hb He]]]]].
  - exfalso. rewrite Ei in Ex.
    assert (E2 : Prim2SF (nat2float n * up) = S754_infinity false).
    { rewrite mul_spec, Ex. unfold SF64mul.
      assert (Hhalf : 0 < SFord (S754_finite false 4503599627370496 (-53)))
        by (apply SFord_positive; reflexivity).
      pose proof (Prim2SF_valid up) as Vu. apply isNaN_Prim2SF in Nu.
      destruct (Prim2SF up) as [su|[|]| |[|] mu eu]; try congruence; cbn [SFmul xorb];
        auto; exfalso.
      - change (SFord (S754_zero su)) with 0 in Hu. lia.
      - change (SFord (S754_infinity true)) with (- 2 ^ 70) in Hu.
        pose proof (Z.pow_nonneg 2 70). lia.
      - simpl in Vu. pose proof (SFord_negative mu eu Vu). lia. }
    unfold Math_floor in H2. rewrite E2 in H2.
    unfold float2Z in H2. rewrite E2 in H2. discriminate.
  - rewrite Ef in Ex.
    destruct (SFmul_le_half mx ex (Prim2SF lp)) as [N1 O1];
      auto using Prim2SF_valid, isNaN_Prim2SF.
    destruct (SFmul_ge_half mx ex (Prim2SF up)) as [N2 O2];
      auto using Prim2SF_valid, isNaN_Prim2SF.
    apply (floor_monotone (nat2float n * lp) (nat2float n * up)); auto.
    + apply Prim2SF_isNaN. rewrite mul_spec, Ex. exact N1.
    + apply Prim2SF_isNaN. rewrite mul_spec, Ex. exact N2.
    + unfold ord. rewrite !mul_spec, Ex. unfold SF64mul. lia.
Qed.

Lemma ascending_nth (l : list float) : forall (i j : nat) (a b : float),
  ascending l -> (i <= j)%nat ->
  nth_error l i = Some a -> nth_error l j = Some b -> ord a <= ord b.
Proof.
  induction l as [|x l IH]; intros i j a b Ha Hij Hi Hj.
  - destruct i; discriminate.
  - destruct Ha as [Hall Ha]. rewrite Forall_forall in Hall.
    destruct i as [|i]; destruct j as [|j]; simpl in Hi, Hj; try lia.
    + assert (a = b) by congruence. subst. lia.
    + injection Hi as <-. apply Hall. eapply nth_error_In; eauto.
    + apply (IH i j); auto. lia.
Qed.

(** In a sorted array, the entry at a percentile that does not exceed one
    half is not above the entry at a percentile that is at least one half. *)
Lemma percentile_entries_ordered (l : list float) (lp up a b : float) :
  ascending l ->
  PrimFloat.leb lp 0.5 = true -> PrimFloat.leb 0.5 up = true ->
  array_get l (Math_floor (nat2float (List.length l) * lp)) = Some a ->
  array_get l (Math_floor (nat2float (List.length l) * up)) = Some b ->
  ord a <= ord b.
Proof.
  intros Hasc Hl Hu Ha Hb. unfold array_get in Ha, Hb.
  destruct (float2Z (Math_floor (nat2float (List.length l) * lp))) as [z1|] eqn:E1;
    [|discriminate].
  destruct (float2Z (Math_floor (nat2float (List.length l) * up))) as [z2|] eqn:E2;
    [|discriminate].
  destruct (Z.leb_spec 0 z1) as [Hz1|]; [|discriminate].
  destruct (Z.leb_spec 0 z2) as [Hz2|]; [|discriminate].
  assert (Hn : (0 < List.length l)%nat).
  { destruct l; [destruct (Z.to_nat z1); discriminate|simpl; lia]. }
  pose proof (percentile_indices_ordered _ lp up z1 z2 Hn Hl Hu E1 E2 Hz1 Hz2).
  apply (ascending_nth l (Z.to_nat z1) (Z.to_nat z2)); auto. lia.
Qed.

End Rounding.


(** ** Capping between bounds that the capped column keeps *)

Section Capping.

Local Open Scope Z_scope.

(** The bounds of a column of the rows.  A bound that is absent caps
    nothing. *)
Variable bounds : list Row -> string -> option float * option float.

Hypothesis bounds_numbers : forall rows col,
  (forall l, fst (bounds rows col) = Some l -> isNaN l = false)
  /\ (forall u, snd (bounds rows col) = Some u -> isNaN u = false).

(** The column loop of a row under [cap], for bounds of this kind. *)
Fixpoint capRow (rows : list Row) (row newRow : Row) (columns : list string) : Row :=
  match columns with
  | [] => newRow
  | col :: columns' =>
      let value := parseFloat (get row col) in
      let newRow1 :=
        if lt_bound value (fst (bounds rows col))
        then set newRow col (boundValue (fst (bounds rows col))) else newRow in
      let newRow2 :=
        if gt_bound value (snd (bounds rows col))
        then set newRow1 col (boundValue (snd (bounds rows col))) else newRow1 in
      capRow rows row newRow2 columns'
  end.

Variables (data : list Row) (columns : list string).

(** The cell of a column after capping a row of the data. *)
Definition cappedCell (row : Row) (col : string) : Value :=
  let value := parseFloat (get row col) in
  if gt_bound value (snd (bounds data col)) then boundValue (snd (bounds data col))
  else if lt_bound value (fst (bounds data col))
       then boundValue (fst (bounds data col))
       else get row col.

Lemma capRow_untouched rows row cols c : forall newRow,
  ~ In c cols -> get (capRow rows row newRow cols) c = get newRow c.
Proof.
  induction cols as [|col cols IH]; intros newRow Hn; cbn [capRow]; auto.
  assert (col <> c /\ ~ In c cols) as [Hc Hn'] by (simpl in Hn; tauto).
  rewrite IH by auto.
  destruct (gt_bound _ _); destruct (lt_bound _ _);
    rewrite ?get_set_other by congruence; reflexivity.
Qed.

Lemma capRow_done row cols c : forall newRow,
  get newRow c = cappedCell row c ->
  get (capRow data row newRow cols) c = cappedCell row c.
Proof.
  induction cols as [|col cols IH]; intros newRow H; cbn [capRow]; auto.
  apply IH. destruct (string_dec col c) as [->|Hne].
  - unfold cappedCell in *.
    destruct (gt_bound _ _); [now rewrite get_set_same|].
    destruct (lt_bound _ _); [now rewrite get_set_same|exact H].
  - destruct (gt_bound _ _); destruct (lt_bound _ _);
      rewrite ?get_set_other by congruence; exact H.
Qed.

Lemma capRow_get row cols c : forall newRow,
  In c cols -> get newRow c = get row c ->
  get (capRow data row newRow cols) c = cappedCell row c.
Proof.
  induction cols as [|col cols IH]; intros newRow Hin H; [contradiction|].
  cbn [capRow]. destruct (string_dec col c) as [->|Hne].
  - apply capRow_done. unfold cappedCell.
    destruct (gt_bound _ _); [now rewrite get_set_same|].
    destruct (lt_bound _ _); [now rewrite get_set_same|exact H].
  - destruct Hin as [Heq|Hin]; [congruence|].
    apply IH; auto.
    destruct (gt_bound _ _); destruct (lt_bound _ _);
      rewrite ?get_set_other by congruence; exact H.
Qed.

Lemma parseFloat_cappedCell row c :
  parseFloat (cappedCell row c) = capNumber (bounds data c) (parseFloat (get row c)).
Proof.
  unfold cappedCell, capNumber.
  destruct (gt_bound _ _); auto. destruct (lt_bound _ _); auto.
Qed.

Lemma isNaN_capped rows c v : isNaN (capNumber (bounds rows c) v) = isNaN v.
Proof.
  destruct (isNaN v) eqn:E.
  - now rewrite capNumber_NaN.
  - apply capNumber_spec; auto; apply bounds_numbers.
Qed.

(** The rows after one pass. *)
Definition cappedRows : list Row := map (fun row => capRow data row row columns) data.

Lemma columnNumbers_cappedRows c :
  In c columns ->
  columnNumbers cappedRows c = map (capNumber (bounds data c)) (columnNumbers data c).
Proof.
  intros Hin. unfold columnNumbers, cappedRows. rewrite map_map.
  rewrite (map_ext _ (fun row => capNumber (bounds data c) (parseFloat (get row c)))).
  - apply (filter_map_same (fun v => negb (isNaN v))).
    intros v. now rewrite isNaN_capped.
  - intros row. rewrite capRow_get by auto. apply parseFloat_cappedCell.
Qed.

Section OneColumn.

Variable c : string.
Hypothesis c_selected : In c columns.
Hypothesis c_ordered : ordered (bounds data c).

Definition lowerRank : option Z := option_map ord (fst (bounds data c)).
Definition upperRank : option Z := option_map ord (snd (bounds data c)).

Lemma lowerRank_le_upperRank :
  match lowerRank, upperRank with Some l, Some h => l <= h | _, _ => True end.
Proof.
  pose proof (ordered_ord (bounds data c) (proj1 (bounds_numbers data c))
                (proj2 (bounds_numbers data c)) c_ordered) as H.
  unfold lowerRank, upperRank. destruct (bounds data c) as [[l|] [u|]]; simpl; auto.
Qed.

Lemma capped_number v : isNaN v = false -> isNaN (capNumber (bounds data c) v) = false.
Proof. intros H. now rewrite isNaN_capped. Qed.

Lemma capped_rank v :
  isNaN v = false ->
  ord (capNumber (bounds data c) v) = clamp lowerRank upperRank (ord v).
Proof. intros H. apply capNumber_spec; auto; apply bounds_numbers. Qed.

Lemma capped_monotone x y :
  isNaN x = false -> isNaN y = false -> ord x <= ord y ->
  ord (capNumber (bounds data c) x) <= ord (capNumber (bounds data c) y).
Proof.
  intros Hx Hy H. rewrite !capped_rank by auto.
  apply clamp_monotone; auto. apply lowerRank_le_upperRank.
Qed.

(** The sorted numbers of the column after one pass are, number for number,
    the capped sorted numbers of the column. *)
Lemma sorted_cappedRows :
  sameNumbers (sort numeric_order (columnNumbers cappedRows c))
              (map (capNumber (bounds data c)) (sort numeric_order (columnNumbers data c))).
Proof.
  rewrite columnNumbers_cappedRows by exact c_selected.
  apply sort_map.
  - exact capped_number.
  - exact capped_monotone.
  - apply numbers_columnNumbers.
Qed.

Lemma length_sorted_cappedRows :
  List.length (sort numeric_order (columnNumbers cappedRows c))
  = List.length (sort numeric_order (columnNumbers data c)).
Proof.
  rewrite (sameNumbers_length _ _ sorted_cappedRows). apply length_map.
Qed.

(** An entry of the sorted numbers after one pass. *)
Lemma entry_cappedRows i :
  match array_get (sort numeric_order (columnNumbers data c)) i,
        array_get (sort numeric_order (columnNumbers cappedRows c)) i with
  | Some x, Some y =>
      ord y = clamp lowerRank upperRank (ord x) /\ isNaN x = false /\ isNaN y = false
  | None, None => True
  | _, _ => False
  end.
Proof.
  pose proof (array_get_sameNumbers _ _ i sorted_cappedRows) as H.
  rewrite array_get_map in H.
  destruct (array_get (sort numeric_order (columnNumbers data c)) i) as [x|] eqn:Ex;
    destruct (array_get (sort numeric_order (columnNumbers cappedRows c)) i)
      as [y|] eqn:Ey;
    simpl in H; auto.
  assert (Hx : isNaN x = false).
  { apply array_get_in, in_sort in Ex. now apply in_columnNumbers in Ex. }
  assert (Hy : isNaN y = false).
  { apply array_get_in, in_sort in Ey. now apply in_columnNumbers in Ey. }
  split; auto. rewrite H. now apply capped_rank.
Qed.

(** When the capped column has the bounds of the column, no number of the
    capped column lies outside them. *)
Lemma cappedRows_within row :
  sameBound (fst (bounds data c)) (fst (bounds cappedRows c)) ->
  sameBound (snd (bounds data c)) (snd (bounds cappedRows c)) ->
  let value := parseFloat (get (capRow data row row columns) c) in
  lt_bound value (fst (bounds cappedRows c)) = false
  /\ gt_bound value (snd (bounds cappedRows c)) = false.
Proof.
  intros Bl Bu. cbv zeta. rewrite capRow_get by auto. rewrite parseFloat_cappedCell.
  destruct (isNaN (parseFloat (get row c))) eqn:En.
  - rewrite capNumber_NaN by auto.
    split; [now apply lt_bound_NaN | now apply gt_bound_NaN].
  - apply (within_bounds (fst (bounds data c)) (snd (bounds data c)) _ _ _
             (ord (parseFloat (get row c)))); auto.
    + now apply capped_number.
    + now apply capped_rank.
    + apply lowerRank_le_upperRank.
Qed.

End OneColumn.

Lemma capRow_within rows row cols : forall newRow,
  (forall col, In col cols ->
     lt_bound (parseFloat (get row col)) (fst (bounds rows col)) = false
     /\ gt_bound (parseFloat (get row col)) (snd (bounds rows col)) = false) ->
  capRow rows row newRow cols = newRow.
Proof.
  induction cols as [|col cols IH]; intros newRow H; cbn [capRow]; auto.
  destruct (H col) as [Hl Hg]; [now left|]. rewrite Hl, Hg.
  apply IH. intros col' Hin. apply H. now right.
Qed.

(** A second pass changes nothing when every selected column keeps its
    bounds. *)
Lemma cappedRows_twice :
  (forall col, In col columns ->
     ordered (bounds data col)
     /\ sameBound (fst (bounds data col)) (fst (bounds cappedRows col))
     /\ sameBound (snd (bounds data col)) (snd (bounds cappedRows col))) ->
  map (fun row => capRow cappedRows row row columns) cappedRows = cappedRows.
Proof.
  intros H. apply map_id_in. intros row' Hin.
  unfold cappedRows in Hin. apply in_map_iff in Hin. destruct Hin as [row [<- Hin]].
  apply capRow_within. intros col Hc. destruct (H col Hc) as [Ho [Bl Bu]].
  now apply (cappedRows_within col Hc Ho row).
Qed.

End Capping.

(** ** Capping under [iqr] *)

Section NumbersThatAreEqual.

Local Open Scope Z_scope.

(** The same number: the same value, or two zeros. *)
Definition similar (x y : spec_float) : Prop :=
  x = y \/ exists s s', x = S754_zero s /\ y = S754_zero s'.

Ltac similar_cases :=
  first [ left; reflexivity | right; eexists; eexists; split; reflexivity ].

Lemma SFsub_similar (a a' b b' : spec_float) :
  similar a a' -> similar b b' ->
  similar (SFsub prec emax a b) (SFsub prec emax a' b').
Proof.
  intros [->|[sa [sa' [-> ->]]]] [->|[sb [sb' [-> ->]]]].
  - now left.
  - destruct a' as [[|]|[|]| |[|] m e]; destruct sb; destruct sb'; cbn [SFsub];
      similar_cases.
  - destruct b' as [[|]|[|]| |[|] m e]; destruct sa; destruct sa'; cbn [SFsub];
      similar_cases.
  - destruct sa; destruct sa'; destruct sb; destruct sb'; cbn [SFsub]; similar_cases.
Qed.

Lemma SFadd_similar (a a' b b' : spec_float) :
  similar a a' -> similar b b' ->
  similar (SFadd prec emax a b) (SFadd prec emax a' b').
Proof.
  intros [->|[sa [sa' [-> ->]]]] [->|[sb [sb' [-> ->]]]].
  - now left.
  - destruct a' as [[|]|[|]| |[|] m e]; destruct sb; destruct sb'; cbn [SFadd];
      similar_cases.
  - destruct b' as [[|]|[|]| |[|] m e]; destruct sa; destruct sa'; cbn [SFadd];
      similar_cases.
  - destruct sa; destruct sa'; destruct sb; destruct sb'; cbn [SFadd]; similar_cases.
Qed.

Lemma SFmul_similar (s : bool) (m : positive) (e : Z) (b b' : spec_float) :
  similar b b' ->
  similar (SFmul prec emax (S754_finite s m e) b) (SFmul prec emax (S754_finite s m e) b').
Proof.
  intros [->|[sb [sb' [-> ->]]]].
  - now left.
  - cbn [SFmul]. similar_cases.
Qed.

Lemma similar_numbers (a b : float) :
  isNaN a = false -> isNaN b = false -> ord a = ord b ->
  similar (Prim2SF a) (Prim2SF b).
Proof.
  intros Na Nb. unfold ord.
  pose proof (Prim2SF_valid a) as Va. pose proof (Prim2SF_valid b) as Vb.
  apply isNaN_Prim2SF in Na, Nb.
  destruct (Prim2SF a) as [sa|sa| |sa ma ea]; try congruence;
    destruct (Prim2SF b) as [sb|sb| |sb mb eb]; try congruence; intros E;
    simpl in Va, Vb;
    try (pose proof (SFord_finite_bound sa ma ea Va));
    try (pose proof (SFord_finite_bound sb mb eb Vb)).
  - right. eauto.
  - exfalso. destruct sb; cbn [SFord] in E;
      change (2 ^ 70) with 1180591620717411303424 in E; lia.
  - exfalso. destruct sb;
      [pose proof (SFord_negative mb eb Vb)|pose proof (SFord_positive mb eb Vb)];
      change (SFord (S754_zero sa)) with 0 in E; lia.
  - exfalso. destruct sa; cbn [SFord] in E;
      change (2 ^ 70) with 1180591620717411303424 in E; lia.
  - destruct sa; destruct sb; try (now left); exfalso; cbn [SFord] in E;
      change (2 ^ 70) with 1180591620717411303424 in E; lia.
  - exfalso. destruct sa; cbn [SFord] in E, H;
      change (2 ^ 70) with 1180591620717411303424 in *; lia.
  - exfalso. destruct sa;
      [pose proof (SFord_negative ma ea Va)|pose proof (SFord_positive ma ea Va)];
      change (SFord (S754_zero sb)) with 0 in E; lia.
  - exfalso. destruct sb; cbn [SFord] in E, H;
      change (2 ^ 70) with 1180591620717411303424 in *; lia.
  - left. destruct sa; destruct sb.
    + destruct (SFord_finite_inj ma ea mb eb Va Vb) as [-> ->]; auto.
      cbn [SFord] in *. lia.
    + exfalso. pose proof (SFord_negative ma ea Va).
      pose proof (SFord_positive mb eb Vb). lia.
    + exfalso. pose proof (SFord_positive ma ea Va).
      pose proof (SFord_negative mb eb Vb). lia.
    + destruct (SFord_finite_inj ma ea mb eb Va Vb) as [-> ->]; auto.
Qed.

(** A bound that is a number. *)
Definition numberBound (x : float) : option float :=
  if isNaN x then None else Some x.

Lemma sameBound_similar (x y : float) :
  similar (Prim2SF x) (Prim2SF y) -> sameBound (numberBound x) (numberBound y).
Proof.
  intros H. unfold sameBound, numberBound.
  destruct H as [E|[s [s' [E E']]]].
  - apply Prim2SF_inj in E. subst y. destruct (isNaN x) eqn:N; auto.
  - rewrite !Prim2SF_isNaN by (rewrite ?E, ?E'; discriminate).
    unfold ord. rewrite E, E'. auto.
Qed.

Lemma isNaN_sub_l (a b : float) : isNaN a = true -> isNaN (a - b)%float = true.
Proof.
  rewrite !isNaN_true, sub_spec. intros ->. reflexivity.
Qed.

Lemma isNaN_sub_r (a b : float) : isNaN b = true -> isNaN (a - b)%float = true.
Proof.
  rewrite !isNaN_true, sub_spec. intros ->. unfold SF64sub.
  now destruct (Prim2SF a).
Qed.

Lemma isNaN_add_l (a b : float) : isNaN a = true -> isNaN (a + b)%float = true.
Proof.
  rewrite !isNaN_true, add_spec. intros ->. reflexivity.
Qed.

Lemma isNaN_add_r (a b : float) : isNaN b = true -> isNaN (a + b)%float = true.
Proof.
  rewrite !isNaN_true, add_spec. intros ->. unfold SF64add.
  now destruct (Prim2SF a).
Qed.

Lemma isNaN_mul_r (a b : float) : isNaN b = true -> isNaN (a * b)%float = true.
Proof.
  rewrite !isNaN_true, mul_spec. intros ->. unfold SF64mul.
  now destruct (Prim2SF a).
Qed.

(** The bounds that [iqr] computes from two quartiles. *)
Definition iqrLower (q1 q3 : float) : float := (q1 - 1.5 * (q3 - q1))%float.
Definition iqrUpper (q1 q3 : float) : float := (q3 + 1.5 * (q3 - q1))%float.

Lemma iqrBounds_similar (q1 q3 q1' q3' : float) :
  similar (Prim2SF q1) (Prim2SF q1') -> similar (Prim2SF q3) (Prim2SF q3') ->
  similar (Prim2SF (iqrLower q1 q3)) (Prim2SF (iqrLower q1' q3'))
  /\ similar (Prim2SF (iqrUpper q1 q3)) (Prim2SF (iqrUpper q1' q3')).
Proof.
  intros H1 H3. unfold iqrLower, iqrUpper.
  rewrite !sub_spec, !add_spec, !mul_spec, !sub_spec.
  change (Prim2SF 1.5) with (S754_finite false 6755399441055744 (-52)).
  split.
  - apply SFsub_similar; auto. apply SFmul_similar. now apply SFsub_similar.
  - apply SFadd_similar; auto. apply SFmul_similar. now apply SFsub_similar.
Qed.

Lemma iqrBounds_NaN (q1 q3 : float) :
  isNaN q1 = true \/ isNaN q3 = true ->
  isNaN (iqrLower q1 q3) = true /\ isNaN (iqrUpper q1 q3) = true.
Proof.
  unfold iqrLower, iqrUpper. intros [H|H].
  - split; [now apply isNaN_sub_l|].
    apply isNaN_add_r, isNaN_mul_r. now apply isNaN_sub_r.
  - split; [|now apply isNaN_add_l].
    apply isNaN_sub_r, isNaN_mul_r. now apply isNaN_sub_l.
Qed.

End NumbersThatAreEqual.

Section Iqr.

Local Open Scope Z_scope.

(** The entry of the sorted numbers of a column that [handleOutliers] reads
    as a quartile. *)
Definition quartile (rows : list Row) (col : string) (p : float) : option float :=
  let values := sort numeric_order (columnNumbers rows col) in
  array_get values (Math_floor (nat2float (List.length values) * p)).

(** The bounds of a column under [iqr].  A bound that is [NaN] caps nothing:
    no value is below or above it. *)
Definition iqrBounds (rows : list Row) (col : string) : option float * option float :=
  let q1 := num_or_undefined (quartile rows col 0.25) in
  let q3 := num_or_undefined (quartile rows col 0.75) in
  (numberBound (iqrLower q1 q3), numberBound (iqrUpper q1 q3)).

Lemma detect_iqr rows threshold col value :
  detect rows Iqr threshold col value
  = let q1 := num_or_undefined (quartile rows col 0.25) in
    let q3 := num_or_undefined (quartile rows col 0.75) in
    {| isOutlier := PrimFloat.ltb value (iqrLower q1 q3)
                    || PrimFloat.ltb (iqrUpper q1 q3) value;
       lowerBound := Some (iqrLower q1 q3);
       upperBound := Some (iqrUpper q1 q3) |}.
Proof. reflexivity. Qed.

Lemma iqrBounds_numbers rows col :
  (forall l, fst (iqrBounds rows col) = Some l -> isNaN l = false)
  /\ (forall u, snd (iqrBounds rows col) = Some u -> isNaN u = false).
Proof.
  unfold iqrBounds, numberBound. cbn [fst snd].
  split; intros x; destruct (isNaN _) eqn:E; congruence.
Qed.

Lemma lt_bound_numberBound v x : lt_bound v (numberBound x) = PrimFloat.ltb v x.
Proof.
  unfold numberBound. destruct (isNaN x) eqn:E; simpl; auto.
  symmetry. now apply ltb_NaN_r.
Qed.

Lemma gt_bound_numberBound v x : gt_bound v (numberBound x) = PrimFloat.ltb x v.
Proof.
  unfold numberBound. destruct (isNaN x) eqn:E; simpl; auto.
  symmetry. now apply ltb_NaN_l.
Qed.

Lemma boundValue_numberBound_lt v x :
  PrimFloat.ltb v x = true -> boundValue (numberBound x) = VNum x.
Proof.
  intros H. unfold numberBound. destruct (isNaN x) eqn:E; auto.
  rewrite ltb_NaN_r in H by auto. discriminate.
Qed.

Lemma boundValue_numberBound_gt v x :
  PrimFloat.ltb x v = true -> boundValue (numberBound x) = VNum x.
Proof.
  intros H. unfold numberBound. destruct (isNaN x) eqn:E; auto.
  rewrite ltb_NaN_l in H by auto. discriminate.
Qed.

Variable Math_log : float -> float.
Variables (threshold : Threshold) (columns : list string).

Lemma outlierColumns_iqr_cap rows row cols : forall newRow,
  outlierColumns Math_log rows
    {| out_method := Iqr; out_threshold := threshold;
       out_action := Cap; out_columns := columns |} row newRow cols
  = Some (capRow iqrBounds rows row newRow cols).
Proof.
  induction cols as [|col cols IH]; intros newRow;
    cbn [outlierColumns capRow out_method out_threshold out_action]; auto.
  destruct (isNaN (parseFloat (get row col))) eqn:En.
  - rewrite lt_bound_NaN, gt_bound_NaN by auto. apply IH.
  - rewrite detect_iqr. cbv zeta. cbn [isOutlier lowerBound upperBound].
    unfold iqrBounds. cbn [fst snd].
    rewrite lt_bound_numberBound, gt_bound_numberBound. cbn [lt_bound gt_bound].
    destruct (PrimFloat.ltb (parseFloat (get row col)) _) eqn:El;
      destruct (PrimFloat.ltb _ (parseFloat (get row col))) eqn:Eg;
      cbn [orb];
      rewrite ?(boundValue_numberBound_lt _ _ El), ?(boundValue_numberBound_gt _ _ Eg);
      apply IH.
Qed.

Lemma handleOutliers_iqr_cap rows :
  handleOutliers Math_log rows
    {| out_method := Iqr; out_threshold := threshold;
       out_action := Cap; out_columns := columns |}
  = cappedRows iqrBounds rows columns.
Proof.
  unfold handleOutliers, cappedRows. cbn [out_columns].
  rewrite (map_ext _ (fun row => Some (capRow iqrBounds rows row row columns)))
    by (intros; apply outlierColumns_iqr_cap).
  rewrite <- (map_map (fun row => capRow iqrBounds rows row row columns) Some).
  apply filterNotNull_map_Some.
Qed.

(** The quartiles lie between the bounds, in this order. *)
Lemma quartiles_between rows col a b :
  quartile rows col 0.25 = Some a -> quartile rows col 0.75 = Some b ->
  isNaN a = false /\ isNaN b = false /\ ord a <= ord b
  /\ (isNaN (iqrLower a b) = true \/ ord (iqrLower a b) <= ord a)
  /\ (isNaN (iqrUpper a b) = true \/ ord b <= ord (iqrUpper a b)).
Proof.
  unfold quartile. cbv zeta. intros Ha Hb.
  assert (Na : isNaN a = false).
  { apply array_get_in, in_sort in Ha. now apply in_columnNumbers in Ha. }
  assert (Nb : isNaN b = false).
  { apply array_get_in, in_sort in Hb. now apply in_columnNumbers in Hb. }
  assert (Hab : ord a <= ord b).
  { apply (percentile_entries_ordered _ 0.25 0.75 a b
             (ascending_sort _ (numbers_columnNumbers rows col))); auto. }
  repeat split; auto; apply (iqr_bounds_enclose a b Na Nb Hab).
Qed.

Lemma iqrBounds_ordered rows col : ordered (iqrBounds rows col).
Proof.
  unfold iqrBounds, ordered. cbv zeta.
  destruct (quartile rows col 0.25) as [a|] eqn:Ea;
    [destruct (quartile rows col 0.75) as [b|] eqn:Eb|]; cbn [num_or_undefined].
  - destruct (quartiles_between rows col a b Ea Eb) as [Na [Nb [Hab [Hl Hu]]]].
    unfold numberBound.
    destruct (isNaN (iqrLower a b)) eqn:Nl; auto.
    destruct (isNaN (iqrUpper a b)) eqn:Nu; auto.
    rewrite ltb_ord by auto. apply Z.ltb_ge.
    destruct Hl as [Hl|Hl]; [discriminate|]. destruct Hu as [Hu|Hu]; [discriminate|].
    lia.
  - unfold numberBound.
    destruct (iqrBounds_NaN a NaN (or_intror eq_refl)) as [-> _]. exact I.
  - unfold numberBound.
    destruct (iqrBounds_NaN NaN (num_or_undefined (quartile rows col 0.75))
                (or_introl eq_refl)) as [-> _].
    exact I.
Qed.

(** Capping leaves both quartiles in place, and so both bounds. *)
Lemma iqrBounds_kept data c :
  In c columns ->
  sameBound (fst (iqrBounds data c)) (fst (iqrBounds (cappedRows iqrBounds data columns) c))
  /\ sameBound (snd (iqrBounds data c))
               (snd (iqrBounds (cappedRows iqrBounds data columns) c)).
Proof.
  intros Hc.
  pose proof (entry_cappedRows iqrBounds iqrBounds_numbers data columns c Hc
                (iqrBounds_ordered data c)) as Hentry.
  pose proof (length_sorted_cappedRows iqrBounds iqrBounds_numbers data columns c Hc
                (iqrBounds_ordered data c)) as Hlen.
  assert (Hq : forall p,
             match quartile data c p,
                   quartile (cappedRows iqrBounds data columns) c p with
             | Some x, Some y =>
                 ord y = clamp (lowerRank iqrBounds data c) (upperRank iqrBounds data c)
                           (ord x)
                 /\ isNaN x = false /\ isNaN y = false
             | None, None => True
             | _, _ => False
             end).
  { intros p. unfold quartile. cbv zeta. rewrite Hlen. apply Hentry. }
  pose proof (Hq 0.25%float) as H1. pose proof (Hq 0.75%float) as H3. clear Hq.
  unfold lowerRank, upperRank in H1, H3.
  set (capped := cappedRows iqrBounds data columns) in *.
  unfold iqrBounds in *. cbv zeta in *. cbn [fst snd] in *.
  destruct (quartile data c 0.25) as [a|] eqn:Ea;
    destruct (quartile capped c 0.25) as [a'|] eqn:Ea';
    try contradiction;
    destruct (quartile data c 0.75) as [b|] eqn:Eb;
    destruct (quartile capped c 0.75) as [b'|] eqn:Eb';
    try contradiction; cbn [num_or_undefined] in *.
  - destruct (quartiles_between data c a b Ea Eb) as [Na [Nb [Hab [Hl Hu]]]].
    destruct H1 as [H1 [_ Na']]. destruct H3 as [H3 [_ Nb']].
    assert (Ka : ord a' = ord a /\ ord b' = ord b).
    { unfold numberBound, clamp in H1, H3.
      destruct (isNaN (iqrLower a b)) eqn:Nl; destruct (isNaN (iqrUpper a b)) eqn:Nu;
        cbn [option_map] in H1, H3;
        destruct Hl as [Hl|Hl]; try discriminate;
        destruct Hu as [Hu|Hu]; try discriminate;
        repeat match goal with
               | H : context [?x <? ?y] |- _ => destruct (Z.ltb_spec x y)
               end; lia. }
    destruct Ka as [Ka Kb].
    destruct (iqrBounds_similar a b a' b') as [Sl Su];
      [apply similar_numbers; auto | apply similar_numbers; auto |].
    split; now apply sameBound_similar.
  - unfold numberBound.
    destruct (iqrBounds_NaN a NaN (or_intror eq_refl)) as [-> ->].
    destruct (iqrBounds_NaN a' NaN (or_intror eq_refl)) as [-> ->].
    simpl. auto.
  - unfold numberBound.
    destruct (iqrBounds_NaN NaN b (or_introl eq_refl)) as [-> ->].
    destruct (iqrBounds_NaN NaN b' (or_introl eq_refl)) as [-> ->].
    simpl. auto.
  - unfold numberBound.
    destruct (iqrBounds_NaN NaN NaN (or_introl eq_refl)) as [-> ->].
    simpl. auto.
Qed.

(** Capping under [iqr] a second time changes nothing. *)
Lemma iqr_cap_twice data :
  let config := {| out_method := Iqr; out_threshold := threshold;
                   out_action := Cap; out_columns := columns |} in
  handleOutliers Math_log (handleOutliers Math_log data config) config
  = handleOutliers Math_log data config.
Proof.
  cbv zeta. rewrite !handleOutliers_iqr_cap.
  apply (cappedRows_twice iqrBounds iqrBounds_numbers data columns).
  intros col Hc. split; [apply iqrBounds_ordered|]. now apply iqrBounds_kept.
Qed.

End Iqr.

(** ** Capping under [winsorization] *)

(** The percentiles lie on either side of one half: the ranges that the two
    percentile inputs of the form declare, [0] to [0.5] and [0.5] to [1].
    Without a percentile object the stage reads [0.01] and [0.99]. *)
Definition percentilesSplit (threshold : Threshold) : Prop :=
  match threshold with
  | TNumber _ => True
  | TPercentiles lower upper =>
      PrimFloat.leb lower 0.5 = true /\ PrimFloat.leb 0.5 upper = true
  end.

Lemma percentilesSplit_ordered threshold data col :
  percentilesSplit threshold -> ordered (boundsOf threshold data col).
Proof.
  intros Hs.
  destruct (boundsOf_numbers threshold data col) as [Nl Nu].
  unfold ordered.
  destruct (boundsOf threshold data col) as [[l|] [u|]] eqn:Eb; auto.
  cbn [fst snd] in Nl, Nu.
  rewrite ltb_ord by auto. apply Z.ltb_ge.
  unfold boundsOf, detect in Eb. cbv zeta in Eb. cbn [lowerBound upperBound] in Eb.
  injection Eb as El Eu.
  destruct threshold as [t|lower upper]; cbn [percentilesSplit] in Hs.
  - apply (percentile_entries_ordered _ 0.01 0.99 l u
             (ascending_sort _ (numbers_columnNumbers data col))); auto.
  - destruct Hs as [Hl Hu].
    apply (percentile_entries_ordered _ lower upper l u
             (ascending_sort _ (numbers_columnNumbers data col))); auto.
Qed.

(** ** Claim 8: capping twice *)

Definition invertedExample : list Row :=
  numbersExample [1; 2; 3; 4; 5; 6; 7; 8; 9; 10]%float.

Definition invertedCap : OutlierConfig :=
  {| out_method := Winsorization; out_threshold := TPercentiles 0.9 0.1;
     out_action := Cap; out_columns := ["x"%string] |}.

(** The states of the form that give the two configurations: [z-score] with
    its threshold [3], and [winsorization] after [0.9] is typed into the
    lower input and [0.1] into the upper one.  The handlers of the two
    inputs store the number parsed from the text, whatever the range that
    the inputs declare. *)
Definition zscoreSettings : CleaningConfiguration.OutlierSettings :=
  {| CleaningConfiguration.form_method := ZScore;
     CleaningConfiguration.form_threshold := CleaningConfiguration.FNumber 3;
     CleaningConfiguration.form_action := Cap;
     CleaningConfiguration.form_columns := ["x"%string] |}.

Definition invertedSettings : CleaningConfiguration.OutlierSettings :=
  {| CleaningConfiguration.form_method := Winsorization;
     CleaningConfiguration.form_threshold := CleaningConfiguration.FPercentiles 0.9 0.1;
     CleaningConfiguration.form_action := Cap;
     CleaningConfiguration.form_columns := ["x"%string] |}.

Lemma reachable_zscoreSettings : CleaningConfiguration.reachable zscoreSettings.
Proof.
  apply (CleaningConfiguration.reachable_step
           (CleaningConfiguration.loadedOutliers ["x"%string])).
  - apply (CleaningConfiguration.reachable_step CleaningConfiguration.initialOutliers).
    + apply CleaningConfiguration.reachable_initial.
    + apply CleaningConfiguration.handleDataLoaded.
  - apply (CleaningConfiguration.handleOutlierMethodChange
             (CleaningConfiguration.loadedOutliers ["x"%string]) ZScore).
Qed.

Lemma reachable_invertedSettings : CleaningConfiguration.reachable invertedSettings.
Proof.
  set (loaded := CleaningConfiguration.loadedOutliers ["x"%string]).
  set (lowered :=
         {| CleaningConfiguration.form_method := Winsorization;
            CleaningConfiguration.form_threshold :=
              CleaningConfiguration.FPercentiles 0.9 0.95;
            CleaningConfiguration.form_action := Cap;
            CleaningConfiguration.form_columns := ["x"%string] |}).
  assert (H0 : CleaningConfiguration.reachable loaded).
  { apply (CleaningConfiguration.reachable_step CleaningConfiguration.initialOutliers).
    - apply CleaningConfiguration.reachable_initial.
    - apply CleaningConfiguration.handleDataLoaded. }
  assert (H1 : CleaningConfiguration.reachable lowered).
  { apply (CleaningConfiguration.reachable_step loaded); auto.
    replace lowered with
      {| CleaningConfiguration.form_method := CleaningConfiguration.form_method loaded;
         CleaningConfiguration.form_threshold :=
           CleaningConfiguration.FPercentiles (parseFloat_string "0.9")
             (CleaningConfiguration.shownUpper
                (CleaningConfiguration.form_threshold loaded));
         CleaningConfiguration.form_action := CleaningConfiguration.form_action loaded;
         CleaningConfiguration.form_columns := CleaningConfiguration.form_columns loaded |}
      by (vm_compute; reflexivity).
    apply CleaningConfiguration.lowerPercentileChange. reflexivity. }
  apply (CleaningConfiguration.reachable_step lowered); auto.
  replace invertedSettings with
    {| CleaningConfiguration.form_method := CleaningConfiguration.form_method lowered;
       CleaningConfiguration.form_threshold :=
         CleaningConfiguration.FPercentiles
           (CleaningConfiguration.shownLower
              (CleaningConfiguration.form_threshold lowered))
           (parseFloat_string "0.1");
       CleaningConfiguration.form_action := CleaningConfiguration.form_action lowered;
       CleaningConfiguration.form_columns := CleaningConfiguration.form_columns lowered |}
    by (vm_compute; reflexivity).
  apply CleaningConfiguration.upperPercentileChange. reflexivity.
Qed.

Lemma inverted_percentiles_cap_differs (Math_log : float -> float) :
  handleOutliers Math_log invertedExample invertedCap
  = numbersExample [10; 10; 2; 2; 2; 2; 2; 2; 2; 2]%float
  /\ handleOutliers Math_log (numbersExample [10; 10; 2; 2; 2; 2; 2; 2; 2; 2]%float)
       invertedCap
     = numbersExample [2; 2; 10; 10; 10; 10; 10; 10; 10; 10]%float.
Proof. split; vm_compute; reflexivity. Qed.

(** C8 fails under [z-score], and under [winsorization] when the percentiles
    are inverted; the form gives both configurations.  On ten [0]s and one
    [100] with the threshold [3] of [z-score], capping turns [100] into the
    upper bound of the input, about [95.33]; capping the result again, with
    the mean and the deviation of the capped data, turns that cell into about
    [90.89].  On [1] to [10] with the percentiles [0.9] and [0.1], the lower
    bound is [10] and the upper bound [2]: the first pass gives
    [10, 10, 2, ..., 2], and the second pass, whose bounds are again [10]
    and [2], gives [2, 2, 10, ..., 10]. *)
Lemma cap_twice_differs :
  (CleaningConfiguration.reachable zscoreSettings
   /\ CleaningConfiguration.outlierConfig zscoreSettings = zscoreCap
   /\ forall Math_log,
        handleOutliers Math_log zscoreExample zscoreCap = cappedOnce
        /\ handleOutliers Math_log cappedOnce zscoreCap = cappedTwice
        /\ handleOutliers Math_log (handleOutliers Math_log zscoreExample zscoreCap)
             zscoreCap
           <> handleOutliers Math_log zscoreExample zscoreCap)
  /\ (CleaningConfiguration.reachable invertedSettings
      /\ CleaningConfiguration.outlierConfig invertedSettings = invertedCap
      /\ forall Math_log,
           handleOutliers Math_log invertedExample invertedCap
           = numbersExample [10; 10; 2; 2; 2; 2; 2; 2; 2; 2]%float
           /\ handleOutliers Math_log
                (numbersExample [10; 10; 2; 2; 2; 2; 2; 2; 2; 2]%float) invertedCap
              = numbersExample [2; 2; 10; 10; 10; 10; 10; 10; 10; 10]%float
           /\ handleOutliers Math_log
                (handleOutliers Math_log invertedExample invertedCap) invertedCap
              <> handleOutliers Math_log invertedExample invertedCap).
Proof.
  split; split.
  - exact reachable_zscoreSettings.
  - split; [reflexivity|]. intros Math_log. apply zscore_cap_differs.
  - exact reachable_invertedSettings.
  - split; [reflexivity|]. intros Math_log.
    destruct (inverted_percentiles_cap_differs Math_log) as [E1 E2].
    repeat split; auto. rewrite E1, E2. intros E.
    apply (f_equal (fun rows => parseFloat (get (nth 0 rows []) "x"))) in E.
    apply (f_equal (fun x => PrimFloat.eqb x 10)) in E.
    vm_compute in E. discriminate.
Qed.

(** C8 (amended): with action [cap] and any method but [z-score], applying
    [handleOutliers] to its own output with the same configuration returns
    that output unchanged: under [iqr] and [isolation-forest] for every
    threshold and every selection of columns, and under [winsorization] when
    the lower percentile is at most one half and the upper percentile at
    least one half, or when in every selected column the lower bound read
    from the data does not exceed the upper bound. *)
Theorem cap_is_idempotent_except_zscore (Math_log : float -> float)
    (data : list Row) (method : OutlierMethod) (threshold : Threshold)
    (columns : list string) :
  method <> ZScore ->
  (method = Winsorization ->
   percentilesSplit threshold
   \/ forall col, In col columns -> ordered (boundsOf threshold data col)) ->
  let config := {| out_method := method; out_threshold := threshold;
                   out_action := Cap; out_columns := columns |} in
  handleOutliers Math_log (handleOutliers Math_log data config) config
  = handleOutliers Math_log data config.
Proof.
  intros Hz Hw. cbv zeta. destruct method.
  - apply iqr_cap_twice.
  - contradiction.
  - rewrite !handleOutliers_cap. apply capped_twice.
    destruct (Hw eq_refl) as [Hs|Ho]; auto.
    intros col _. now apply percentilesSplit_ordered.
  - assert (E : forall rows,
               handleOutliers Math_log rows
                 {| out_method := IsolationForest; out_threshold := threshold;
                    out_action := Cap; out_columns := columns |} = rows).
    { intros rows. unfold handleOutliers. cbn [out_columns].
      rewrite (map_ext _ Some) by (intros; apply outlierColumns_isolationForest).
      apply filterNotNull_map_Some. }
    now rewrite !E.
Qed.

(** The theorem on twenty values with the percentiles of the form, 5% and
    95%: the first pass raises [1] to the lower bound [2] and lowers [1000]
    to the upper bound [19]. *)
Lemma cap_is_idempotent_except_zscore_witness :
  let config := {| out_method := Winsorization;
                   out_threshold := TPercentiles 0.05 0.95;
                   out_action := Cap; out_columns := ["x"%string] |} in
  handleOutliers (fun x => x)
    (handleOutliers (fun x => x) winsorizationExample config) config
  = handleOutliers (fun x => x) winsorizationExample config.
Proof.
  apply (cap_is_idempotent_except_zscore (fun x => x) winsorizationExample
           Winsorization (TPercentiles 0.05 0.95) ["x"%string]).
  - discriminate.
  - intros _. left. split; reflexivity.
Defined.
